(** * Adaptive quiz session engine: a shallow embedding of [quiz_logic.py]

    The development follows the Python sources of the vocabulary backend.

    Definitions:
    - [PyStr]    the two [str] methods used to judge an answer ([strip]
                 and [lower]);
    - [Store]    the PostgreSQL tables the engine reads and writes, as
                 lists of rows, and the state-and-error monad in which the
                 methods of the engine run;
    - [Engine]   [QuizEngine]: question selection ([generate_quiz]) and
                 the round-by-round session ([submit_quiz_session_round]);
    - [Mastery]  the mastery trigger and the word-mastery view, which live
                 in SQL files outside the Python sources;
    - [Spec]     the predicates the properties are stated with;
    - [Samples]  a small catalog on which the statements are evaluated;
    - [Service]  [QuizService]: the engine behind a user name, and the
                 summary of a session;
    - [Api]      the quiz endpoints of [main.py], over the tables and the
                 registry of active sessions;
    - [Terms]    more predicates: recency, types, tokens, statuses;
    - [MoreSamples]  a small server over the sample catalog.

    Properties:
    - [PyStrFacts], [SessionFacts], [SelectionFacts], [MasteryFacts];
    - [SelectionMore], [SessionMore], [ApiFacts]. *)

From Stdlib Require Import ZArith QArith String Ascii.
From stdpp Require Import base gmap sets list strings pretty.
Close Scope Q_scope.

(* ===================================================================== *)
(** ** Python strings *)
(* ===================================================================== *)

(** A Python [str] is a sequence of code points.  The model keeps the code
    points below 256, one per [ascii]; on this range [str.isspace] and
    [str.lower] are the two tables below. *)
Module PyStr.

(** [str.isspace] on one code point: TAB, LF, VT, FF, CR, the four
    separators FS..US, SPACE, NEL and NBSP. *)
Definition isspace (c : ascii) : bool :=
  let n := N_of_ascii c in
  ((9 <=? n) && (n <=? 13) || (28 <=? n) && (n <=? 32)
   || (n =? 133) || (n =? 160))%N.

(** [str.lower] on one code point: A..Z and the Latin-1 capitals
    (all of 0xC0..0xDE but the multiplication sign) move up by 32. *)
Definition lower_char (c : ascii) : ascii :=
  let n := N_of_ascii c in
  if ((65 <=? n) && (n <=? 90)
      || (192 <=? n) && (n <=? 222) && negb (n =? 215))%N
  then ascii_of_N (n + 32) else c.

Fixpoint lower (s : string) : string :=
  match s with
  | EmptyString => EmptyString
  | String c s' => String (lower_char c) (lower s')
  end.

Fixpoint lstrip (s : string) : string :=
  match s with
  | EmptyString => EmptyString
  | String c s' => if isspace c then lstrip s' else s
  end.

Fixpoint rstrip (s : string) : string :=
  match s with
  | EmptyString => EmptyString
  | String c s' =>
      match rstrip s' with
      | EmptyString => if isspace c then EmptyString else String c EmptyString
      | t => String c t
      end
  end.

(** [s.strip()] *)
Definition strip (s : string) : string := rstrip (lstrip s).




(** The capitals: A..Z, and the accented capitals from 192 to 222 but
    for the multiplication sign at 215. *)
Definition capital (c : ascii) : Prop :=
  let n := N_of_ascii c in
  (65 ≤ n ≤ 90 ∨ 192 ≤ n ≤ 214 ∨ 216 ≤ n ≤ 222)%N.

#[global] Instance capital_dec c : Decision (capital c).
Proof. unfold capital. apply _. Defined.

(** Two characters that are equal, or a capital and its small letter,
    which stands 32 code points above it. *)
Definition same_letter (c d : ascii) : Prop :=
  c = d
  ∨ (capital c ∧ N_of_ascii d = N_of_ascii c + 32)%N
  ∨ (capital d ∧ N_of_ascii c = N_of_ascii d + 32)%N.

#[global] Instance same_letter_dec c d : Decision (same_letter c d).
Proof. unfold same_letter. apply _. Defined.



End PyStr.

(* ===================================================================== *)
(** ** The database and the monad of the engine *)
(* ===================================================================== *)

Module Store.

(** The exceptions that reach the caller: a [ValueError], raised by the
    engine or by the database driver, and the errors of the server, with
    their primary message. *)
Inductive error :=
| ValueError (msg : string)
| DatabaseError (msg : string).

Inductive result (A : Type) :=
| Ok (a : A)
| Raise (e : error).
Arguments Ok {A} a.
Arguments Raise {A} e.

(** The driver writes a [str] parameter into the statement as a string
    literal, and refuses a string that holds the code point 0, with a
    [ValueError], before anything is sent to the server. *)
Fixpoint has_nul (s : string) : bool :=
  match s with
  | EmptyString => false
  | String c s' => Ascii.eqb c "000" || has_nul s'
  end.

Definition nul_error : error :=
  ValueError "A string literal cannot contain NUL (0x00) characters.".

(** The largest [bigint]. *)
Definition int8_max : Z := 9223372036854775807.

(** [LIMIT n] with a Python [int]: the server reads the count as a
    [bigint], which fails outside the range of the type, and then
    rejects a negative count. *)
Definition limit_error (n : Z) : option error :=
  if ((n <? - int8_max - 1) || (int8_max <? n))%Z
  then Some (DatabaseError "bigint out of range")
  else if (n <? 0)%Z
       then Some (DatabaseError "LIMIT must not be negative")
       else None.

(** One row of [questions], already joined with [quiz_types] (the name is
    [None] when the question has no type) and with [options] (the option
    texts in [option_id] order; the [NULL] of an empty left join is the
    one the sources filter out). *)
Record QuestionRow := {
  q_question_id : Z;
  q_question_text : string;
  q_correct_answer : string;
  q_quiz_type : option string;
  q_options : list string
}.

Record AttemptRow := {
  a_attempt_id : Z;
  a_user_id : Z;
  a_completed : bool        (* [completed_at] is set *)
}.

Record ResponseRow := {
  r_attempt_id : Z;
  r_question_id : Z;
  r_selected_answer : string;
  r_is_correct : bool
}.

(** The legacy [word_mastery] table read by the selector. *)
Record WordMasteryRow := {
  wm_user_id : Z;
  wm_word_id : Z;
  wm_mastered : bool
}.

(** The tables.  [quiz_attempts] is kept in [started_at] order, oldest
    first: every insertion stamps the row with the current time.
    [next_attempt_id] is the sequence behind [attempt_id], and [draws]
    counts the random orders drawn so far. *)
Record World := {
  questions : list QuestionRow;
  word_question_map : list (Z * Z);     (* (word_id, question_id) *)
  word_mastery : list WordMasteryRow;
  quiz_attempts : list AttemptRow;
  quiz_attempt_items : list (Z * Z);    (* (attempt_id, question_id) *)
  responses : list ResponseRow;
  next_attempt_id : Z;
  draws : nat
}.

(** [INSERT INTO responses].  The insertion fires the mastery trigger,
    which lives outside the sources and writes the mastery tables only;
    it is modelled on its own in [Mastery]. *)
Definition insert_response (r : ResponseRow) (w : World) : World :=
  {| questions := questions w;
     word_question_map := word_question_map w;
     word_mastery := word_mastery w;
     quiz_attempts := quiz_attempts w;
     quiz_attempt_items := quiz_attempt_items w;
     responses := responses w ++ [r];
     next_attempt_id := next_attempt_id w;
     draws := draws w |}.

(** [INSERT INTO quiz_attempts ... RETURNING attempt_id] *)
Definition insert_attempt (user_id : Z) (w : World) : World :=
  {| questions := questions w;
     word_question_map := word_question_map w;
     word_mastery := word_mastery w;
     quiz_attempts :=
       quiz_attempts w ++
       [{| a_attempt_id := next_attempt_id w;
           a_user_id := user_id;
           a_completed := false |}];
     quiz_attempt_items := quiz_attempt_items w;
     responses := responses w;
     next_attempt_id := (next_attempt_id w + 1)%Z;
     draws := draws w |}.

(** [INSERT INTO quiz_attempt_items] *)
Definition insert_attempt_item (attempt_id question_id : Z) (w : World)
  : World :=
  {| questions := questions w;
     word_question_map := word_question_map w;
     word_mastery := word_mastery w;
     quiz_attempts := quiz_attempts w;
     quiz_attempt_items := quiz_attempt_items w ++ [(attempt_id, question_id)];
     responses := responses w;
     next_attempt_id := next_attempt_id w;
     draws := draws w |}.

Definition complete_row (attempt_id : Z) (a : AttemptRow) : AttemptRow :=
  if decide (a_attempt_id a = attempt_id)
  then {| a_attempt_id := a_attempt_id a;
          a_user_id := a_user_id a;
          a_completed := true |}
  else a.

(** [UPDATE quiz_attempts SET completed_at = now WHERE attempt_id = ...] *)
Definition complete_attempt (attempt_id : Z) (w : World) : World :=
  {| questions := questions w;
     word_question_map := word_question_map w;
     word_mastery := word_mastery w;
     quiz_attempts := complete_row attempt_id <$> quiz_attempts w;
     quiz_attempt_items := quiz_attempt_items w;
     responses := responses w;
     next_attempt_id := next_attempt_id w;
     draws := draws w |}.

(** One more random order has been drawn. *)
Definition tick (w : World) : World :=
  {| questions := questions w;
     word_question_map := word_question_map w;
     word_mastery := word_mastery w;
     quiz_attempts := quiz_attempts w;
     quiz_attempt_items := quiz_attempt_items w;
     responses := responses w;
     next_attempt_id := next_attempt_id w;
     draws := S (draws w) |}.

(** A method of the engine: it reads and writes the tables and either
    returns or raises.  The connection is in autocommit mode, so the
    writes made before an exception stay. *)
Definition M (A : Type) : Type := World → result A * World.

Definition ret {A} (a : A) : M A := λ w, (Ok a, w).

Definition raise {A} (e : error) : M A := λ w, (Raise e, w).

Definition bind {A B} (m : M A) (k : A → M B) : M B :=
  λ w, match m w with
       | (Ok a, w') => k a w'
       | (Raise e, w') => (Raise e, w')
       end.

(** [SELECT] *)
Definition query {A} (f : World → A) : M A := λ w, (Ok (f w), w).

(** [INSERT] and [UPDATE] *)
Definition execute (f : World → World) : M unit := λ w, (Ok tt, f w).

(** [for x in xs: ys.append(f(x))] *)
Fixpoint for_each {A B} (f : A → M B) (xs : list A) : M (list B) :=
  match xs with
  | [] => ret []
  | x :: xs' =>
      bind (f x) (λ y, bind (for_each f xs') (λ ys, ret (y :: ys)))
  end.

End Store.

Notation "'let*' x ':=' m 'in' k" :=
  (Store.bind m (λ x, k))
  (at level 10, x pattern, k at level 200, only parsing).

(* ===================================================================== *)
(** ** [QuizEngine] *)
(* ===================================================================== *)

Module Engine.
Import Store.

Record QuestionData := {
  question_id : Z;
  question_text : string;
  correct_answer : string;
  options : list string;
  quiz_type : string
}.

(** [QuizConfig] after [__post_init__].  [format_distribution] is a
    [dict]: the list gives its items in insertion order, and its keys are
    pairwise distinct.  [difficulty_distribution] is never read. *)
Record QuizConfig := {
  target_question_count : Z;
  format_distribution : list (string * Z);
  exclude_recent_attempts : Z
}.

Definition default_format_distribution : list (string * Z) :=
  [("synonym", 4); ("antonym", 4); ("word_meaning", 4);
   ("fill_in_blank", 3); ("analogy", 3); ("odd_one_out", 2)]%Z.

(** [QuizConfig(...)] with its defaults and [__post_init__]. *)
Definition QuizConfig_init (target : option Z)
    (distribution : option (list (string * Z))) (recent : option Z)
  : QuizConfig :=
  {| target_question_count := default 20%Z target;
     format_distribution := default default_format_distribution distribution;
     exclude_recent_attempts := default 5%Z recent |}.

Record QuizAttempt := {
  attempt_id : Z;
  attempt_user_id : Z;
  attempt_questions : list QuestionData
}.

Record QuizResponse := {
  resp_question_id : Z;
  resp_question_text : string;
  user_answer : string;
  resp_correct_answer : string;
  selected_answer : string;
  is_correct : bool;
  resp_quiz_type : string
}.

(** [QuizResult] without [mastery_updates], a report read back from the
    legacy tables that no decision of the engine depends on. *)
Record QuizResult := {
  result_attempt_id : Z;
  total_questions : nat;
  correct_answers : nat;
  score_percentage : Q;
  result_responses : list QuizResponse;
  is_perfect_score : bool;
  incorrect_questions : option (list QuestionData)
}.

Record QuizSession := {
  session_id : string;
  user_id : Z;
  original_questions : list QuestionData;
  current_round : Z;
  first_attempt_id : option Z;
  current_attempt_id : option Z;
  completed_rounds : option (list QuizResult);
  is_completed : bool
}.

(** One element of the [responses] argument: a [dict] with the keys
    ['question_id'] and ['answer']. *)
Record ResponseData := {
  rd_question_id : Z;
  rd_answer : string
}.

(** [x or "unknown"] on a nullable name. *)
Definition or_unknown (name : option string) : string :=
  match name with
  | Some n => if decide (n = EmptyString) then "unknown" else n
  | None => "unknown"
  end.

Definition question_data (row : QuestionRow) (type : string) : QuestionData :=
  {| question_id := q_question_id row;
     question_text := q_question_text row;
     correct_answer := q_correct_answer row;
     options := q_options row;
     quiz_type := type |}.

(** [l[:n]] *)
Definition slice_to {A} (n : Z) (l : list A) : list A :=
  if (0 <=? n)%Z then take (Z.to_nat n) l
  else take (Z.to_nat (Z.of_nat (length l) + n)) l.

(** *** Question selection *)

Section selection.

(** The random orders: [random_order n A l] is the order in which the
    [n]-th draw ([ORDER BY RANDOM()] or [random.shuffle]) puts [l]. *)
Variable random_order : nat → ∀ A : Type, list A → list A.

Definition shuffled {A} (l : list A) : M (list A) :=
  λ w, (Ok (random_order (draws w) A l), tick w).

Definition get_excluded_questions (user_id recent_attempts : Z)
  : M (gset Z) :=
  match limit_error recent_attempts with
  | Some e => raise e
  | None =>
      let* recent_attempt_ids :=
        query (λ w,
          take (Z.to_nat recent_attempts)
            (a_attempt_id <$>
               reverse (filter (λ a, a_user_id a = user_id)
                          (quiz_attempts w)))) in
      match recent_attempt_ids with
      | [] => ret ∅
      | _ =>
          let* rows :=
            query (λ w,
              filter (λ r, r_attempt_id r ∈ recent_attempt_ids)
                (responses w)) in
          ret (list_to_set (r_question_id <$> rows))
      end
  end.

Definition get_globally_mastered_words (user_id : Z) : M (gset Z) :=
  let* rows :=
    query (λ w,
      filter (λ m, wm_user_id m = user_id ∧ wm_mastered m = true)
        (word_mastery w)) in
  ret (list_to_set (wm_word_id <$> rows)).

(** The sub-select of the word clause: the questions mapped to one of
    the excluded words. *)
Definition questions_of_words (w : World) (excluded_words : gset Z)
  : list Z :=
  snd <$> filter (λ m, m.1 ∈ excluded_words) (word_question_map w).

(** The [WHERE] of [get_questions_by_criteria]; each exclusion clause
    is there only when its set is not empty. *)
Definition matches_criteria (w : World) (quiz_type : string)
    (excluded_questions excluded_words : gset Z) (q : QuestionRow)
  : Prop :=
  q_quiz_type q = Some quiz_type
  ∧ (excluded_questions ≠ ∅ → q_question_id q ∉ excluded_questions)
  ∧ (excluded_words ≠ ∅ →
     q_question_id q ∉ questions_of_words w excluded_words).

#[global] Instance matches_criteria_dec w t exq exw q :
  Decision (matches_criteria w t exq exw q).
Proof. unfold matches_criteria. apply _. Defined.

(** The loop over the fetched rows: stop as soon as [count] questions
    are there. *)
Fixpoint collect_rows (quiz_type : string) (count : Z)
    (results : list QuestionRow) (questions : list QuestionData)
  : list QuestionData :=
  match results with
  | [] => questions
  | row :: rest =>
      if (count <=? Z.of_nat (length questions))%Z then questions
      else collect_rows quiz_type count rest
             (questions ++ [question_data row quiz_type])
  end.

(** The row's [quiz_type] is [qt.name], which the [WHERE] clause fixes
    to the requested type.  The driver refuses a type name with a NUL,
    and the server a [LIMIT] that is negative or no [bigint]. *)
Definition get_questions_by_criteria (quiz_type : string) (count : Z)
    (excluded_questions excluded_words : gset Z)
  : M (list QuestionData) :=
  if has_nul quiz_type then raise nul_error
  else
    match limit_error (count * 2) with
    | Some e => raise e
    | None =>
        let* matching :=
          query (λ w,
            filter (matches_criteria w quiz_type
                      excluded_questions excluded_words)
              (questions w)) in
        let* ordered := shuffled matching in
        let results := take (Z.to_nat (count * 2)) ordered in
        ret (collect_rows quiz_type count results [])
    end.

(** [for quiz_type, target_count in format_distribution.items()] *)
Fixpoint collect_by_type (distribution : list (string * Z))
    (excluded_questions excluded_words : gset Z)
    (all_questions : list QuestionData) : M (list QuestionData) :=
  match distribution with
  | [] => ret all_questions
  | (quiz_type, target_count) :: rest =>
      let* questions :=
        get_questions_by_criteria quiz_type target_count
          excluded_questions excluded_words in
      collect_by_type rest excluded_questions excluded_words
        (all_questions ++ questions)
  end.

(** The backfill of [generate_quiz]. *)
Definition backfill (target : Z) (excluded_questions excluded_words : gset Z)
    (all_questions : list QuestionData) : M (list QuestionData) :=
  if (Z.of_nat (length all_questions) <? target)%Z then
    let needed := (target - Z.of_nat (length all_questions))%Z in
    let used_question_ids : gset Z :=
      list_to_set (question_id <$> all_questions) in
    let excluded_questions := excluded_questions ∪ used_question_ids in
    let* backfill_questions :=
      get_questions_by_criteria "synonym" needed
        excluded_questions excluded_words in
    ret (all_questions ++ backfill_questions)
  else ret all_questions.

(** The questions of a new quiz, before the attempt is recorded. *)
Definition select_questions (user_id : Z) (config : QuizConfig)
  : M (list QuestionData) :=
  let* excluded_questions :=
    get_excluded_questions user_id (exclude_recent_attempts config) in
  let* excluded_words := get_globally_mastered_words user_id in
  let* all_questions :=
    collect_by_type (format_distribution config)
      excluded_questions excluded_words [] in
  let* all_questions :=
    backfill (target_question_count config)
      excluded_questions excluded_words all_questions in
  let* all_questions := shuffled all_questions in
  ret (slice_to (target_question_count config) all_questions).

(** The attempt row and its items. *)
Definition record_attempt (user_id : Z) (questions : list QuestionData)
  : M QuizAttempt :=
  let* attempt_id := query next_attempt_id in
  let* _ := execute (insert_attempt user_id) in
  let* _ :=
    for_each
      (λ question,
        execute (insert_attempt_item attempt_id (question_id question)))
      questions in
  ret {| attempt_id := attempt_id;
         attempt_user_id := user_id;
         attempt_questions := questions |}.

Definition generate_quiz (user_id : Z) (config : option QuizConfig)
  : M QuizAttempt :=
  let config := default (QuizConfig_init None None None) config in
  let* final_questions := select_questions user_id config in
  record_attempt user_id final_questions.

End selection.

(** *** Answering *)

(** [selected_answer.strip().lower() == correct_answer.strip().lower()] *)
Definition answer_matches (selected_answer correct_answer : string) : bool :=
  String.eqb (PyStr.lower (PyStr.strip selected_answer))
             (PyStr.lower (PyStr.strip correct_answer)).

(** [cur.fetchone()] on the question with the given id. *)
Definition find_question (question_id : Z) (w : World) : option QuestionRow :=
  head (filter (λ q, q_question_id q = question_id) (questions w)).

(** The answer is a parameter of the [INSERT] only: an answer with a
    NUL is refused there, once the question has been found. *)
Definition submit_response (attempt_id question_id : Z)
    (selected_answer : string) : M QuizResponse :=
  let* result := query (find_question question_id) in
  match result with
  | None =>
      raise (ValueError ("Question " +:+ pretty question_id +:+ " not found"))
  | Some row =>
      let is_correct := answer_matches selected_answer (q_correct_answer row) in
      if has_nul selected_answer then raise nul_error
      else
        let* _ :=
          execute (insert_response
                     {| r_attempt_id := attempt_id;
                        r_question_id := question_id;
                        r_selected_answer := selected_answer;
                        r_is_correct := is_correct |}) in
        ret {| resp_question_id := question_id;
               resp_question_text := q_question_text row;
               user_answer := selected_answer;
               resp_correct_answer := q_correct_answer row;
               selected_answer := selected_answer;
               is_correct := is_correct;
               resp_quiz_type := or_unknown (q_quiz_type row) |}
  end.

(** [correct_count / total_count * 100 if total_count > 0 else 0], as an
    exact fraction. *)
Definition score (correct_count total_count : nat) : Q :=
  if (0 <? total_count)%nat
  then (inject_Z (Z.of_nat correct_count)
        / inject_Z (Z.of_nat total_count) * 100)%Q
  else 0%Q.

(** The full question data of the incorrect responses. *)
Definition fetch_incorrect_questions (quiz_responses : list QuizResponse)
  : M (list QuestionData) :=
  let incorrect_question_ids :=
    resp_question_id <$> filter (λ r, is_correct r = false) quiz_responses in
  match incorrect_question_ids with
  | [] => ret []
  | _ =>
      let* rows :=
        query (λ w,
          filter (λ q, q_question_id q ∈ incorrect_question_ids)
            (questions w)) in
      ret ((λ row, question_data row (or_unknown (q_quiz_type row))) <$> rows)
  end.

Definition submit_quiz (attempt_id : Z) (responses : list ResponseData)
  : M QuizResult :=
  let* quiz_responses :=
    for_each
      (λ response_data,
        submit_response attempt_id
          (rd_question_id response_data) (rd_answer response_data))
      responses in
  let correct_count :=
    length (filter (λ r, is_correct r = true) quiz_responses) in
  let total_count := length quiz_responses in
  let score_percentage := score correct_count total_count in
  let is_perfect_score := bool_decide (correct_count = total_count) in
  let* incorrect_questions :=
    if is_perfect_score then ret []
    else fetch_incorrect_questions quiz_responses in
  let* _ := execute (complete_attempt attempt_id) in
  ret {| result_attempt_id := attempt_id;
         total_questions := total_count;
         correct_answers := correct_count;
         score_percentage := score_percentage;
         result_responses := quiz_responses;
         is_perfect_score := is_perfect_score;
         incorrect_questions :=
           match incorrect_questions with
           | [] => None
           | _ => Some incorrect_questions
           end |}.

(** *** Sessions *)

(** [create_quiz_session]; the caller supplies the fresh [uuid4]. *)
Definition create_quiz_session
    (random_order : nat → ∀ A : Type, list A → list A)
    (uuid : string) (user_id : Z) (config : option QuizConfig)
  : M QuizSession :=
  let* quiz_attempt := generate_quiz random_order user_id config in
  ret {| session_id := uuid;
         user_id := user_id;
         original_questions := attempt_questions quiz_attempt;
         current_round := 1;
         first_attempt_id := Some (attempt_id quiz_attempt);
         current_attempt_id := Some (attempt_id quiz_attempt);
         completed_rounds := Some [];
         is_completed := false |}.

(** A new attempt with only the incorrect questions. *)
Definition create_retry_quiz (user_id : Z)
    (incorrect_questions : list QuestionData) : M QuizAttempt :=
  record_attempt user_id incorrect_questions.

Definition submit_quiz_session_round (session : QuizSession)
    (responses : list ResponseData) : M (QuizResult * QuizSession) :=
  match current_attempt_id session with
  | None => raise (ValueError "No active attempt in session")
  | Some current =>
      let* result := submit_quiz current responses in
      let rounds := default [] (completed_rounds session) ++ [result] in
      if is_perfect_score result then
        ret (result,
             {| session_id := session_id session;
                user_id := user_id session;
                original_questions := original_questions session;
                current_round := current_round session;
                first_attempt_id := first_attempt_id session;
                current_attempt_id := current_attempt_id session;
                completed_rounds := Some rounds;
                is_completed := true |})
      else
        match incorrect_questions result with
        | Some ((_ :: _) as incorrect) =>
            let* retry_attempt :=
              create_retry_quiz (user_id session) incorrect in
            ret (result,
                 {| session_id := session_id session;
                    user_id := user_id session;
                    original_questions := original_questions session;
                    current_round := (current_round session + 1)%Z;
                    first_attempt_id := first_attempt_id session;
                    current_attempt_id := Some (attempt_id retry_attempt);
                    completed_rounds := Some rounds;
                    is_completed := is_completed session |})
        | _ =>
            ret (result,
                 {| session_id := session_id session;
                    user_id := user_id session;
                    original_questions := original_questions session;
                    current_round := current_round session;
                    first_attempt_id := first_attempt_id session;
                    current_attempt_id := current_attempt_id session;
                    completed_rounds := Some rounds;
                    is_completed := true |})
        end
  end.

(** The session object after the call: the method updates it in place,
    and only once [submit_quiz] has returned. *)
Definition session_after (session : QuizSession)
    (responses : list ResponseData) (w : World) : QuizSession :=
  match submit_quiz_session_round session responses w with
  | (Ok (_, session'), _) => session'
  | (Raise _, _) => session
  end.

(** The tables after the call. *)
Definition world_after (session : QuizSession)
    (responses : list ResponseData) (w : World) : World :=
  (submit_quiz_session_round session responses w).2.

(** The questions of the round a session is in: the items of its current
    attempt. *)
Definition active_question_ids (session : QuizSession) (w : World) : list Z :=
  match current_attempt_id session with
  | Some current =>
      snd <$> filter (λ item, item.1 = current) (quiz_attempt_items w)
  | None => []
  end.

(** A session played over several rounds, one submission after the
    other.  A submission that raises leaves the session as it was. *)
Fixpoint play (session : QuizSession) (rounds : list (list ResponseData))
    (w : World) : QuizSession * World :=
  match rounds with
  | [] => (session, w)
  | responses :: rest =>
      play (session_after session responses w) rest
           (world_after session responses w)
  end.

End Engine.

(* ===================================================================== *)
(** ** Question mastery and word mastery *)
(* ===================================================================== *)

Module Mastery.

(** Modelled from the spec: the threshold of the mastery trigger, the
    number of correct first attempts that masters a question. *)
Definition mastery_threshold : nat := 2.

(** Modelled from the spec: a row of the question mastery table, which
    the trigger maintains. *)
Record QuestionMasteryState := {
  first_try_correct_count : nat;
  is_mastered : bool
}.

(** The state of a question the user never attempted. *)
Definition unseen : QuestionMasteryState :=
  {| first_try_correct_count := 0; is_mastered := false |}.

(** The question mastery records, by (user, question). *)
Abbreviation MasteryStore := (gmap (Z * Z) QuestionMasteryState).

(** Modelled from the spec: [questionMasteryState], the read of one
    record; a pair that has no record yet reads as [unseen]. *)
Definition questionMasteryState (store : MasteryStore)
    (user_id question_id : Z) : QuestionMasteryState :=
  default unseen (store !! (user_id, question_id)).

(** Modelled from the spec: the database trigger that updates question
    mastery when a response row is inserted; the SQL that defines it is
    not among the sources.  A correct first attempt adds one to the
    counter unless the question is mastered already, and the question is
    mastered once the counter reaches the threshold. *)
Definition verified (st : QuestionMasteryState) : QuestionMasteryState :=
  if is_mastered st then st
  else
    let count := S (first_try_correct_count st) in
    {| first_try_correct_count := count;
       is_mastered := bool_decide (mastery_threshold ≤ count) |}.

(** Modelled from the spec: [recordAttempt], the entry point of the
    trigger above.  Only a first attempt within a round counts. *)
Definition recordAttempt (user_id question_id : Z)
    (isCorrect isFirstAttemptThisRound : bool) (store : MasteryStore)
  : MasteryStore :=
  if isFirstAttemptThisRound && isCorrect
  then <[(user_id, question_id) :=
           verified (questionMasteryState store user_id question_id)]> store
  else store.

(** One attempt at a question: was it correct, was it the first attempt
    within its round. *)
Record Attempt := {
  at_user_id : Z;
  at_question_id : Z;
  at_is_correct : bool;
  at_is_first : bool
}.

Definition record (store : MasteryStore) (a : Attempt) : MasteryStore :=
  recordAttempt (at_user_id a) (at_question_id a)
    (at_is_correct a) (at_is_first a) store.

(** The store after a history of attempts, oldest first. *)
Definition replay (store : MasteryStore) (history : list Attempt)
  : MasteryStore :=
  foldl record store history.

(** An attempt counts for (user, question) when it is theirs, correct,
    and the first of its round. *)
Definition counts (user_id question_id : Z) (a : Attempt) : Prop :=
  at_user_id a = user_id ∧ at_question_id a = question_id
  ∧ at_is_correct a = true ∧ at_is_first a = true.

#[global] Instance counts_dec u q a : Decision (counts u q a).
Proof. unfold counts. apply _. Defined.

(** The correct first attempts of a user at a question in a history. *)
Definition correct_first_attempts (user_id question_id : Z)
    (history : list Attempt) : nat :=
  length (filter (counts user_id question_id) history).

(** A row of the view, as [WordMasteryDetail] of
    [enhanced_quiz_api_models.py] keeps it (the word by its id, without
    the status label and the time stamp). *)
Record WordMasteryDetail := {
  word_id : Z;
  total_questions : nat;
  mastered_questions : nat;
  mastery_percentage : Q
}.

(** Modelled from the spec: [questionsMappedTo], the questions mapped to
    a word, each once. *)
Definition questionsMappedTo (word_question_map : list (Z * Z)) (word : Z)
  : list Z :=
  remove_dups (snd <$> filter (λ m, m.1 = word) word_question_map).

(** Modelled from the spec: the percentage column of the view,
    100 * mastered / total, and 0 when no question is mapped. *)
Definition percentage (mastered total : nat) : Q :=
  if (total =? 0)%nat then 0%Q
  else (100 * inject_Z (Z.of_nat mastered) / inject_Z (Z.of_nat total))%Q.

(** Modelled from the spec: the view [vw_word_mastery_detail], defined in
    SQL outside the sources.  It is computed on every read from the
    question mastery records and the current word-question map. *)
Definition wordMastery (store : MasteryStore)
    (word_question_map : list (Z * Z)) (user_id word : Z)
  : WordMasteryDetail :=
  let mapped := questionsMappedTo word_question_map word in
  let mastered :=
    filter (λ q, is_mastered (questionMasteryState store user_id q) = true)
      mapped in
  {| word_id := word;
     total_questions := length mapped;
     mastered_questions := length mastered;
     mastery_percentage := percentage (length mastered) (length mapped) |}.

(** Modelled from the spec: a new question-word mapping, added by the
    catalog management outside the sources. *)
Definition add_mapping (word question_id : Z)
    (word_question_map : list (Z * Z)) : list (Z * Z) :=
  word_question_map ++ [(word, question_id)].

(** [get_enhanced_mastery_updates] of [enhanced_app.py]: the mastery
    details of the words mapped to the given questions, one read of the
    view for each word.  Words are named by their id here, and the view
    has a row for every word, so that the [if word_detail] guard always
    passes. *)
Definition get_enhanced_mastery_updates (store : MasteryStore)
    (word_question_map : list (Z * Z)) (user_id : Z) (question_ids : list Z)
  : list WordMasteryDetail :=
  match question_ids with
  | [] => []
  | _ =>
      let affected_words :=
        remove_dups
          (fst <$> filter (λ m, m.2 ∈ question_ids) word_question_map) in
      wordMastery store word_question_map user_id <$> affected_words
  end.

End Mastery.

(* ===================================================================== *)
(** ** The vocabulary of the properties *)
(* ===================================================================== *)

Module Spec.
Import Store Engine.

(** The tables a submission never writes: the catalog, the word map, the
    attempt items and the attempt sequence. *)
Definition kept (w w' : World) : Prop :=
  questions w' = questions w
  ∧ word_question_map w' = word_question_map w
  ∧ quiz_attempt_items w' = quiz_attempt_items w
  ∧ next_attempt_id w' = next_attempt_id w.

(** The question of a response is in the catalog. *)
Definition known (w : World) (rd : ResponseData) : Prop :=
  rd_question_id rd ∈ q_question_id <$> questions w.

#[global] Instance known_dec w rd : Decision (known w rd).
Proof. unfold known. apply _. Defined.

(** [r] is the graded form of the submitted answer [rd]. *)
Definition graded (w : World) (rd : ResponseData) (r : QuizResponse) : Prop :=
  ∃ row,
    find_question (rd_question_id rd) w = Some row
    ∧ resp_question_id r = rd_question_id rd
    ∧ selected_answer r = rd_answer rd
    ∧ resp_correct_answer r = q_correct_answer row
    ∧ is_correct r = answer_matches (rd_answer rd) (q_correct_answer row).

(** The response row written for a graded response. *)
Definition response_row (attempt_id : Z) (r : QuizResponse) : ResponseRow :=
  {| r_attempt_id := attempt_id;
     r_question_id := resp_question_id r;
     r_selected_answer := selected_answer r;
     r_is_correct := is_correct r |}.

(** The loop of [submit_quiz] over the submitted responses. *)
Definition submit_all (aid : Z) (rs : list ResponseData)
  : M (list QuizResponse) :=
  for_each (λ rd, submit_response aid (rd_question_id rd) (rd_answer rd)) rs.

(** The question ids of the incorrect responses. *)
Definition incorrect_ids (resps : list QuizResponse) : list Z :=
  resp_question_id <$> filter (λ r, is_correct r = false) resps.

(** Some submitted answer to question [qid] is wrong. *)
Definition answered_incorrectly (w : World) (responses : list ResponseData)
    (qid : Z) : Prop :=
  ∃ rd row,
    rd ∈ responses
    ∧ rd_question_id rd = qid
    ∧ find_question qid w = Some row
    ∧ answer_matches (rd_answer rd) (q_correct_answer row) = false.

(** Attempt ids come from the sequence: no item bears an id that the
    sequence has yet to hand out. *)
Definition items_below_sequence (w : World) : Prop :=
  Forall (λ item, item.1 < next_attempt_id w)%Z (quiz_attempt_items w).

#[global] Instance items_below_sequence_dec w :
  Decision (items_below_sequence w).
Proof. unfold items_below_sequence. apply _. Defined.

(** The rounds a session has completed. *)
Definition rounds_of (s : QuizSession) : list QuizResult :=
  default [] (completed_rounds s).

(** A result is flagged perfect exactly when its score is 100 or it has
    no response at all. *)
Definition scored (res : QuizResult) : Prop :=
  is_perfect_score res = true
  ↔ (score_percentage res == 100)%Q ∨ total_questions res = 0.

(** A session in its first round, nothing submitted yet. *)
Definition fresh_session (uuid : string) (user attempt : Z)
    (questions : list QuestionData) : QuizSession :=
  {| session_id := uuid;
     user_id := user;
     original_questions := questions;
     current_round := 1;
     first_attempt_id := Some attempt;
     current_attempt_id := Some attempt;
     completed_rounds := Some [];
     is_completed := false |}.

(** The primary key of [questions]. *)
Definition question_ids_unique (w : World) : Prop :=
  NoDup (q_question_id <$> questions w).

#[global] Instance question_ids_unique_dec w :
  Decision (question_ids_unique w).
Proof. unfold question_ids_unique. apply _. Defined.

(** The words a question is mapped to. *)
Definition words_of (w : World) (qid : Z) : list Z :=
  fst <$> filter (λ m, m.2 = qid) (word_question_map w).

(** The answer of a response can be written to [responses]: it holds
    no NUL. *)
Definition writable (rd : ResponseData) : Prop :=
  has_nul (rd_answer rd) = false.

#[global] Instance writable_dec rd : Decision (writable rd).
Proof. unfold writable. apply _. Defined.

(** A type of the distribution can be queried: its name holds no NUL,
    and twice its sub-target, the [LIMIT] of its query, is a [bigint]
    that is not negative. *)
Definition type_ok (kv : string * Z) : Prop :=
  has_nul kv.1 = false ∧ (0 ≤ kv.2 * 2 ≤ int8_max)%Z.

#[global] Instance type_ok_dec kv : Decision (type_ok kv).
Proof. unfold type_ok. apply _. Defined.

(** The queries the selector always runs go through: the recency window
    is a [bigint] that is not negative, and every type of the
    distribution can be queried. *)
Definition queries_ok (config : QuizConfig) : Prop :=
  (0 ≤ exclude_recent_attempts config ≤ int8_max)%Z
  ∧ Forall type_ok (format_distribution config).

#[global] Instance queries_ok_dec config : Decision (queries_ok config).
Proof. unfold queries_ok. apply _. Defined.

(** No query of the selector fails: the queries it always runs go
    through, and twice the target, which bounds the [LIMIT] of the
    backfill, is a [bigint]. *)
Definition limits_ok (config : QuizConfig) : Prop :=
  queries_ok config
  ∧ (target_question_count config * 2 ≤ int8_max)%Z.

#[global] Instance limits_ok_dec config : Decision (limits_ok config).
Proof. unfold limits_ok. apply _. Defined.

(** The keys of the [format_distribution] dict are pairwise distinct. *)
Definition keys_unique (config : QuizConfig) : Prop :=
  NoDup (format_distribution config).*1.

#[global] Instance keys_unique_dec config : Decision (keys_unique config).
Proof. unfold keys_unique. apply _. Defined.

(** The excluded-word set of the selector: the words the user has
    mastered, as [get_globally_mastered_words] reads them. *)
Definition excluded_word_set (w : World) (user : Z) : gset Z :=
  list_to_set
    (wm_word_id <$>
       filter (λ m, wm_user_id m = user ∧ wm_mastered m = true)
         (word_mastery w)).

(** Two states of the tables with the same catalog and word map. *)
Definition same_catalog (w w' : World) : Prop :=
  questions w' = questions w
  ∧ word_question_map w' = word_question_map w.

(** [q] is the data of a catalog row of its type, is not an excluded
    question, and none of its words is excluded. *)
Definition picked (w : World) (excluded_questions excluded_words : gset Z)
    (q : QuestionData) : Prop :=
  ∃ row,
    row ∈ questions w
    ∧ q = question_data row (quiz_type q)
    ∧ q_quiz_type row = Some (quiz_type q)
    ∧ (question_id q ∉ excluded_questions)
    ∧ (∀ word,
         word ∈ words_of w (question_id q) → word ∉ excluded_words).

(** A drawn order is a rearrangement of the list it is drawn from. *)
Definition rearranges (random_order : nat → ∀ A : Type, list A → list A)
  : Prop :=
  ∀ n A (l : list A), random_order n A l ≡ₚ l.

End Spec.

(* ===================================================================== *)
(** ** A small catalog *)
(* ===================================================================== *)

(** Four questions of two types, one attempt of user 7 with the questions
    1 and 3, and one word (11, mapped to question 2) that the user has
    mastered. *)
Module Samples.
Import Store Engine Spec.

Definition row (id : Z) (answer type : string) : QuestionRow :=
  {| q_question_id := id;
     q_question_text := "Which word fits?";
     q_correct_answer := answer;
     q_quiz_type := Some type;
     q_options := [answer; "other"] |}.

Definition world : World :=
  {| questions :=
       [row 1 "happy" "synonym"; row 2 "sad" "synonym";
        row 3 "big" "antonym"; row 4 "tiny" "antonym"];
     word_question_map := [(10, 1); (11, 2); (12, 3)]%Z;
     word_mastery :=
       [{| wm_user_id := 7; wm_word_id := 11; wm_mastered := true |}];
     quiz_attempts :=
       [{| a_attempt_id := 1; a_user_id := 7; a_completed := false |}];
     quiz_attempt_items := [(1, 1); (1, 3)]%Z;
     responses := [];
     next_attempt_id := 2;
     draws := 0 |}.

Definition session : QuizSession :=
  fresh_session "session" 7 1
    [question_data (row 1 "happy" "synonym") "synonym";
     question_data (row 3 "big" "antonym") "antonym"].

Definition answer (id : Z) (text : string) : ResponseData :=
  {| rd_question_id := id; rd_answer := text |}.

(** Every draw reverses its list. *)
Definition reversing : nat → ∀ A : Type, list A → list A :=
  λ _ A l, reverse l.

Definition config (target : Z) : QuizConfig :=
  {| target_question_count := target;
     format_distribution := [("synonym", 2); ("antonym", 1)]%Z;
     exclude_recent_attempts := 5 |}.

End Samples.

(* ===================================================================== *)
(** ** [QuizService] *)
(* ===================================================================== *)

Module Service.
Import Store Engine.

(** A row of [users], as the service reads it. *)
Record UserRow := {
  u_user_id : Z;
  u_username : string
}.

(** [SELECT user_id FROM users WHERE username = ...] and [fetchone]. *)
Definition find_user (username : string) (users : list UserRow) : option Z :=
  u_user_id <$> head (filter (λ u, u_username u = username) users).

Definition user_not_found (username : string) : error :=
  ValueError ("User '" +:+ username +:+ "' not found").

(** The user name is a parameter of the [SELECT]: the driver refuses a
    name with a NUL. *)
Definition create_quiz_for_user
    (random_order : nat → ∀ A : Type, list A → list A)
    (users : list UserRow) (username : string) (config : option QuizConfig)
  : M QuizAttempt :=
  if has_nul username then raise nul_error
  else
    match find_user username users with
    | None => raise (user_not_found username)
    | Some user_id => generate_quiz random_order user_id config
    end.

Definition take_quiz (attempt_id : Z) (user_responses : list ResponseData)
  : M QuizResult :=
  submit_quiz attempt_id user_responses.

Definition create_quiz_session_for_user
    (random_order : nat → ∀ A : Type, list A → list A)
    (uuid : string) (users : list UserRow) (username : string)
    (config : option QuizConfig) : M QuizSession :=
  if has_nul username then raise nul_error
  else
    match find_user username users with
    | None => raise (user_not_found username)
    | Some user_id => create_quiz_session random_order uuid user_id config
    end.

Definition submit_quiz_session_round (session : QuizSession)
    (user_responses : list ResponseData) : M (QuizResult * QuizSession) :=
  Engine.submit_quiz_session_round session user_responses.

(** One entry of ['rounds_summary']. *)
Record RoundSummary := {
  round : nat;
  round_attempt_id : Z;
  questions_count : nat;
  round_correct_answers : nat;
  round_score_percentage : Q;
  is_perfect : bool
}.

(** The dictionary returned by [get_session_summary], without the two
    entries computed from [mastery_updates] (['words_mastered_first_try']
    and ['mastery_updates']), which [QuizResult] does not carry here.
    ['first_attempt_score'] is [None] before the first round. *)
Record SessionSummary := {
  summary_session_id : string;
  summary_current_round : Z;
  summary_is_completed : bool;
  total_rounds : nat;
  original_question_count : nat;
  first_attempt_score : option Q;
  rounds_summary : list RoundSummary
}.

(** The entry of round [i] (counted from 0) in ['rounds_summary']. *)
Definition round_summary (i : nat) (round_result : QuizResult) : RoundSummary :=
  {| round := i + 1;
     round_attempt_id := result_attempt_id round_result;
     questions_count := total_questions round_result;
     round_correct_answers := correct_answers round_result;
     round_score_percentage := score_percentage round_result;
     is_perfect := is_perfect_score round_result |}.

Definition get_session_summary (session : QuizSession) : SessionSummary :=
  match completed_rounds session with
  | None | Some [] =>
      {| summary_session_id := session_id session;
         summary_current_round := current_round session;
         summary_is_completed := is_completed session;
         total_rounds := 0;
         original_question_count := length (original_questions session);
         first_attempt_score := None;
         rounds_summary := [] |}
  | Some ((first_round :: _) as rounds) =>
      {| summary_session_id := session_id session;
         summary_current_round := current_round session;
         summary_is_completed := is_completed session;
         total_rounds := length rounds;
         original_question_count := length (original_questions session);
         first_attempt_score := Some (score_percentage first_round);
         rounds_summary := imap round_summary rounds |}
  end.

End Service.

(* ===================================================================== *)
(** ** The session endpoints of [main.py] *)
(* ===================================================================== *)

Module Api.
Import Store Engine Service.

(** The payload of a verified token: ["sub"] is checked by
    [verify_token]; ["user_id"] is there when the token was issued by
    [login] or [register]. *)
Record Token := {
  sub : string;
  token_user_id : option Z
}.

(** What an endpoint answers: the body of a 200; the status of an error
    with its detail, which the exception handlers send as the ["error"]
    of the body; or the 422 of the framework for a request that does not
    validate (the list of the fields refused is left out). *)
Inductive response (A : Type) :=
| Http200 (body : A)
| HttpError (status : Z) (detail : string)
| Unprocessable.
Arguments Http200 {A} body.
Arguments HttpError {A} status detail.
Arguments Unprocessable {A}.

(** The process: the database, with its [users] table, and the registry
    [active_quiz_sessions]. *)
Record Server := {
  tables : World;
  users : list UserRow;
  active_quiz_sessions : gmap string QuizSession
}.

(** [QuestionData] of [quiz_api_models.py]: a question without its
    answer. *)
Record ClientQuestion := {
  client_question_id : Z;
  client_question_text : string;
  client_options : list string;
  client_quiz_type : string
}.

Definition client_question (q : QuestionData) : ClientQuestion :=
  {| client_question_id := question_id q;
     client_question_text := question_text q;
     client_options := options q;
     client_quiz_type := quiz_type q |}.

Record IndividualResult := {
  ir_question_id : Z;
  ir_question_text : string;
  ir_user_answer : string;
  ir_correct_answer : string;
  ir_is_correct : bool;
  ir_quiz_type : string
}.

Definition individual_result (resp : QuizResponse) : IndividualResult :=
  {| ir_question_id := resp_question_id resp;
     ir_question_text := resp_question_text resp;
     ir_user_answer := user_answer resp;
     ir_correct_answer := resp_correct_answer resp;
     ir_is_correct := is_correct resp;
     ir_quiz_type := resp_quiz_type resp |}.

Record QuizRoundResult := {
  rr_attempt_id : Z;
  round_number : Z;
  rr_total_questions : nat;
  rr_correct_answers : nat;
  rr_score_percentage : Q;
  rr_is_perfect_score : bool;
  individual_results : list IndividualResult
}.

(** [QuizSessionSummary], without the two entries on mastery updates. *)
Record QuizSessionSummary := {
  qss_session_id : string;
  qss_total_rounds : nat;
  qss_original_question_count : nat;
  qss_first_attempt_score : Q;
  qss_rounds_summary : list RoundSummary;
  qss_is_completed : bool
}.

Record QuizSessionResult := {
  qsr_session_id : string;
  qsr_current_round : Z;
  round_result : QuizRoundResult;
  is_session_completed : bool;
  next_questions : option (list ClientQuestion);
  session_summary : option QuizSessionSummary
}.

(** [QuizSessionResponse], without its time stamp. *)
Record QuizSessionResponse := {
  created_session_id : string;
  created_user_id : Z;
  created_current_round : Z;
  created_questions : list ClientQuestion;
  created_total_questions : nat;
  is_first_attempt : bool
}.

(** [QuizConfigRequest]. *)
Record QuizConfigRequest := {
  req_target_question_count : Z;
  req_format_distribution : option (list (string * Z));
  req_exclude_recent_attempts : Z
}.

(** The [Field] bounds of [QuizConfigRequest]; a request outside them
    is refused with a 422 before the endpoint runs. *)
Definition request_valid (config : QuizConfigRequest) : Prop :=
  (5 ≤ req_target_question_count config ≤ 50)%Z
  ∧ (0 ≤ req_exclude_recent_attempts config ≤ 10)%Z.

#[global] Instance request_valid_dec config : Decision (request_valid config).
Proof. unfold request_valid. apply _. Defined.

(** The [QuizConfig] both quiz endpoints build, but for the distribution. *)
Definition quiz_config (config : QuizConfigRequest)
    (distribution : option (list (string * Z))) : QuizConfig :=
  QuizConfig_init (Some (req_target_question_count config)) distribution
    (Some (req_exclude_recent_attempts config)).

(** [config.format_distribution or {}] *)
Definition distribution_or_empty (config : QuizConfigRequest)
  : list (string * Z) :=
  default [] (req_format_distribution config).

Definition with_tables (w : World) (srv : Server) : Server :=
  {| tables := w;
     users := users srv;
     active_quiz_sessions := active_quiz_sessions srv |}.

Definition with_sessions (sessions : gmap string QuizSession) (srv : Server)
  : Server :=
  {| tables := tables srv;
     users := users srv;
     active_quiz_sessions := sessions |}.

(** [POST /api/quiz/session/create] *)
Definition create_quiz_session
    (random_order : nat → ∀ A : Type, list A → list A) (uuid : string)
    (config : QuizConfigRequest) (token_data : Token) (srv : Server)
  : response QuizSessionResponse * Server :=
  if decide (request_valid config) then
    let quiz_config :=
      quiz_config config (Some (distribution_or_empty config)) in
    match create_quiz_session_for_user random_order uuid (users srv)
            (sub token_data) (Some quiz_config) (tables srv) with
    | (Ok session, w) =>
        let questions := client_question <$> original_questions session in
        (Http200
           {| created_session_id := session_id session;
              created_user_id := user_id session;
              created_current_round := current_round session;
              created_questions := questions;
              created_total_questions := length questions;
              is_first_attempt := true |},
         with_sessions
           (<[session_id session := session]> (active_quiz_sessions srv))
           (with_tables w srv))
    | (Raise _, w) =>
        (HttpError 500 "Quiz session creation failed", with_tables w srv)
    end
  else (Unprocessable, srv).

(** [QuizAttemptResponse], without its time stamp. *)
Record QuizAttemptResponse := {
  qa_attempt_id : Z;
  qa_user_id : Z;
  qa_questions : list ClientQuestion;
  qa_total_questions : nat
}.

(** [POST /api/quiz/create]: here the distribution of the request goes
    to [QuizConfig] as it is. *)
Definition create_quiz
    (random_order : nat → ∀ A : Type, list A → list A)
    (config : QuizConfigRequest) (token_data : Token) (srv : Server)
  : response QuizAttemptResponse * Server :=
  if decide (request_valid config) then
    let quiz_config := quiz_config config (req_format_distribution config) in
    match create_quiz_for_user random_order (users srv) (sub token_data)
            (Some quiz_config) (tables srv) with
    | (Ok quiz, w) =>
        let questions := client_question <$> attempt_questions quiz in
        (Http200
           {| qa_attempt_id := attempt_id quiz;
              qa_user_id := attempt_user_id quiz;
              qa_questions := questions;
              qa_total_questions := length questions |},
         with_tables w srv)
    | (Raise _, w) => (HttpError 500 "Quiz creation failed", with_tables w srv)
    end
  else (Unprocessable, srv).

(** The summary of a completed session, as the submit endpoint packs it;
    [None] stands for the validation error of a missing first score. *)
Definition pack_summary (summary : SessionSummary)
  : option QuizSessionSummary :=
  match first_attempt_score summary with
  | None => None
  | Some first_score =>
      Some {| qss_session_id := summary_session_id summary;
              qss_total_rounds := total_rounds summary;
              qss_original_question_count := original_question_count summary;
              qss_first_attempt_score := first_score;
              qss_rounds_summary := rounds_summary summary;
              qss_is_completed := summary_is_completed summary |}
  end.

Definition round_result_response (round_result : QuizResult)
    (updated_session : QuizSession) : QuizRoundResult :=
  {| rr_attempt_id := result_attempt_id round_result;
     round_number := (current_round updated_session - 1)%Z;
     rr_total_questions := Engine.total_questions round_result;
     rr_correct_answers := correct_answers round_result;
     rr_score_percentage := score_percentage round_result;
     rr_is_perfect_score := is_perfect_score round_result;
     individual_results :=
       individual_result <$> result_responses round_result |}.

(** [next_questions]: the incorrect questions, unless the session is
    completed. *)
Definition next_questions_of (round_result : QuizResult)
    (updated_session : QuizSession) : option (list ClientQuestion) :=
  if is_completed updated_session then None
  else match incorrect_questions round_result with
       | Some ((_ :: _) as incorrect) => Some (client_question <$> incorrect)
       | _ => None
       end.

(** [POST /api/quiz/session/{session_id}/submit].  The engine updates
    the registered session object in place; the registry entry is deleted
    once the session is completed.  Any exception that is not an
    [HTTPException] (a token without ["user_id"], an error of the engine,
    a body that does not validate) becomes a 500. *)
Definition submit_quiz_session_round (session_id : string)
    (submission : list ResponseData) (token_data : Token) (srv : Server)
  : response QuizSessionResult * Server :=
  match active_quiz_sessions srv !! session_id with
  | None => (HttpError 404 "Quiz session not found", srv)
  | Some session =>
      match token_user_id token_data with
      | None => (HttpError 500 "Quiz session submission failed", srv)
      | Some token_user =>
          if decide (token_user ≠ user_id session)
          then (HttpError 403 "Access denied", srv)
          else
            match Service.submit_quiz_session_round session submission
                    (tables srv) with
            | (Raise _, w) =>
                (HttpError 500 "Quiz session submission failed",
                 with_tables w srv)
            | (Ok (round_result, updated_session), w) =>
                let stored :=
                  <[session_id := updated_session]>
                    (active_quiz_sessions srv) in
                let body (summary : option QuizSessionSummary) :=
                  {| qsr_session_id := session_id;
                     qsr_current_round := current_round updated_session;
                     round_result :=
                       round_result_response round_result updated_session;
                     is_session_completed := is_completed updated_session;
                     next_questions :=
                       next_questions_of round_result updated_session;
                     session_summary := summary |} in
                if is_completed updated_session then
                  match pack_summary (get_session_summary updated_session) with
                  | None =>
                      (HttpError 500 "Quiz session submission failed",
                       with_sessions stored (with_tables w srv))
                  | Some summary =>
                      (Http200 (body (Some summary)),
                       with_sessions (delete session_id stored)
                         (with_tables w srv))
                  end
                else
                  (Http200 (body None),
                   with_sessions stored (with_tables w srv))
            end
      end
  end.

(** The body of [GET /api/quiz/session/{session_id}]. *)
Record SessionStatus := {
  status_session_id : string;
  status_current_round : Z;
  status_is_completed : bool;
  total_rounds_completed : nat;
  status_original_question_count : nat
}.

(** [GET /api/quiz/session/{session_id}].  Here the token is read outside
    any handler, and a token without ["user_id"] ends in the general
    exception handler. *)
Definition get_quiz_session_status (session_id : string) (token_data : Token)
    (srv : Server) : response SessionStatus :=
  match active_quiz_sessions srv !! session_id with
  | None => HttpError 404 "Quiz session not found"
  | Some session =>
      match token_user_id token_data with
      | None => HttpError 500 "Internal Server Error"
      | Some token_user =>
          if decide (token_user ≠ user_id session)
          then HttpError 403 "Access denied"
          else
            Http200
              {| status_session_id := Engine.session_id session;
                 status_current_round := current_round session;
                 status_is_completed := is_completed session;
                 total_rounds_completed :=
                   length (default [] (completed_rounds session));
                 status_original_question_count :=
                   length (original_questions session) |}
      end
  end.

End Api.

(* ===================================================================== *)
(** ** More vocabulary: recency, types, tokens *)
(* ===================================================================== *)

Module Terms.
Import Store Engine Service Api.

(** The last [n] attempts of a user, latest first. *)
Definition last_attempts (w : World) (user n : Z) : list Z :=
  take (Z.to_nat n)
    (a_attempt_id <$>
       reverse (filter (λ a, a_user_id a = user) (quiz_attempts w))).

(** Question [qid] has a response in one of the last [n] attempts of the
    user. *)
Definition recently_answered (w : World) (user n qid : Z) : Prop :=
  ∃ r, r ∈ responses w
       ∧ r_attempt_id r ∈ last_attempts w user n
       ∧ r_question_id r = qid.

(** The questions of one type in a list. *)
Definition of_type (t : string) (qs : list QuestionData) : list QuestionData :=
  filter (λ q, quiz_type q = t) qs.

(** [q] is the data of a row of the catalog, under the type of the row. *)
Definition from_catalog (w : World) (q : QuestionData) : Prop :=
  ∃ row,
    row ∈ questions w
    ∧ q_quiz_type row = Some (quiz_type q)
    ∧ q = question_data row (quiz_type q).

(** The rows written to [responses] for graded responses. *)
Definition rows_of (attempt_id : Z) (resps : list QuizResponse)
  : list ResponseRow :=
  Spec.response_row attempt_id <$> resps.

(** The token was issued for a user of the [users] table. *)
Definition issued_for (users : list UserRow) (token : Token) : Prop :=
  is_Some (token_user_id token)
  ∧ token_user_id token = find_user (sub token) users.

#[global] Instance issued_for_dec users token :
  Decision (issued_for users token).
Proof. unfold issued_for. apply _. Defined.

(** Nothing but the count of draws differs between two states of the
    tables. *)
Definition only_draws (w w' : World) : Prop :=
  questions w' = questions w
  ∧ quiz_attempts w' = quiz_attempts w
  ∧ quiz_attempt_items w' = quiz_attempt_items w
  ∧ responses w' = responses w
  ∧ next_attempt_id w' = next_attempt_id w.

(** The errors of the queries of the selector: the driver's, for a type
    name with a NUL, and the two of the server, for a [LIMIT]. *)
Definition selector_error (e : error) : Prop :=
  e = nul_error
  ∨ e = DatabaseError "bigint out of range"
  ∨ e = DatabaseError "LIMIT must not be negative".

(** An outcome of the selector that wrote nothing and raised no error
    but those of its queries. *)
Definition harmless {A} (w : World) (out : result A * World) : Prop :=
  only_draws w out.2
  ∧ match out.1 with
    | Raise e => selector_error e
    | Ok _ => True
    end.

(** The status code of what an endpoint answers. *)
Definition status_of {A} (answer : response A) : Z :=
  match answer with
  | Http200 _ => 200
  | HttpError status _ => status
  | Unprocessable => 422
  end.

(** The imperfect rounds among some results. *)
Definition imperfect (rounds : list QuizResult) : list QuizResult :=
  filter (λ res, is_perfect_score res = false) rounds.

End Terms.

(* ===================================================================== *)
(** ** A small server *)
(* ===================================================================== *)

(** The sample tables behind a server with one user and the sample
    session registered. *)
Module MoreSamples.
Import Store Engine Service Api.

Definition registered : list UserRow :=
  [{| u_user_id := 7; u_username := "ada" |}].

Definition token : Token :=
  {| sub := "ada"; token_user_id := Some 7%Z |}.

Definition stranger : Token :=
  {| sub := "bob"; token_user_id := Some 8%Z |}.

Definition server : Server :=
  {| tables := Samples.world;
     users := registered;
     active_quiz_sessions := {[ "session" := Samples.session ]} |}.

(** The sample tables once user 7 has answered question 1 in attempt
    1. *)
Definition played : World :=
  insert_response
    {| r_attempt_id := 1;
       r_question_id := 1;
       r_selected_answer := "happy";
       r_is_correct := true |}
    Samples.world.

(** A configuration with a negative sub-target. *)
Definition bad_config : QuizConfig :=
  {| target_question_count := 5;
     format_distribution := [("synonym", -1)]%Z;
     exclude_recent_attempts := 5 |}.

Definition request : QuizConfigRequest :=
  {| req_target_question_count := 5;
     req_format_distribution := None;
     req_exclude_recent_attempts := 5 |}.

End MoreSamples.

(* ===================================================================== *)
(** ** Properties of [strip] and [lower] *)
(* ===================================================================== *)

Module PyStrFacts.
Import PyStr.

(** *** The tables, code point by code point *)








(** *** [strip] *)


Lemma append_cons c s t : String c s +:+ t = String c (s +:+ t).
Proof. reflexivity. Qed.

Lemma append_nil_r s : s +:+ EmptyString = s.
Proof. induction s as [|c s IH]; [done|]. by rewrite append_cons, IH. Qed.










(** *** [lower] *)








End PyStrFacts.

(* ===================================================================== *)
(** ** Submitting a round *)
(* ===================================================================== *)

Module SessionFacts.
Import Store Engine Spec.

Lemma kept_refl w : kept w w.
Proof. by repeat split. Qed.

Lemma kept_trans w1 w2 w3 : kept w1 w2 → kept w2 w3 → kept w1 w3.
Proof.
  intros (?&?&?&?) (?&?&?&?). repeat split; by etrans.
Qed.

Lemma find_question_kept w w' qid :
  kept w w' → find_question qid w' = find_question qid w.
Proof. intros (Hq&_). unfold find_question. by rewrite Hq. Qed.

Lemma find_question_Some w qid row :
  find_question qid w = Some row →
  row ∈ questions w ∧ q_question_id row = qid.
Proof.
  unfold find_question. intros H%head_Some_elem_of.
  apply list_elem_of_filter in H. tauto.
Qed.

Lemma find_question_known w qid :
  is_Some (find_question qid w) ↔ qid ∈ q_question_id <$> questions w.
Proof.
  unfold find_question. split.
  - intros [row Hrow]. apply head_Some_elem_of, list_elem_of_filter in Hrow.
    destruct Hrow as [<- Hin]. by apply list_elem_of_fmap_2.
  - intros (row & -> & Hin)%list_elem_of_fmap.
    assert (Hf : row ∈ filter (λ q, q_question_id q = q_question_id row)
                   (questions w)) by by apply list_elem_of_filter.
    destruct (filter _ (questions w)) as [|r l]; [by apply elem_of_nil in Hf|].
    by eexists.
Qed.

(** *** One response *)

Lemma submit_response_ok aid qid answer w r w' :
  submit_response aid qid answer w = (Ok r, w') →
  graded w {| rd_question_id := qid; rd_answer := answer |} r
  ∧ w' = insert_response (response_row aid r) w.
Proof.
  unfold submit_response, bind, query, execute, ret, raise. simpl.
  destruct (find_question qid w) as [row|] eqn:Hrow; [|done].
  destruct (has_nul answer); [done|].
  intros [= <- <-]. split; [|done].
  exists row. by repeat split.
Qed.

(** An answer that was written holds no NUL. *)
Lemma submit_response_writable aid qid answer w r w' :
  submit_response aid qid answer w = (Ok r, w') → has_nul answer = false.
Proof.
  unfold submit_response, bind, query, raise. simpl.
  destruct (find_question qid w) as [row|]; [|done].
  by destruct (has_nul answer).
Qed.

Lemma submit_response_known aid qid answer w :
  is_Some (find_question qid w) →
  has_nul answer = false →
  ∃ r w', submit_response aid qid answer w = (Ok r, w').
Proof.
  intros [row Hrow] Hnul. unfold submit_response, bind, query. simpl.
  rewrite Hrow, Hnul. simpl. by eexists _, _.
Qed.

(** The driver refuses an answer with a NUL, and nothing is written. *)
Lemma submit_response_nul aid qid answer w :
  is_Some (find_question qid w) →
  has_nul answer = true →
  submit_response aid qid answer w = (Raise nul_error, w).
Proof.
  intros [row Hrow] Hnul. unfold submit_response, bind, query. simpl.
  by rewrite Hrow, Hnul.
Qed.

(** A response that raises has written nothing, and what it raises is a
    [ValueError]. *)
Lemma submit_response_raises aid qid answer w e w' :
  submit_response aid qid answer w = (Raise e, w') →
  w' = w ∧ ∃ msg, e = ValueError msg.
Proof.
  unfold submit_response, bind, query, raise. simpl.
  destruct (find_question qid w) as [row|].
  - destruct (has_nul answer); [|done].
    intros [= <- <-]. split; [done|]. by eexists.
  - intros [= <- <-]. split; [done|]. by eexists.
Qed.

Lemma submit_response_unknown aid qid answer w :
  find_question qid w = None →
  submit_response aid qid answer w =
    (Raise (ValueError ("Question " +:+ pretty qid +:+ " not found")), w).
Proof.
  intros Hrow. unfold submit_response, bind, query. simpl. by rewrite Hrow.
Qed.

Lemma insert_response_kept r w : kept w (insert_response r w).
Proof. by repeat split. Qed.

(** *** All the responses of a round *)

Lemma graded_kept w w' rd r : kept w w' → graded w' rd r → graded w rd r.
Proof.
  intros Hk (row & Hrow & H). exists row.
  by rewrite <- (find_question_kept w w' _ Hk).
Qed.

Lemma submit_all_kept aid rs w out w' :
  submit_all aid rs w = (out, w') → kept w w'.
Proof.
  revert w out w'. induction rs as [|[qid answer] rs IH]; intros w out w'.
  - intros [= <- <-]. apply kept_refl.
  - unfold submit_all. simpl. unfold bind at 1.
    destruct (submit_response aid qid answer w) as [[r|e] w1] eqn:H1.
    + apply submit_response_ok in H1 as [_ ->].
      unfold bind at 1.
      destruct (for_each _ rs _) as [[rs'|e] w2] eqn:H2;
        apply IH in H2; intros [= <- <-];
        (eapply kept_trans; [apply insert_response_kept|exact H2]).
    + intros [= <- <-].
      apply submit_response_raises in H1 as [-> _]. apply kept_refl.
Qed.

Lemma submit_all_ok aid rs w resps w' :
  submit_all aid rs w = (Ok resps, w') →
  Forall2 (graded w) rs resps
  ∧ responses w' = responses w ++ (response_row aid <$> resps)
  ∧ quiz_attempts w' = quiz_attempts w
  ∧ draws w' = draws w.
Proof.
  revert w resps w'. induction rs as [|[qid answer] rs IH]; intros w resps w'.
  - intros [= <- <-]. simpl. by rewrite app_nil_r.
  - unfold submit_all. simpl. unfold bind at 1.
    destruct (submit_response aid qid answer w) as [[r|e] w1] eqn:H1; [|done].
    apply submit_response_ok in H1 as [Hr ->].
    unfold bind at 1.
    destruct (for_each _ rs _) as [[rs'|e] w2] eqn:H2; [|done].
    intros [= <- <-]. apply IH in H2 as (Hrs & Hresp & Hatt & Hdraws).
    split; [|split; [|split]].
    + constructor; [done|].
      eapply Forall2_impl; [exact Hrs|].
      intros rd r'. apply graded_kept, insert_response_kept.
    + rewrite Hresp. simpl. by rewrite <- app_assoc.
    + by rewrite Hatt.
    + by rewrite Hdraws.
Qed.

Lemma known_find w rd :
  known w rd ↔ is_Some (find_question (rd_question_id rd) w).
Proof. unfold known. by rewrite find_question_known. Qed.

Lemma known_kept w w' rd : kept w w' → known w rd → known w' rd.
Proof. intros (Hq&_). unfold known. by rewrite Hq. Qed.

Lemma submit_all_known aid rs w :
  Forall (known w) rs →
  Forall writable rs →
  ∃ resps w', submit_all aid rs w = (Ok resps, w').
Proof.
  revert w. induction rs as [|[qid answer] rs IH]; intros w Hrs Hwr.
  - by eexists _, _.
  - apply Forall_cons in Hrs as [Hrd Hrs].
    apply Forall_cons in Hwr as [Hnul Hwr].
    apply known_find in Hrd. simpl in Hrd.
    destruct (submit_response_known aid qid answer w Hrd Hnul)
      as (r & w1 & H1).
    destruct (IH w1) as (resps & w2 & H2); [|done|].
    { eapply Forall_impl; [exact Hrs|]. intros rd. apply known_kept.
      apply submit_response_ok in H1 as [_ ->]. apply insert_response_kept. }
    exists (r :: resps), w2. unfold submit_all in *. simpl.
    unfold bind at 1. rewrite H1. unfold bind at 1. by rewrite H2.
Qed.

(** The loop returns only when every question is in the catalog and
    every answer can be written. *)
Lemma submit_all_accepted aid rs w resps w' :
  submit_all aid rs w = (Ok resps, w') →
  Forall (known w) rs ∧ Forall writable rs.
Proof.
  revert w resps w'. induction rs as [|[qid answer] rs IH]; intros w resps w'.
  - intros _. split; constructor.
  - unfold submit_all. simpl. unfold bind at 1.
    destruct (submit_response aid qid answer w) as [[r|e] w1] eqn:H1; [|done].
    pose proof (submit_response_writable _ _ _ _ _ _ H1) as Hnul.
    apply submit_response_ok in H1 as [(row & Hrow & _) ->].
    unfold bind at 1.
    destruct (for_each _ rs _) as [[rs'|e] w2] eqn:H2; [|done].
    intros _. apply IH in H2 as [Hrs Hwr]. split; constructor; try done.
    apply known_find. by eexists.
Qed.

(** What the loop raises is a [ValueError]. *)
Lemma submit_all_raises aid rs w e w' :
  submit_all aid rs w = (Raise e, w') → ∃ msg, e = ValueError msg.
Proof.
  revert w. induction rs as [|[qid answer] rs IH]; intros w; [done|].
  unfold submit_all. simpl. unfold bind at 1.
  destruct (submit_response aid qid answer w) as [[r|e'] w1] eqn:H1.
  - unfold bind at 1.
    destruct (for_each _ rs _) as [[rs'|e''] w2] eqn:H2; [done|].
    intros [= <- <-]. by apply IH in H2.
  - intros [= <- <-]. by apply submit_response_raises in H1 as [_ ?].
Qed.

Lemma submit_all_unknown aid rs w :
  ¬ (Forall (known w) rs ∧ Forall writable rs) →
  ∃ msg w', submit_all aid rs w = (Raise (ValueError msg), w').
Proof.
  intros Hrs. destruct (submit_all aid rs w) as [[resps|e] w'] eqn:H.
  - exfalso. by apply Hrs, (submit_all_accepted aid rs w resps w').
  - destruct (submit_all_raises _ _ _ _ _ H) as [msg ->]. by eexists _, _.
Qed.

(** *** Scoring *)

Lemma correct_count_le (resps : list QuizResponse) :
  length (filter (λ r, is_correct r = true) resps) ≤ length resps.
Proof. apply length_filter. Qed.

(** Every response is correct exactly when none is incorrect. *)
Lemma all_correct_iff (resps : list QuizResponse) :
  length (filter (λ r, is_correct r = true) resps) = length resps
  ↔ incorrect_ids resps = [].
Proof.
  unfold incorrect_ids. induction resps as [|r resps IH]; [done|].
  rewrite !filter_cons. pose proof (correct_count_le resps) as Hle.
  destruct (is_correct r) eqn:Hr; simpl.
  - rewrite <- IH. split; lia.
  - split; [lia|done].
Qed.

Lemma incorrect_ids_graded w rs resps qid :
  Forall2 (graded w) rs resps →
  qid ∈ incorrect_ids resps ↔ answered_incorrectly w rs qid.
Proof.
  intros H. unfold incorrect_ids, answered_incorrectly.
  rewrite list_elem_of_fmap. split.
  - intros (r & -> & [Hr Hin]%list_elem_of_filter).
    apply list_elem_of_lookup in Hin as [i Hi].
    destruct (Forall2_lookup_r _ _ _ _ _ H Hi) as (rd & Hrd & Hg).
    destruct Hg as (row & Hrow & Hid & _ & _ & Hc).
    exists rd, row. rewrite Hid. repeat split; try done.
    + by eapply list_elem_of_lookup_2.
    + by rewrite <- Hc.
  - intros (rd & row & Hin & <- & Hrow & Hwrong).
    apply list_elem_of_lookup in Hin as [i Hi].
    destruct (Forall2_lookup_l _ _ _ _ _ H Hi) as (r & Hr & Hg).
    destruct Hg as (row' & Hrow' & Hid & _ & _ & Hc).
    exists r. split; [done|]. apply list_elem_of_filter. split.
    + rewrite Hc. by replace row' with row by congruence.
    + by eapply list_elem_of_lookup_2.
Qed.

Lemma incorrect_ids_known w rs resps qid :
  Forall2 (graded w) rs resps →
  qid ∈ incorrect_ids resps → qid ∈ q_question_id <$> questions w.
Proof.
  intros H Hin. apply (incorrect_ids_graded w rs) in Hin; [|done].
  destruct Hin as (rd & row & _ & _ & Hrow & _).
  apply find_question_known. by eexists.
Qed.

(** *** The questions of the next round *)

Lemma fetch_incorrect_questions_spec resps w :
  ∃ qs,
    fetch_incorrect_questions resps w = (Ok qs, w)
    ∧ ∀ qid, qid ∈ question_id <$> qs
             ↔ qid ∈ incorrect_ids resps
               ∧ qid ∈ q_question_id <$> questions w.
Proof.
  unfold fetch_incorrect_questions. fold (incorrect_ids resps).
  destruct (incorrect_ids resps) as [|i ids] eqn:Hids.
  - exists []. split; [done|]. intros qid. simpl.
    rewrite !elem_of_nil. tauto.
  - eexists. split; [reflexivity|]. intros qid.
    rewrite <- list_fmap_compose.
    rewrite !list_elem_of_fmap. split.
    + intros (row & -> & [Hin Hrow]%list_elem_of_filter). simpl.
      split; [done|]. by exists row.
    + intros (Hin & row & -> & Hrow). exists row. split; [done|].
      by apply list_elem_of_filter.
Qed.

Lemma complete_attempt_kept aid w : kept w (complete_attempt aid w).
Proof. by repeat split. Qed.

(** What [submit_quiz] returns, in terms of the graded responses. *)
Lemma submit_quiz_ok aid rs w res w' :
  submit_quiz aid rs w = (Ok res, w') →
  kept w w'
  ∧ responses w' = responses w ++ (response_row aid <$> result_responses res)
  ∧ Forall2 (graded w) rs (result_responses res)
  ∧ result_attempt_id res = aid
  ∧ total_questions res = length rs
  ∧ correct_answers res =
      length (filter (λ r, is_correct r = true) (result_responses res))
  ∧ score_percentage res = score (correct_answers res) (total_questions res)
  ∧ is_perfect_score res =
      bool_decide (correct_answers res = total_questions res)
  ∧ (is_perfect_score res = true → incorrect_questions res = None)
  ∧ (is_perfect_score res = false →
     ∃ q qs, incorrect_questions res = Some (q :: qs)
       ∧ ∀ qid, qid ∈ question_id <$> (q :: qs)
                ↔ answered_incorrectly w rs qid).
Proof.
  unfold submit_quiz. fold (submit_all aid rs). unfold bind at 1.
  destruct (submit_all aid rs w) as [[resps|e] w1] eqn:H1; [|done].
  pose proof (submit_all_kept _ _ _ _ _ H1) as Hk1.
  apply submit_all_ok in H1 as (Hg & Hresp & _).
  set (correct := length (filter (λ r, is_correct r = true) resps)).
  destruct (bool_decide (correct = length resps)) eqn:Hperfect.
  - unfold bind, ret, execute. simpl. intros [= <- <-]. simpl.
    rewrite Hperfect.
    repeat split; try done.
    + destruct Hk1 as (?&?&?&?); done.
    + destruct Hk1 as (?&?&?&?); done.
    + destruct Hk1 as (?&?&?&?); done.
    + destruct Hk1 as (?&?&?&?); done.
    + symmetry. by eapply Forall2_length.
  - destruct (fetch_incorrect_questions_spec resps w1) as (qs & Hqs & Hmem).
    unfold bind at 1. rewrite Hqs.
    unfold bind, ret, execute. simpl. intros [= <- <-]. simpl.
    rewrite Hperfect.
    assert (Hset : ∀ qid, qid ∈ question_id <$> qs
                          ↔ answered_incorrectly w rs qid).
    { intros qid. rewrite Hmem, <- (incorrect_ids_graded w rs resps) by done.
      split; [tauto|]. intros Hin. split; [done|].
      destruct Hk1 as (-> & _). by eapply incorrect_ids_known. }
    repeat split; try done.
    + destruct Hk1 as (?&?&?&?); done.
    + destruct Hk1 as (?&?&?&?); done.
    + destruct Hk1 as (?&?&?&?); done.
    + destruct Hk1 as (?&?&?&?); done.
    + symmetry. by eapply Forall2_length.
    + intros _. destruct qs as [|q qs].
      * exfalso. apply bool_decide_eq_false in Hperfect. apply Hperfect.
        apply all_correct_iff.
        destruct (incorrect_ids resps) as [|i ids] eqn:Hids; [done|].
        assert (Hi : i ∈ incorrect_ids resps) by (rewrite Hids; left).
        apply (incorrect_ids_graded w rs) in Hi; [|done].
        apply Hset in Hi. by apply elem_of_nil in Hi.
      * by exists q, qs.
Qed.

Lemma submit_quiz_known aid rs w :
  Forall (known w) rs →
  Forall writable rs →
  ∃ res w', submit_quiz aid rs w = (Ok res, w').
Proof.
  intros Hrs Hwr.
  destruct (submit_all_known aid rs w Hrs Hwr) as (resps & w1 & H1).
  unfold submit_quiz. fold (submit_all aid rs). unfold bind at 1. rewrite H1.
  destruct (bool_decide _).
  - by eexists _, _.
  - destruct (fetch_incorrect_questions_spec resps w1) as (qs & Hqs & _).
    unfold bind at 1. rewrite Hqs. by eexists _, _.
Qed.

Lemma submit_quiz_accepted aid rs w res w' :
  submit_quiz aid rs w = (Ok res, w') →
  Forall (known w) rs ∧ Forall writable rs.
Proof.
  unfold submit_quiz. fold (submit_all aid rs). unfold bind at 1.
  destruct (submit_all aid rs w) as [[resps|e] w1] eqn:H1; [|done].
  intros _. by eapply submit_all_accepted.
Qed.

Lemma submit_quiz_unknown aid rs w :
  ¬ (Forall (known w) rs ∧ Forall writable rs) →
  ∃ msg w', submit_quiz aid rs w = (Raise (ValueError msg), w').
Proof.
  intros Hrs. destruct (submit_all_unknown aid rs w Hrs) as (msg & w1 & H1).
  unfold submit_quiz. fold (submit_all aid rs). unfold bind at 1. rewrite H1.
  by eexists _, _.
Qed.

(** *** Recording an attempt *)

Lemma insert_items_spec aid (qs : list QuestionData) w :
  ∃ us w',
    for_each (λ q, execute (insert_attempt_item aid (question_id q))) qs w
      = (Ok us, w')
    ∧ quiz_attempt_items w' =
        quiz_attempt_items w ++ ((λ q, (aid, question_id q)) <$> qs)
    ∧ questions w' = questions w
    ∧ responses w' = responses w
    ∧ next_attempt_id w' = next_attempt_id w.
Proof.
  revert w. induction qs as [|q qs IH]; intros w.
  - exists [], w. simpl. by rewrite app_nil_r.
  - destruct (IH (insert_attempt_item aid (question_id q) w))
      as (us & w' & Hrun & Hitems & Hq & Hm & Hn).
    exists (() :: us), w'. simpl. unfold bind at 1, execute at 1.
    unfold bind at 1. rewrite Hrun. simpl in *.
    rewrite Hitems, <- app_assoc. done.
Qed.

Lemma record_attempt_spec user qs w :
  ∃ w',
    record_attempt user qs w =
      (Ok {| attempt_id := next_attempt_id w;
             attempt_user_id := user;
             attempt_questions := qs |}, w')
    ∧ quiz_attempt_items w' =
        quiz_attempt_items w
        ++ ((λ q, (next_attempt_id w, question_id q)) <$> qs)
    ∧ questions w' = questions w
    ∧ responses w' = responses w
    ∧ next_attempt_id w' = (next_attempt_id w + 1)%Z.
Proof.
  destruct (insert_items_spec (next_attempt_id w) qs (insert_attempt user w))
    as (us & w' & Hrun & Hitems & Hq & Hm & Hn).
  exists w'. unfold record_attempt, bind, query, execute, ret. simpl.
  unfold bind, execute in Hrun. rewrite Hrun. done.
Qed.

(** *** One round of a session *)

(** A round that returns: the session it leaves, case by case. *)
Lemma round_ok s rs w res s' w' :
  submit_quiz_session_round s rs w = (Ok (res, s'), w') →
  ∃ aid w1,
    current_attempt_id s = Some aid
    ∧ submit_quiz aid rs w = (Ok res, w1)
    ∧ rounds_of s' = rounds_of s ++ [res]
    ∧ (is_perfect_score res = true →
         is_completed s' = true
         ∧ current_round s' = current_round s
         ∧ current_attempt_id s' = current_attempt_id s
         ∧ w' = w1)
    ∧ (is_perfect_score res = false →
         is_completed s' = is_completed s
         ∧ current_round s' = (current_round s + 1)%Z
         ∧ current_attempt_id s' = Some (next_attempt_id w)
         ∧ responses w' = responses w1
         ∧ ∃ qs, incorrect_questions res = Some qs
             ∧ quiz_attempt_items w' =
                 quiz_attempt_items w
                 ++ ((λ q, (next_attempt_id w, question_id q)) <$> qs)).
Proof.
  unfold submit_quiz_session_round.
  destruct (current_attempt_id s) as [aid|] eqn:Haid; [|done].
  unfold bind at 1.
  destruct (submit_quiz aid rs w) as [[res0|e] w1] eqn:Hsub; [|done].
  pose proof (submit_quiz_ok _ _ _ _ _ Hsub)
    as (Hk & _ & _ & _ & _ & _ & _ & _ & Hperf & Himperf).
  destruct (is_perfect_score res0) eqn:Hp.
  - intros [= <- <- <-]. exists aid, w1. rewrite Hp.
    repeat split; try done.
  - destruct (Himperf eq_refl) as (q & qs & Hqs & _). rewrite Hqs.
    unfold create_retry_quiz.
    destruct (record_attempt_spec (user_id s) (q :: qs) w1)
      as (w2 & Hrec & Hitems & _ & Hresp & _).
    unfold bind at 1. rewrite Hrec. unfold ret.
    intros [= <- <- <-]. exists aid, w1. rewrite Hp.
    destruct Hk as (_ & _ & Hi & Hn).
    repeat split; try done; simpl.
    + by rewrite Hn.
    + exists (q :: qs). split; [done|]. by rewrite Hitems, Hi, Hn.
Qed.

(** A round on known questions, with answers that can be written,
    returns. *)
Lemma round_known s aid rs w :
  current_attempt_id s = Some aid →
  Forall (known w) rs →
  Forall writable rs →
  ∃ res s' w', submit_quiz_session_round s rs w = (Ok (res, s'), w').
Proof.
  intros Haid Hrs Hwr. unfold submit_quiz_session_round. rewrite Haid.
  destruct (submit_quiz_known aid rs w Hrs Hwr) as (res & w1 & Hsub).
  unfold bind at 1. rewrite Hsub.
  pose proof (submit_quiz_ok _ _ _ _ _ Hsub)
    as (_ & _ & _ & _ & _ & _ & _ & _ & _ & Himperf).
  destruct (is_perfect_score res) eqn:Hp; [by eexists _, _, _|].
  destruct (Himperf eq_refl) as (q & qs & Hqs & _). rewrite Hqs.
  destruct (record_attempt_spec (user_id s) (q :: qs) w1) as (w2 & Hrec & _).
  unfold create_retry_quiz, bind at 1. rewrite Hrec. by eexists _, _, _.
Qed.

(** A round that returns had only known questions and answers that can
    be written. *)
Lemma round_accepted s rs w res s' w' :
  submit_quiz_session_round s rs w = (Ok (res, s'), w') →
  Forall (known w) rs ∧ Forall writable rs.
Proof.
  intros Hrun.
  destruct (round_ok _ _ _ _ _ _ Hrun) as (aid & w1 & _ & Hsub & _).
  by eapply submit_quiz_accepted.
Qed.

(** A round with an unknown question, or with an answer that cannot be
    written, raises a [ValueError], and the session stays. *)
Lemma round_unknown s rs w :
  ¬ (Forall (known w) rs ∧ Forall writable rs) →
  (∃ msg w',
     submit_quiz_session_round s rs w = (Raise (ValueError msg), w'))
  ∧ session_after s rs w = s.
Proof.
  intros Hrs.
  assert (H : ∃ msg w',
            submit_quiz_session_round s rs w = (Raise (ValueError msg), w')).
  { unfold submit_quiz_session_round.
    destruct (current_attempt_id s) as [aid|]; [|by eexists _, _].
    destruct (submit_quiz_unknown aid rs w Hrs) as (msg & w1 & Hsub).
    unfold bind at 1. rewrite Hsub. by eexists _, _. }
  split; [done|]. destruct H as (msg & w' & H).
  unfold session_after. by rewrite H.
Qed.

(** A round completes the session exactly when its score is perfect. *)
Lemma round_completed s rs w :
  is_completed (session_after s rs w) = true
  ↔ is_completed s = true
    ∨ ∃ res s' w',
        submit_quiz_session_round s rs w = (Ok (res, s'), w')
        ∧ is_perfect_score res = true.
Proof.
  unfold session_after.
  destruct (submit_quiz_session_round s rs w) as [[[res s']|e] w'] eqn:Hrun.
  - destruct (round_ok _ _ _ _ _ _ Hrun)
      as (aid & w1 & _ & _ & _ & Hperf & Himperf).
    destruct (is_perfect_score res) eqn:Hp.
    + destruct (Hperf eq_refl) as (-> & _). split; [|done].
      intros _. right. by exists res, s', w'.
    + destruct (Himperf eq_refl) as (-> & _). split; [by left|].
      intros [H|(res' & s'' & w'' & [= <- <- <-] & H)]; congruence.
  - split; [by left|]. by intros [H|(? & ? & ? & ? & _)].
Qed.

(** The exact score of a round is 100 exactly when the round is not empty
    and every response is correct. *)
Lemma score_100 (correct total : nat) :
  correct ≤ total →
  (score correct total == 100)%Q ↔ 0 < total ∧ correct = total.
Proof.
  intros Hle. unfold score. destruct total as [|n]; simpl.
  - split; [|lia]. intros H. exfalso. revert H. unfold Qeq. simpl. lia.
  - unfold Qeq, Qdiv, Qmult, Qinv, inject_Z. simpl.
    rewrite Pos.mul_1_l, Pos.mul_1_r, Zpos_P_of_succ_nat.
    split; [intros H; split; lia|].
    intros [_ ->]. lia.
Qed.

(** *** Several rounds *)

Lemma submit_quiz_scored aid rs w res w' :
  submit_quiz aid rs w = (Ok res, w') → scored res.
Proof.
  intros H. apply submit_quiz_ok in H
    as (_ & _ & Hg & _ & Htotal & Hcorrect & Hscore & Hperf & _).
  unfold scored. rewrite Hperf, Hscore, bool_decide_eq_true.
  assert (Hle : correct_answers res ≤ total_questions res).
  { rewrite Hcorrect, Htotal, (Forall2_length _ _ _ Hg).
    apply correct_count_le. }
  rewrite (score_100 _ _ Hle). lia.
Qed.

(** Over any number of rounds: the session ends completed exactly when
    it started so or one of the rounds was flagged perfect. *)
Lemma play_completed rounds s w :
  ∃ new,
    rounds_of (play s rounds w).1 = rounds_of s ++ new
    ∧ Forall scored new
    ∧ (is_completed (play s rounds w).1 = true
       ↔ is_completed s = true
         ∨ Exists (λ res, is_perfect_score res = true) new).
Proof.
  revert s w. induction rounds as [|rs rounds IH]; intros s w.
  - exists []. simpl. rewrite app_nil_r, Exists_nil. split; [done|].
    split; [constructor|tauto].
  - simpl.
    destruct (IH (session_after s rs w) (world_after s rs w))
      as (new & Hnew & Hsc & Hdone).
    pose proof (round_completed s rs w) as Hround.
    unfold session_after in *.
    destruct (submit_quiz_session_round s rs w)
      as [[[res s']|e] w'] eqn:Hrun.
    + destruct (round_ok _ _ _ _ _ _ Hrun)
        as (aid & w1 & _ & Hsub & Hrounds & _).
      exists (res :: new). rewrite Hnew, Hrounds, <- app_assoc.
      split; [done|]. split.
      { constructor; [|done]. by eapply submit_quiz_scored. }
      rewrite Hdone, Hround, Exists_cons. split.
      * intros [[H|(r & s'' & w'' & [= <- <- <-] & H)]|H]; tauto.
      * intros [H|[H|H]]; [tauto| |tauto].
        left. right. by exists res, s', w'.
    + exists new. by rewrite Hnew, Hdone.
Qed.

(** The same, read on the scores: unless a round was empty, the session
    completes exactly when some round scored 100. *)
Lemma completed_iff_full_score_or_empty_round rounds s w :
  is_completed s = false →
  ∃ new,
    rounds_of (play s rounds w).1 = rounds_of s ++ new
    ∧ (is_completed (play s rounds w).1 = true
       ↔ Exists (λ res, (score_percentage res == 100)%Q
                        ∨ total_questions res = 0) new).
Proof.
  intros Hs. destruct (play_completed rounds s w) as (new & Hnew & Hsc & H).
  exists new. split; [done|]. rewrite H, Hs.
  rewrite !Exists_exists. split.
  - intros [?|(res & Hin & Hp)]; [done|]. exists res. split; [done|].
    by apply (proj1 (Forall_forall _ _) Hsc res Hin).
  - intros (res & Hin & Hp). right. exists res. split; [done|].
    by apply (proj1 (Forall_forall _ _) Hsc res Hin).
Qed.

(** *** The claims on rounds and sessions *)

(** C1 (the code departs from the claim).  An empty list of responses
    does not advance the round counter, but it is not a no-op: the
    round is recorded with no question, a score of 0 and the perfect
    flag set, and the session is marked completed. *)
Theorem empty_round_completes_session
    uuid user questions round first current rounds done w :
  let s := {| session_id := uuid;
              user_id := user;
              original_questions := questions;
              current_round := round;
              first_attempt_id := first;
              current_attempt_id := Some current;
              completed_rounds := rounds;
              is_completed := done |} in
  ∃ res,
    submit_quiz_session_round s [] w
      = (Ok (res, session_after s [] w), complete_attempt current w)
    ∧ total_questions res = 0
    ∧ (score_percentage res == 0)%Q
    ∧ is_perfect_score res = true
    ∧ rounds_of (session_after s [] w) = default [] rounds ++ [res]
    ∧ current_round (session_after s [] w) = round
    ∧ is_completed (session_after s [] w) = true.
Proof. intros s. eexists. by repeat split. Qed.

(** C2, as stated, fails: a response to a question of the catalog that is
    not among the questions of the round (question 2, when the round
    holds 1 and 3) is graded and counted, and the round, which has no
    other response, is accepted and completes the session. *)
Lemma foreign_response_is_accepted :
  let s := Samples.session in
  let w := Samples.world in
  let rs := [Samples.answer 2 "sad"] in
  active_question_ids s w = [1; 3]%Z
  ∧ ∃ res s' w',
      submit_quiz_session_round s rs w = (Ok (res, s'), w')
      ∧ total_questions res = 1
      ∧ correct_answers res = 1
      ∧ length (responses w') = 1
      ∧ is_completed s' = true
      ∧ session_after s rs w ≠ s.
Proof.
  simpl. split; [reflexivity|]. eexists _, _, _.
  split; [vm_compute; reflexivity|]. by repeat split.
Qed.

(** C2 (amended).  A response is checked against the catalog only, never
    against the questions of the round.  When every response names a
    question of the catalog and carries an answer that can be written
    (one without a NUL, which the database driver refuses), the round is
    accepted, and each response is graded, counted and written to
    [responses]; otherwise the whole submission raises a [ValueError]
    and the session is left as it was. *)
Theorem responses_checked_against_catalog s current rs w :
  current_attempt_id s = Some current →
  (Forall (known w) rs ∧ Forall writable rs →
     ∃ res s' w',
       submit_quiz_session_round s rs w = (Ok (res, s'), w')
       ∧ Forall2 (graded w) rs (result_responses res)
       ∧ total_questions res = length rs
       ∧ responses w' =
           responses w ++ (response_row current <$> result_responses res))
  ∧ (¬ (Forall (known w) rs ∧ Forall writable rs) →
       (∃ msg w',
          submit_quiz_session_round s rs w = (Raise (ValueError msg), w'))
       ∧ session_after s rs w = s).
Proof.
  intros Hcur. split; [|apply round_unknown].
  intros [Hrs Hwr]. destruct (round_known s current rs w Hcur Hrs Hwr)
    as (res & s' & w' & Hrun).
  exists res, s', w'. split; [done|].
  destruct (round_ok _ _ _ _ _ _ Hrun)
    as (aid & w1 & Haid & Hsub & _ & Hperf & Himperf).
  replace aid with current in * by congruence.
  apply submit_quiz_ok in Hsub as (_ & Hresp & Hg & _ & Htotal & _).
  repeat split; try done.
  destruct (is_perfect_score res) eqn:Hp.
  - by destruct (Hperf eq_refl) as (_ & _ & _ & ->).
  - destruct (Himperf eq_refl) as (_ & _ & _ & -> & _). done.
Qed.

Lemma responses_checked_against_catalog_witness :
  (∃ res s' w',
     submit_quiz_session_round Samples.session [Samples.answer 2 "sad"]
       Samples.world = (Ok (res, s'), w')
     ∧ Forall2 (graded Samples.world) [Samples.answer 2 "sad"]
         (result_responses res)
     ∧ total_questions res = 1
     ∧ responses w' =
         responses Samples.world
         ++ (response_row 1 <$> result_responses res))
  ∧ ((∃ msg w',
        submit_quiz_session_round Samples.session
          [Samples.answer 2 "sad"; Samples.answer 9 "x"] Samples.world
        = (Raise (ValueError msg), w'))
     ∧ session_after Samples.session
         [Samples.answer 2 "sad"; Samples.answer 9 "x"] Samples.world
       = Samples.session).
Proof.
  split.
  - apply (proj1 (responses_checked_against_catalog
                    Samples.session 1 [Samples.answer 2 "sad"]
                    Samples.world eq_refl)).
    compute_done.
  - apply (proj2 (responses_checked_against_catalog
                    Samples.session 1
                    [Samples.answer 2 "sad"; Samples.answer 9 "x"]
                    Samples.world eq_refl)).
    compute_done.
Defined.

(** Whatever it returns, [submit_quiz] keeps the catalog, the items and
    the sequence. *)
Lemma submit_quiz_kept aid rs w out w' :
  submit_quiz aid rs w = (out, w') → kept w w'.
Proof.
  unfold submit_quiz. fold (submit_all aid rs). unfold bind at 1.
  destruct (submit_all aid rs w) as [[resps|e] w1] eqn:Hall;
    apply submit_all_kept in Hall.
  - destruct (bool_decide _).
    + unfold bind, ret, execute. simpl. intros [= <- <-].
      eapply kept_trans; [exact Hall|apply complete_attempt_kept].
    + destruct (fetch_incorrect_questions_spec resps w1) as (qs & Hqs & _).
      unfold bind at 1. rewrite Hqs.
      unfold bind, ret, execute. simpl. intros [= <- <-].
      eapply kept_trans; [exact Hall|apply complete_attempt_kept].
  - by intros [= <- <-].
Qed.

(** The items after a round: as before, or with the items of one new
    attempt, numbered by the sequence. *)
Lemma round_items s rs w :
  let w' := world_after s rs w in
  (quiz_attempt_items w' = quiz_attempt_items w
   ∧ next_attempt_id w' = next_attempt_id w)
  ∨ (∃ qs : list QuestionData,
       quiz_attempt_items w' =
         quiz_attempt_items w
         ++ ((λ q, (next_attempt_id w, question_id q)) <$> qs)
       ∧ next_attempt_id w' = (next_attempt_id w + 1)%Z).
Proof.
  unfold world_after.
  destruct (submit_quiz_session_round s rs w) as [out w'] eqn:Hrun.
  simpl. revert Hrun. unfold submit_quiz_session_round.
  destruct (current_attempt_id s) as [cur|]; [|intros [= <- <-]; by left].
  unfold bind at 1.
  destruct (submit_quiz cur rs w) as [[res|e] w1] eqn:Hsub;
    apply submit_quiz_kept in Hsub as (_ & _ & Hi & Hn);
    [|intros [= <- <-]; by left].
  destruct (is_perfect_score res); [intros [= <- <-]; by left|].
  destruct (incorrect_questions res) as [[|q qs]|];
    [intros [= <- <-]; by left| |intros [= <- <-]; by left].
  destruct (record_attempt_spec (user_id s) (q :: qs) w1)
    as (w2 & Hrec & Hitems & _ & _ & Hn2).
  unfold create_retry_quiz, bind at 1. rewrite Hrec. intros [= <- <-].
  right. exists (q :: qs). by rewrite Hitems, Hn2, Hi, Hn.
Qed.

(** The sequence stays above the items when a round is played. *)
Lemma round_keeps_items_below_sequence s rs w :
  items_below_sequence w → items_below_sequence (world_after s rs w).
Proof.
  unfold items_below_sequence. rewrite !Forall_forall. intros Hw item.
  destruct (round_items s rs w) as [[-> ->]|(qs & -> & ->)]; [apply Hw|].
  rewrite elem_of_app, list_elem_of_fmap.
  intros [Hin|(q & -> & _)]; [apply Hw in Hin|simpl]; lia.
Qed.

(** C3.  When a round [k] with some wrong answer is accepted, the
    session moves to round [k+1], and the questions of that round (the
    items of the session's new attempt) are exactly the questions
    answered incorrectly in round [k]. *)
Theorem next_round_is_incorrect_set s rs w res s' w' :
  submit_quiz_session_round s rs w = (Ok (res, s'), w') →
  items_below_sequence w →
  (∃ qid, answered_incorrectly w rs qid) →
  current_round s' = (current_round s + 1)%Z
  ∧ is_completed s' = is_completed s
  ∧ ∀ qid,
      qid ∈ active_question_ids s' w' ↔ answered_incorrectly w rs qid.
Proof.
  intros Hrun Hfresh [bad Hbad].
  destruct (round_ok _ _ _ _ _ _ Hrun)
    as (aid & w1 & _ & Hsub & _ & _ & Himperf).
  apply submit_quiz_ok in Hsub
    as (_ & _ & Hg & _ & Htotal & Hcorrect & _ & Hperf & _ & Hnext).
  assert (Hp : is_perfect_score res = false).
  { rewrite Hperf. apply bool_decide_eq_false.
    rewrite Hcorrect, Htotal, (Forall2_length _ _ _ Hg), all_correct_iff.
    apply (incorrect_ids_graded w rs _ bad Hg) in Hbad.
    intros Hnil. rewrite Hnil in Hbad. by apply elem_of_nil in Hbad. }
  destruct (Himperf Hp) as (Hdone & Hround & Hattempt & _ & qs & Hqs & Hitems).
  destruct (Hnext Hp) as (q & qs' & Hqs' & Hset).
  replace qs with (q :: qs') in * by congruence.
  split; [done|]. split; [done|]. intros qid.
  unfold active_question_ids. rewrite Hattempt, Hitems, filter_app.
  rewrite <- Hset.
  assert (Hold : filter (λ item : Z * Z, item.1 = next_attempt_id w)
                   (quiz_attempt_items w) = []).
  { destruct (filter _ (quiz_attempt_items w)) as [|item l] eqn:E; [done|].
    assert (Hin : item ∈ filter (λ item : Z * Z, item.1 = next_attempt_id w)
                    (quiz_attempt_items w)) by (rewrite E; left).
    apply list_elem_of_filter in Hin as [Heq Hin].
    apply (proj1 (Forall_forall _ _) Hfresh) in Hin. lia. }
  rewrite Hold, app_nil_l.
  rewrite !list_elem_of_fmap. split.
  - intros ([a i] & -> & Hf). apply list_elem_of_filter in Hf as [_ Hin].
    apply list_elem_of_fmap in Hin as (q0 & [= -> ->] & Hin).
    by exists q0.
  - intros (q0 & -> & Hin). exists (next_attempt_id w, question_id q0).
    split; [done|]. apply list_elem_of_filter. split; [done|].
    apply list_elem_of_fmap. by exists q0.
Qed.

Lemma next_round_is_incorrect_set_witness :
  let rs := [Samples.answer 1 "Happy"; Samples.answer 3 "small"] in
  ∃ res s' w',
    submit_quiz_session_round Samples.session rs Samples.world
    = (Ok (res, s'), w')
    ∧ current_round s' = (current_round Samples.session + 1)%Z
    ∧ is_completed s' = is_completed Samples.session
    ∧ ∀ qid, qid ∈ active_question_ids s' w'
             ↔ answered_incorrectly Samples.world rs qid.
Proof.
  eexists _, _, _. split; [vm_compute; reflexivity|].
  eapply (next_round_is_incorrect_set Samples.session
            [Samples.answer 1 "Happy"; Samples.answer 3 "small"]
            Samples.world).
  - vm_compute. reflexivity.
  - compute_done.
  - exists 3%Z, (Samples.answer 3 "small"), (Samples.row 3 "big" "antonym").
    split; [right; left|]. by repeat split.
Defined.

(** C4 (the code departs from the claim).  A session is completed by a
    round that does not reach a score of 100: submitting an empty round
    to a session that has just been created completes it, and the one
    round it records has a score of 0. *)
Theorem empty_round_completes_without_full_score
    uuid user attempt questions w :
  let s := fresh_session uuid user attempt questions in
  let s' := (play s [[]] w).1 in
  is_completed s = false
  ∧ is_completed s' = true
  ∧ ∃ res, rounds_of s' = [res]
      ∧ total_questions res = 0
      ∧ (score_percentage res == 0)%Q
      ∧ ¬ (score_percentage res == 100)%Q.
Proof.
  intros s s'. split; [done|]. split; [done|].
  eexists. split; [reflexivity|]. simpl. by repeat split.
Qed.



End SessionFacts.

(* ===================================================================== *)
(** ** Selecting the questions of a quiz *)
(* ===================================================================== *)

Module SelectionFacts.
Import Store Engine Spec.

(** *** Lists *)

Lemma slice_to_sublist {A} (n : Z) (l : list A) : slice_to n l `sublist_of` l.
Proof. unfold slice_to. destruct (0 <=? n)%Z; apply sublist_take. Qed.

Lemma slice_to_length {A} (n : Z) (l : list A) :
  (0 ≤ n)%Z → (Z.of_nat (length (slice_to n l)) ≤ n)%Z.
Proof.
  intros Hn. unfold slice_to.
  destruct (Z.leb_spec 0 n) as [_|]; [|lia].
  rewrite length_take. lia.
Qed.

Lemma submseteq_NoDup {A} (l k : list A) : l ⊆+ k → NoDup k → NoDup l.
Proof.
  intros (l' & Hsub & Hperm)%submseteq_sublist_l Hk.
  eapply sublist_NoDup; [|exact Hsub]. by rewrite Hperm.
Qed.

(** The loop of [get_questions_by_criteria] keeps the first [count] rows. *)
Lemma collect_rows_spec t count results acc :
  collect_rows t count results acc =
    acc ++ ((λ row, question_data row t) <$>
              take (Z.to_nat (count - Z.of_nat (length acc))) results).
Proof.
  revert acc. induction results as [|row rest IH]; intros acc; simpl.
  - by rewrite take_nil, app_nil_r.
  - destruct (Z.leb_spec count (Z.of_nat (length acc))) as [Hle|Hgt].
    + replace (Z.to_nat (count - Z.of_nat (length acc))) with 0 by lia.
      by rewrite app_nil_r.
    + rewrite IH, length_app. simpl.
      replace (Z.to_nat (count - Z.of_nat (length acc)))
        with (S (Z.to_nat (count - Z.of_nat (length acc + 1)))) by lia.
      simpl. by rewrite <- app_assoc.
Qed.

(** In a table with a primary key, the id names the row. *)
Lemma row_by_id w row1 row2 :
  question_ids_unique w →
  row1 ∈ questions w → row2 ∈ questions w →
  q_question_id row1 = q_question_id row2 → row1 = row2.
Proof.
  unfold question_ids_unique. induction (questions w) as [|r l IH]; simpl.
  - intros _ H. by apply elem_of_nil in H.
  - rewrite NoDup_cons, !elem_of_cons. intros [Hr Hl] [->|H1] [->|H2] Hid.
    + done.
    + exfalso. apply Hr. rewrite Hid. by apply list_elem_of_fmap_2.
    + exfalso. apply Hr. rewrite <- Hid. by apply list_elem_of_fmap_2.
    + by apply IH.
Qed.

Lemma questions_of_words_spec w (excluded_words : gset Z) qid :
  qid ∈ questions_of_words w excluded_words
  ↔ ∃ word, word ∈ words_of w qid ∧ word ∈ excluded_words.
Proof.
  unfold questions_of_words, words_of. rewrite list_elem_of_fmap. split.
  - intros ([word q] & -> & [Hex Hin]%list_elem_of_filter). simpl in *.
    exists word. split; [|done]. apply list_elem_of_fmap.
    exists (word, q). split; [done|]. by apply list_elem_of_filter.
  - intros (word & Hword & Hex).
    apply list_elem_of_fmap in Hword as ([word' q] & -> & Hin).
    apply list_elem_of_filter in Hin as [Hq Hin]. simpl in *. subst q.
    exists (word', qid). split; [done|]. by apply list_elem_of_filter.
Qed.

Lemma same_catalog_refl w : same_catalog w w.
Proof. done. Qed.

Lemma same_catalog_trans w1 w2 w3 :
  same_catalog w1 w2 → same_catalog w2 w3 → same_catalog w1 w3.
Proof. intros [??] [??]. split; by etrans. Qed.

Lemma picked_same_catalog w w' exq exw q :
  same_catalog w w' → picked w' exq exw q → picked w exq exw q.
Proof.
  intros [Hq Hm]. unfold picked, words_of. by rewrite Hq, Hm.
Qed.

(** A row that passes the [WHERE] clause gives a picked question. *)
Lemma matches_picked w t exq exw row :
  row ∈ questions w →
  matches_criteria w t exq exw row →
  picked w exq exw (question_data row t).
Proof.
  intros Hin (Ht & Hq & Hw). exists row. simpl.
  split; [done|]. split; [done|]. split; [done|]. split.
  - destruct (decide (exq = ∅)) as [->|Hne];
      [apply not_elem_of_empty|by apply Hq].
  - intros word Hword Hex.
    apply Hw; [intros ->; exact (not_elem_of_empty _ Hex)|].
    apply questions_of_words_spec. by exists word.
Qed.

(** *** Limits *)

Lemma limit_error_None n : limit_error n = None ↔ (0 ≤ n ≤ int8_max)%Z.
Proof.
  unfold limit_error.
  destruct (Z.ltb_spec n (- int8_max - 1)) as [?|?],
    (Z.ltb_spec int8_max n) as [?|?],
    (Z.ltb_spec n 0) as [?|?]; simpl; split; try done;
    unfold int8_max in *; lia.
Qed.

Lemma limit_error_Some n e :
  limit_error n = Some e →
  e = DatabaseError "bigint out of range"
  ∨ e = DatabaseError "LIMIT must not be negative".
Proof.
  unfold limit_error.
  destruct (_ || _); [intros [= <-]; by left|].
  destruct (n <? 0)%Z; [intros [= <-]; by right|done].
Qed.

Lemma limit_error_negative n :
  (- int8_max - 1 ≤ n < 0)%Z →
  limit_error n = Some (DatabaseError "LIMIT must not be negative").
Proof.
  unfold limit_error. intros Hn.
  destruct (Z.ltb_spec n (- int8_max - 1)) as [?|?],
    (Z.ltb_spec int8_max n) as [?|?],
    (Z.ltb_spec n 0) as [?|?]; simpl; try done;
    unfold int8_max in *; lia.
Qed.

(** *** One query *)

Section selection.
Variable random_order : nat → ∀ A : Type, list A → list A.

Lemma get_questions_by_criteria_raises t count exq exw w :
  ¬ type_ok (t, count) →
  ∃ e,
    get_questions_by_criteria random_order t count exq exw w = (Raise e, w)
    ∧ (e = nul_error
       ∨ e = DatabaseError "bigint out of range"
       ∨ e = DatabaseError "LIMIT must not be negative").
Proof.
  intros Hbad. unfold get_questions_by_criteria.
  destruct (has_nul t) eqn:Hnul; [eexists; split; [done|by left]|].
  destruct (limit_error (count * 2)) as [e|] eqn:Hlimit.
  - exists e. split; [done|]. right. by apply (limit_error_Some (count * 2)).
  - exfalso. apply Hbad. split; [done|]. by apply limit_error_None.
Qed.

Lemma get_questions_by_criteria_ok t count exq exw w :
  type_ok (t, count) →
  ∃ qs,
    get_questions_by_criteria random_order t count exq exw w
      = (Ok qs, tick w)
    ∧ (Z.of_nat (length qs) ≤ count)%Z
    ∧ (rearranges random_order →
       Forall (λ q, quiz_type q = t ∧ picked w exq exw q) qs
       ∧ (question_ids_unique w → NoDup (question_id <$> qs))).
Proof.
  intros [Hnul Hlimit]. simpl in Hnul, Hlimit.
  assert (Hc : (0 ≤ count)%Z) by lia.
  unfold get_questions_by_criteria.
  rewrite Hnul, (proj2 (limit_error_None _) Hlimit).
  unfold bind, query, shuffled, ret. simpl.
  eexists. split; [reflexivity|].
  rewrite collect_rows_spec. simpl. rewrite Z.sub_0_r.
  set (matching := filter (matches_criteria w t exq exw) (questions w)).
  set (rows := take (Z.to_nat count)
                 (take (Z.to_nat (count * 2))
                    (random_order (draws w) QuestionRow matching))).
  split; [rewrite length_fmap; unfold rows; rewrite length_take; lia|].
  intros Hperm.
  assert (Hsub : rows ⊆+ matching).
  { unfold rows.
    etrans; [apply sublist_submseteq, sublist_take|].
    etrans; [apply sublist_submseteq, sublist_take|].
    apply Permutation_submseteq, Hperm. }
  split.
  - apply Forall_forall. intros q (row & -> & Hrow)%list_elem_of_fmap.
    split; [done|].
    apply (elem_of_submseteq _ _ _ Hrow) in Hsub.
    apply list_elem_of_filter in Hsub as [Hm Hin].
    by apply matches_picked.
  - intros Huniq. rewrite <- list_fmap_compose.
    change (question_id ∘ (λ row, question_data row t))
      with q_question_id.
    apply (submseteq_NoDup _ (q_question_id <$> questions w));
      [|exact Huniq].
    apply fmap_submseteq. etrans; [exact Hsub|].
    apply sublist_submseteq, sublist_filter.
Qed.

(** A query that returned could be made. *)
Lemma get_questions_by_criteria_inv t count exq exw w qs w' :
  get_questions_by_criteria random_order t count exq exw w = (Ok qs, w') →
  type_ok (t, count).
Proof.
  intros Hrun. destruct (decide (type_ok (t, count))) as [|Hbad]; [done|].
  destruct (get_questions_by_criteria_raises t count exq exw w Hbad)
    as (e & He & _). congruence.
Qed.

(** *** The loop over the types *)

Lemma collect_by_type_raises dist exq exw acc w :
  ¬ Forall type_ok dist →
  ∃ e w', collect_by_type random_order dist exq exw acc w = (Raise e, w').
Proof.
  revert acc w. induction dist as [|[t count] dist IH]; intros acc w Hneg.
  - exfalso. apply Hneg. constructor.
  - simpl. unfold bind at 1.
    destruct (decide (type_ok (t, count))) as [Hok|Hbad].
    + destruct (get_questions_by_criteria_ok t count exq exw w Hok)
        as (qs & -> & _).
      apply IH. intros Hdist. apply Hneg. by constructor.
    + destruct (get_questions_by_criteria_raises t count exq exw w Hbad)
        as (e & -> & _). by eexists _, _.
Qed.

Lemma collect_by_type_ok dist exq exw acc w :
  Forall type_ok dist →
  ∃ qs w',
    collect_by_type random_order dist exq exw acc w = (Ok (acc ++ qs), w')
    ∧ same_catalog w w'
    ∧ (rearranges random_order →
       Forall (λ q, quiz_type q ∈ dist.*1 ∧ picked w exq exw q) qs
       ∧ (question_ids_unique w → NoDup dist.*1 →
          NoDup (question_id <$> qs))).
Proof.
  revert acc w. induction dist as [|[t count] dist IH]; intros acc w Hdist.
  - exists [], w. simpl. rewrite app_nil_r.
    repeat split; try done; constructor.
  - apply Forall_cons in Hdist as [Hcount Hdist].
    destruct (get_questions_by_criteria_ok t count exq exw w Hcount)
      as (chunk & Hrun & _ & Hchunk).
    destruct (IH (acc ++ chunk) (tick w) Hdist)
      as (qs & w' & Hrest & Hcat & Hqs).
    exists (chunk ++ qs), w'. simpl. unfold bind at 1.
    rewrite Hrun, Hrest, <- app_assoc.
    split; [done|]. split; [exact Hcat|]. intros Hperm.
    destruct (Hchunk Hperm) as [Hpicked Hnodup].
    destruct (Hqs Hperm) as [Hpicked' Hnodup'].
    split.
    + apply Forall_app. split.
      * eapply Forall_impl; [exact Hpicked|]. simpl.
        intros q [-> Hq]. split; [left|done].
      * eapply Forall_impl; [exact Hpicked'|]. simpl.
        intros q [Ht Hq]. split; [by right|done].
    + intros Huniq [Ht Hkeys]%NoDup_cons.
      rewrite fmap_app. apply NoDup_app.
      split; [by apply Hnodup|]. split; [|by apply Hnodup'].
      intros id (q1 & -> & Hq1)%list_elem_of_fmap
                (q2 & Hid & Hq2)%list_elem_of_fmap.
      apply (proj1 (Forall_forall _ _) Hpicked) in Hq1
        as [Ht1 (row1 & Hin1 & Hd1 & Hty1 & _)].
      apply (proj1 (Forall_forall _ _) Hpicked') in Hq2
        as [Ht2 (row2 & Hin2 & Hd2 & Hty2 & _)].
      assert (row1 = row2) as <-.
      { apply (row_by_id w); try done.
        rewrite Hd1, Hd2 in Hid. exact Hid. }
      apply Ht. simpl in Ht1. rewrite <- Ht1.
      replace (quiz_type q1) with (quiz_type q2) by congruence.
      exact Ht2.
Qed.

Lemma collect_by_type_inv dist exq exw acc w out w' :
  collect_by_type random_order dist exq exw acc w = (Ok out, w') →
  Forall type_ok dist.
Proof.
  intros Hrun. destruct (decide (Forall type_ok dist)) as [|Hbad]; [done|].
  destruct (collect_by_type_raises dist exq exw acc w Hbad)
    as (e & w1 & He). congruence.
Qed.

(** *** Backfill, shuffle and cut *)

(** The backfill runs when a query for what is needed can be made. *)
Lemma backfill_ok target exq exw all w :
  ((Z.of_nat (length all) < target)%Z →
   type_ok ("synonym", (target - Z.of_nat (length all))%Z)) →
  ∃ qs w',
    backfill random_order target exq exw all w = (Ok (all ++ qs), w')
    ∧ same_catalog w w'
    ∧ (rearranges random_order →
       Forall (λ q, picked w exq exw q
                    ∧ question_id q ∉ question_id <$> all) qs
       ∧ (question_ids_unique w → NoDup (question_id <$> qs))).
Proof.
  intros Hneeded. unfold backfill.
  destruct (Z.ltb_spec (Z.of_nat (length all)) target) as [Hlt|Hge].
  - set (used := list_to_set (question_id <$> all) : gset Z).
    destruct (get_questions_by_criteria_ok "synonym"
                (target - Z.of_nat (length all)) (exq ∪ used) exw w)
      as (qs & Hrun & _ & Hqs); [by apply Hneeded|].
    exists qs, (tick w). unfold bind at 1. rewrite Hrun.
    split; [done|]. split; [done|]. intros Hperm.
    destruct (Hqs Hperm) as [Hpicked Hnodup]. split; [|done].
    eapply Forall_impl; [exact Hpicked|]. simpl.
    intros q [_ (row & Hin & Hd & Hty & Hex & Hw)].
    apply not_elem_of_union in Hex as [Hexq Hused]. split.
    + by exists row.
    + intros Hin'. apply Hused. by apply elem_of_list_to_set.
  - exists [], w. rewrite app_nil_r. split; [done|]. split; [done|].
    intros _. split; constructor.
Qed.

Lemma backfill_inv target exq exw all w out w' :
  backfill random_order target exq exw all w = (Ok out, w') →
  (Z.of_nat (length all) < target)%Z →
  type_ok ("synonym", (target - Z.of_nat (length all))%Z).
Proof.
  unfold backfill. intros Hrun Hlt.
  destruct (Z.ltb_spec (Z.of_nat (length all)) target) as [_|]; [|lia].
  revert Hrun. unfold bind at 1.
  destruct (get_questions_by_criteria _ _ _ _ _ _) as [[qs|e] w1] eqn:Hq;
    [|done].
  intros _. by eapply get_questions_by_criteria_inv.
Qed.

(** What is needed is at most the target. *)
Lemma backfill_within target (all : list QuestionData) :
  (target * 2 ≤ int8_max)%Z →
  (Z.of_nat (length all) < target)%Z →
  type_ok ("synonym", (target - Z.of_nat (length all))%Z).
Proof. intros Htarget Hlt. split; [done|]. simpl. lia. Qed.

Lemma get_excluded_questions_raises user recent w :
  ¬ (0 ≤ recent ≤ int8_max)%Z →
  ∃ e, get_excluded_questions user recent w = (Raise e, w)
       ∧ (e = DatabaseError "bigint out of range"
          ∨ e = DatabaseError "LIMIT must not be negative").
Proof.
  intros Hr. unfold get_excluded_questions.
  destruct (limit_error recent) as [e|] eqn:Hlimit.
  - exists e. split; [done|]. by apply (limit_error_Some recent).
  - exfalso. by apply Hr, limit_error_None.
Qed.

Lemma get_excluded_questions_ok user recent w :
  (0 ≤ recent ≤ int8_max)%Z →
  ∃ exq, get_excluded_questions user recent w = (Ok exq, w).
Proof.
  intros Hr. unfold get_excluded_questions.
  rewrite (proj2 (limit_error_None _) Hr).
  unfold bind, query. simpl.
  destruct (take _ _); by eexists.
Qed.

Lemma get_excluded_questions_inv user recent w exq w' :
  get_excluded_questions user recent w = (Ok exq, w') →
  (0 ≤ recent ≤ int8_max)%Z ∧ w' = w.
Proof.
  intros Hrun.
  destruct (decide (0 ≤ recent ≤ int8_max)%Z) as [Hr|Hbad].
  - split; [done|].
    destruct (get_excluded_questions_ok user recent w Hr) as (exq' & H).
    congruence.
  - destruct (get_excluded_questions_raises user recent w Hbad)
      as (e & He & _). congruence.
Qed.

Lemma get_globally_mastered_words_ok user w :
  get_globally_mastered_words user w = (Ok (excluded_word_set w user), w).
Proof. reflexivity. Qed.

(** *** The selector *)

(** The selector returns whenever no query can fail. *)
Lemma select_questions_returns user config w :
  limits_ok config →
  ∃ qs w', select_questions random_order user config w = (Ok qs, w').
Proof.
  intros [[Hrecent Hdist] Htarget]. unfold select_questions.
  destruct (get_excluded_questions_ok user _ w Hrecent) as (exq & Hexq).
  unfold bind at 1. rewrite Hexq.
  unfold bind at 1. rewrite get_globally_mastered_words_ok.
  destruct (collect_by_type_ok (format_distribution config) exq
              (excluded_word_set w user) [] w Hdist)
    as (qs & w1 & Hcollect & _).
  unfold bind at 1. rewrite Hcollect. simpl.
  destruct (backfill_ok (target_question_count config) exq
              (excluded_word_set w user) qs w1)
    as (qs' & w2 & Hback & _); [by apply backfill_within|].
  unfold bind at 1. rewrite Hback. by eexists _, _.
Qed.

(** The stages of a selection that returned. *)
Lemma select_questions_stages user config w qs w' :
  select_questions random_order user config w = (Ok qs, w') →
  ∃ exq chunks extra w1 w2,
    get_excluded_questions user (exclude_recent_attempts config) w
      = (Ok exq, w)
    ∧ collect_by_type random_order (format_distribution config) exq
        (excluded_word_set w user) [] w = (Ok chunks, w1)
    ∧ backfill random_order (target_question_count config) exq
        (excluded_word_set w user) chunks w1 = (Ok (chunks ++ extra), w2)
    ∧ qs = slice_to (target_question_count config)
             (random_order (draws w2) QuestionData (chunks ++ extra))
    ∧ w' = tick w2.
Proof.
  unfold select_questions. unfold bind at 1.
  destruct (get_excluded_questions _ _ w) as [[exq|e] w0] eqn:Hexq; [|done].
  destruct (get_excluded_questions_inv _ _ _ _ _ Hexq) as [_ ->].
  unfold bind at 1. rewrite get_globally_mastered_words_ok.
  unfold bind at 1.
  destruct (collect_by_type _ _ _ _ _ _) as [[chunks|e] w1] eqn:Hcollect;
    [|done].
  unfold bind at 1.
  destruct (backfill _ _ _ _ _ _) as [[all|e] w2] eqn:Hback; [|done].
  destruct (backfill_ok (target_question_count config) exq
              (excluded_word_set w user) chunks w1)
    as (extra & w2' & Hback' & _); [by eapply backfill_inv|].
  rewrite Hback in Hback'. injection Hback' as -> <-.
  unfold bind, shuffled, ret. intros [= <- <-].
  by exists exq, chunks, extra, w1, w2.
Qed.

(** Whatever the selector returns was cut by [slice_to]. *)
Lemma select_questions_cut user config w qs w' :
  select_questions random_order user config w = (Ok qs, w') →
  ∃ all, qs = slice_to (target_question_count config) all.
Proof.
  intros (exq & chunks & extra & w1 & w2 & _ & _ & _ & -> & _)
    %select_questions_stages.
  by eexists.
Qed.

Lemma record_attempt_ok user qs w :
  ∃ attempt w',
    record_attempt user qs w = (Ok attempt, w')
    ∧ attempt_questions attempt = qs.
Proof.
  destruct (SessionFacts.record_attempt_spec user qs w) as (w' & H & _).
  by eexists _, _.
Qed.

Lemma generate_quiz_ok user config w attempt w' :
  generate_quiz random_order user (Some config) w = (Ok attempt, w') →
  ∃ w1,
    select_questions random_order user config w
      = (Ok (attempt_questions attempt), w1).
Proof.
  unfold generate_quiz. simpl. unfold bind at 1.
  destruct (select_questions _ _ _ _) as [[qs|e] w1]; [|done].
  destruct (record_attempt_ok user qs w1) as (a & w2 & Hrec & Hqs).
  rewrite Hrec. intros [= <- <-]. exists w1. by rewrite Hqs.
Qed.

Lemma generate_quiz_returns user config w :
  limits_ok config →
  ∃ attempt w',
    generate_quiz random_order user (Some config) w = (Ok attempt, w').
Proof.
  intros Hc.
  destruct (select_questions_returns user config w Hc) as (qs & w1 & H).
  unfold generate_quiz. simpl. unfold bind at 1. rewrite H.
  destruct (record_attempt_ok user qs w1) as (a & w2 & Hrec & _).
  by eexists _, _.
Qed.

(** A query that cannot be made makes the selector raise. *)
Lemma select_questions_raises user config w :
  ¬ queries_ok config →
  ∃ e w', select_questions random_order user config w = (Raise e, w').
Proof.
  intros Hbad. unfold select_questions. unfold bind at 1.
  destruct (decide (0 ≤ exclude_recent_attempts config ≤ int8_max)%Z)
    as [Hok|Hno].
  - destruct (get_excluded_questions_ok user _ w Hok) as (exq & ->).
    unfold bind at 1. rewrite get_globally_mastered_words_ok.
    destruct (collect_by_type_raises (format_distribution config) exq
                (excluded_word_set w user) [] w) as (e & w1 & Hrun).
    { intros Hdist. apply Hbad. by split. }
    unfold bind at 1. rewrite Hrun. by eexists _, _.
  - destruct (get_excluded_questions_raises user _ w Hno) as (e & -> & _).
    by eexists _, _.
Qed.

Lemma generate_quiz_raises user config w :
  ¬ queries_ok config →
  ∃ e w', generate_quiz random_order user (Some config) w = (Raise e, w').
Proof.
  intros Hbad.
  destruct (select_questions_raises user config w Hbad) as (e & w1 & H).
  unfold generate_quiz. simpl. unfold bind at 1. rewrite H.
  by eexists _, _.
Qed.

(** A quiz that was generated had queries that could be made. *)
Lemma generate_quiz_inv user config w attempt w' :
  generate_quiz random_order user (Some config) w = (Ok attempt, w') →
  queries_ok config.
Proof.
  intros Hrun. destruct (decide (queries_ok config)) as [|Hbad]; [done|].
  destruct (generate_quiz_raises user config w Hbad) as (e & w1 & He).
  congruence.
Qed.

Lemma question_ids_unique_same_catalog w w' :
  same_catalog w w' → question_ids_unique w → question_ids_unique w'.
Proof. intros [Hq _]. unfold question_ids_unique. by rewrite Hq. Qed.

(** What the selector returns: picked questions, pairwise distinct. *)
Lemma select_questions_spec user config w qs w' :
  select_questions random_order user config w = (Ok qs, w') →
  ∃ exq,
    rearranges random_order →
    Forall (picked w exq (excluded_word_set w user)) qs
    ∧ (question_ids_unique w → keys_unique config →
       NoDup (question_id <$> qs)).
Proof.
  intros (exq & chunks & extra & w1 & w2 & _ & Hcollect & Hback & -> & _)
    %select_questions_stages.
  set (exw := excluded_word_set w user) in *.
  destruct (collect_by_type_ok (format_distribution config) exq exw [] w)
    as (chunks' & w1' & Hcollect' & Hcat1 & Hchunks);
    [by eapply collect_by_type_inv|].
  rewrite Hcollect in Hcollect'. injection Hcollect' as -> <-.
  destruct (backfill_ok (target_question_count config) exq exw chunks' w1)
    as (extra' & w2' & Hback' & Hcat2 & Hextra); [by eapply backfill_inv|].
  rewrite Hback in Hback'. injection Hback' as Heq <-.
  apply app_inv_head in Heq as ->.
  exists exq. intros Hperm.
  destruct (Hchunks Hperm) as [Hpicked1 Hnodup1].
  destruct (Hextra Hperm) as [Hpicked2 Hnodup2].
  set (all := chunks' ++ extra').
  assert (Hsub : slice_to (target_question_count config)
                   (random_order (draws w2) QuestionData all) ⊆+ all).
  { etrans; [apply sublist_submseteq, slice_to_sublist|].
    apply Permutation_submseteq, Hperm. }
  split.
  - apply Forall_forall. intros q Hq.
    apply (elem_of_submseteq _ _ _ Hq) in Hsub.
    apply elem_of_app in Hsub as [Hin|Hin].
    + by apply (proj1 (Forall_forall _ _) Hpicked1) in Hin as [_ ?].
    + apply (proj1 (Forall_forall _ _) Hpicked2) in Hin as [Hin _].
      by apply (picked_same_catalog w w1).
  - intros Huniq Hkeys.
    apply (submseteq_NoDup _ (question_id <$> all));
      [by apply fmap_submseteq|].
    unfold all. rewrite fmap_app. apply NoDup_app.
    split; [by apply Hnodup1|]. split.
    + intros id Hid (q & -> & Hq)%list_elem_of_fmap.
      by apply (proj1 (Forall_forall _ _) Hpicked2) in Hq as [_ Hq].
    + apply Hnodup2. by apply (question_ids_unique_same_catalog w).
Qed.

(** *** The claims on the selector *)

(** C7.  The questions of a quiz that was generated have pairwise
    distinct ids, and none of them is mapped to a word of the
    excluded-word set; in particular none of them has mapped words that
    are all in the excluded-word set. *)
Theorem selected_questions_distinct_and_not_excluded
    user config w attempt w' :
  generate_quiz random_order user (Some config) w = (Ok attempt, w') →
  rearranges random_order →
  question_ids_unique w →
  keys_unique config →
  NoDup (question_id <$> attempt_questions attempt)
  ∧ ∀ q, q ∈ attempt_questions attempt →
      (∀ word, word ∈ words_of w (question_id q) →
               word ∉ excluded_word_set w user)
      ∧ ¬ (words_of w (question_id q) ≠ []
           ∧ ∀ word, word ∈ words_of w (question_id q) →
                     word ∈ excluded_word_set w user).
Proof.
  intros Hrun Hperm Huniq Hkeys.
  destruct (generate_quiz_ok _ _ _ _ _ Hrun) as (w1 & Hsel).
  destruct (select_questions_spec _ _ _ _ _ Hsel) as (exq & Hqs).
  destruct (Hqs Hperm) as [Hpicked Hnodup].
  split; [by apply Hnodup|]. intros q Hq.
  apply (proj1 (Forall_forall _ _) Hpicked) in Hq
    as (row & _ & _ & _ & _ & Hwords).
  split; [exact Hwords|]. intros [Hsome Hall].
  destruct (words_of w (question_id q)) as [|word words]; [done|].
  apply (Hwords word); [left|apply Hall; left].
Qed.

(** C10.  For a non-negative target, a quiz that was generated has at
    most [target_question_count] questions, whatever the sub-targets add
    up to. *)
Theorem quiz_length_at_most_target user config w :
  (0 ≤ target_question_count config)%Z →
  ∀ attempt w',
    generate_quiz random_order user (Some config) w = (Ok attempt, w') →
    (Z.of_nat (length (attempt_questions attempt))
     ≤ target_question_count config)%Z.
Proof.
  intros Htarget attempt w' Hrun.
  destruct (generate_quiz_ok _ _ _ _ _ Hrun) as (w1 & Hsel).
  apply select_questions_cut in Hsel as (all & ->).
  by apply slice_to_length.
Qed.


End selection.


Lemma reversing_rearranges : rearranges Samples.reversing.
Proof. intros n A l. apply reverse_Permutation. Qed.

Lemma selected_questions_distinct_and_not_excluded_witness :
  ∃ attempt w',
    generate_quiz Samples.reversing 7 (Some (Samples.config 3))
      Samples.world = (Ok attempt, w')
    ∧ NoDup (question_id <$> attempt_questions attempt)
    ∧ ∀ q, q ∈ attempt_questions attempt →
        (∀ word, word ∈ words_of Samples.world (question_id q) →
                 word ∉ excluded_word_set Samples.world 7)
        ∧ ¬ (words_of Samples.world (question_id q) ≠ []
             ∧ ∀ word, word ∈ words_of Samples.world (question_id q) →
                       word ∈ excluded_word_set Samples.world 7).
Proof.
  eexists _, _. split; [vm_compute; reflexivity|].
  eapply (selected_questions_distinct_and_not_excluded
            Samples.reversing 7 (Samples.config 3) Samples.world).
  - vm_compute. reflexivity.
  - exact reversing_rearranges.
  - compute_done.
  - compute_done.
Defined.

Lemma quiz_length_at_most_target_witness :
  ∃ attempt w',
    generate_quiz Samples.reversing 7 (Some (Samples.config 1))
      Samples.world = (Ok attempt, w')
    ∧ (Z.of_nat (length (attempt_questions attempt)) ≤ 1)%Z.
Proof.
  eexists _, _. split; [vm_compute; reflexivity|].
  eapply (quiz_length_at_most_target
            Samples.reversing 7 (Samples.config 1) Samples.world).
  - simpl. lia.
  - vm_compute. reflexivity.
Defined.


End SelectionFacts.

(* ===================================================================== *)
(** ** Mastery *)
(* ===================================================================== *)

Module MasteryFacts.
Import Mastery.

(** *** Question mastery *)

Lemma replay_snoc store history a :
  replay store (history ++ [a]) = record (replay store history) a.
Proof. unfold replay. by rewrite foldl_snoc. Qed.

Lemma replay_app store history later :
  replay store (history ++ later) = replay (replay store history) later.
Proof. unfold replay. by rewrite foldl_app. Qed.

Lemma correct_first_attempts_snoc u q history a :
  correct_first_attempts u q (history ++ [a]) =
    correct_first_attempts u q history
    + (if decide (counts u q a) then 1 else 0).
Proof.
  unfold correct_first_attempts. rewrite filter_app, length_app.
  f_equal. rewrite filter_cons, filter_nil. unfold counts.
  by destruct (decide _).
Qed.

Lemma correct_first_attempts_app u q history later :
  correct_first_attempts u q history
  ≤ correct_first_attempts u q (history ++ later).
Proof.
  unfold correct_first_attempts. rewrite filter_app, length_app. lia.
Qed.

(** The state of (user, question) after one more attempt. *)
Lemma state_record store u q a :
  questionMasteryState (record store a) u q =
    if decide (counts u q a)
    then verified (questionMasteryState store u q)
    else questionMasteryState store u q.
Proof.
  unfold record, recordAttempt, questionMasteryState, counts.
  destruct a as [au aq correct first]. simpl.
  destruct first, correct; simpl;
    try (destruct (decide _) as [(_ & _ & ? & ?)|_]; done).
  destruct (decide ((au, aq) = (u, q))) as [[= -> ->]|Hne].
  - rewrite lookup_insert_eq. simpl. by rewrite decide_True.
  - rewrite lookup_insert_ne by done.
    rewrite decide_False; [done|]. intros (-> & -> & _). done.
Qed.

(** The invariant of the counter: it is the number of correct first
    attempts, capped at the threshold, and the flag says whether the cap
    has been reached. *)
Lemma state_after_history u q history :
  let st := questionMasteryState (replay ∅ history) u q in
  let n := correct_first_attempts u q history in
  first_try_correct_count st = n `min` mastery_threshold
  ∧ is_mastered st = bool_decide (mastery_threshold ≤ n).
Proof.
  induction history as [|a history IH] using rev_ind.
  - done.
  - simpl in *. rewrite replay_snoc, state_record, correct_first_attempts_snoc.
    destruct IH as [Hcount Hflag].
    destruct (decide (counts u q a)) as [Ha|Ha].
    + unfold verified. rewrite Hflag, Hcount.
      unfold mastery_threshold in *.
      destruct (bool_decide (2 ≤ correct_first_attempts u q history))
        eqn:Hm.
      * apply bool_decide_eq_true in Hm. rewrite Hflag, Hcount. split.
        -- unfold mastery_threshold. lia.
        -- symmetry. apply bool_decide_eq_true. lia.
      * apply bool_decide_eq_false in Hm. simpl. split; [lia|].
        apply bool_decide_ext. lia.
    + by rewrite Nat.add_0_r.
Qed.

(** C5.  Starting from a question never attempted, and after any history
    of attempts: the counter is the number of correct first attempts,
    capped at 2; the question is mastered exactly when that number has
    reached 2, never earlier; and once it is mastered, no later attempt
    makes it unmastered or moves the counter off 2. *)
Theorem mastered_at_second_correct_first_attempt u q history :
  let st := questionMasteryState (replay ∅ history) u q in
  let n := correct_first_attempts u q history in
  first_try_correct_count st = n `min` 2
  ∧ (is_mastered st = true ↔ 2 ≤ n)
  ∧ ∀ later,
      let st' := questionMasteryState (replay ∅ (history ++ later)) u q in
      is_mastered st = true →
      is_mastered st' = true ∧ first_try_correct_count st' = 2.
Proof.
  cbv zeta.
  destruct (state_after_history u q history) as [Hcount Hflag].
  unfold mastery_threshold in *.
  split; [done|]. split; [by rewrite Hflag, bool_decide_eq_true|].
  intros later. rewrite Hflag, bool_decide_eq_true. intros Hn.
  destruct (state_after_history u q (history ++ later)) as [Hcount' Hflag'].
  unfold mastery_threshold in *.
  pose proof (correct_first_attempts_app u q history later) as Hle.
  rewrite Hflag', Hcount', bool_decide_eq_true. lia.
Qed.

(** *** Word mastery *)

Lemma elem_of_questionsMappedTo wqm word q :
  q ∈ questionsMappedTo wqm word ↔ (word, q) ∈ wqm.
Proof.
  unfold questionsMappedTo.
  rewrite elem_of_remove_dups, list_elem_of_fmap. split.
  - intros ([w' q'] & -> & [Hw Hin]%list_elem_of_filter).
    simpl in *. by subst w'.
  - intros Hin. exists (word, q). split; [done|].
    by apply list_elem_of_filter.
Qed.

Lemma questionsMappedTo_NoDup wqm word : NoDup (questionsMappedTo wqm word).
Proof. apply NoDup_remove_dups. Qed.

(** A mapping to a question the word did not have adds that question. *)
Lemma questionsMappedTo_add_fresh wqm word q :
  q ∉ questionsMappedTo wqm word →
  questionsMappedTo (add_mapping word q wqm) word
    ≡ₚ q :: questionsMappedTo wqm word.
Proof.
  intros Hq. apply NoDup_Permutation.
  - apply questionsMappedTo_NoDup.
  - apply NoDup_cons. split; [done|apply questionsMappedTo_NoDup].
  - intros x. rewrite elem_of_cons, !elem_of_questionsMappedTo.
    unfold add_mapping. rewrite elem_of_app, list_elem_of_singleton.
    split; [intros [?|[= ->]]|intros [->|?]]; tauto.
Qed.

(** A mapping the word already had changes nothing. *)
Lemma questionsMappedTo_add_known wqm word q :
  q ∈ questionsMappedTo wqm word →
  questionsMappedTo (add_mapping word q wqm) word
    ≡ₚ questionsMappedTo wqm word.
Proof.
  intros Hq. apply NoDup_Permutation; try apply questionsMappedTo_NoDup.
  intros x. rewrite !elem_of_questionsMappedTo.
  unfold add_mapping. rewrite elem_of_app, list_elem_of_singleton.
  apply elem_of_questionsMappedTo in Hq.
  split; [intros [?|[= ->]]|]; tauto.
Qed.

(** A mapping of another word changes nothing. *)
Lemma questionsMappedTo_add_other wqm word word' q :
  word' ≠ word →
  questionsMappedTo (add_mapping word q wqm) word'
    = questionsMappedTo wqm word'.
Proof.
  intros Hne. unfold questionsMappedTo, add_mapping.
  rewrite filter_app, filter_cons, filter_nil. simpl.
  rewrite decide_False by done. by rewrite app_nil_r.
Qed.

Lemma percentage_spec mastered total :
  (percentage mastered total ==
     match total with
     | O => 0
     | S _ => 100 * inject_Z (Z.of_nat mastered) / inject_Z (Z.of_nat total)
     end)%Q.
Proof. unfold percentage. by destruct total. Qed.

(** C6.  The word mastery read back for a user and a word counts the
    questions currently mapped to the word and those of them that the
    user has mastered, and its percentage is 100 * mastered / total, or 0
    when no question is mapped to the word.  The read right after a new
    mapping of the word is added counts the new question. *)
Theorem word_mastery_is_computed_on_read store wqm u word :
  let mastered q := is_mastered (questionMasteryState store u q) = true in
  let d := wordMastery store wqm u word in
  total_questions d = length (questionsMappedTo wqm word)
  ∧ mastered_questions d =
      length (filter mastered (questionsMappedTo wqm word))
  ∧ mastered_questions d ≤ total_questions d
  ∧ (mastery_percentage d ==
       match total_questions d with
       | O => 0
       | S _ => 100 * inject_Z (Z.of_nat (mastered_questions d))
                / inject_Z (Z.of_nat (total_questions d))
       end)%Q
  ∧ ∀ q,
      let d' := wordMastery store (add_mapping word q wqm) u word in
      (mastery_percentage d' ==
         100 * inject_Z (Z.of_nat (mastered_questions d'))
         / inject_Z (Z.of_nat (total_questions d')))%Q
      ∧ ((word, q) ∉ wqm →
         total_questions d' = S (total_questions d)
         ∧ mastered_questions d' =
             mastered_questions d + (if decide (mastered q) then 1 else 0))
      ∧ ((word, q) ∈ wqm →
         total_questions d' = total_questions d
         ∧ mastered_questions d' = mastered_questions d).
Proof.
  cbv zeta. unfold wordMastery. simpl.
  split; [done|]. split; [done|]. split; [apply length_filter|].
  split; [apply percentage_spec|]. intros q.
  set (mastered := λ q, is_mastered (questionMasteryState store u q) = true).
  split; [|split].
  - etrans; [apply percentage_spec|].
    destruct (length (questionsMappedTo (add_mapping word q wqm) word))
      eqn:Hlen; [|reflexivity].
    exfalso.
    assert (Hin : q ∈ questionsMappedTo (add_mapping word q wqm) word).
    { apply elem_of_questionsMappedTo. unfold add_mapping.
      apply elem_of_app. right. left. }
    apply length_zero_iff_nil in Hlen. rewrite Hlen in Hin.
    by apply elem_of_nil in Hin.
  - intros Hq. rewrite <- elem_of_questionsMappedTo in Hq.
    rewrite (questionsMappedTo_add_fresh wqm word q Hq). simpl.
    split; [done|]. rewrite filter_cons.
    repeat case_decide; simpl; done || lia.
  - intros Hq. rewrite <- elem_of_questionsMappedTo in Hq.
    by rewrite (questionsMappedTo_add_known wqm word q Hq).
Qed.

(** What [get_enhanced_mastery_updates] reports is this read, once for
    each word mapped to one of the questions. *)
Lemma enhanced_mastery_updates_are_reads store wqm u qids d :
  d ∈ get_enhanced_mastery_updates store wqm u qids →
  d = wordMastery store wqm u (word_id d)
  ∧ ∃ q, q ∈ qids ∧ (word_id d, q) ∈ wqm.
Proof.
  unfold get_enhanced_mastery_updates. destruct qids as [|q0 qids].
  - intros H. by apply elem_of_nil in H.
  - intros (word & -> & Hword)%list_elem_of_fmap. split; [done|].
    apply elem_of_remove_dups, list_elem_of_fmap in Hword
      as ([word' q] & -> & [Hq Hin]%list_elem_of_filter).
    by exists q.
Qed.

End MasteryFacts.

(* ===================================================================== *)
(** ** More on the selector *)
(* ===================================================================== *)

Module SelectionMore.
Import Store Engine Spec Terms.
Import SelectionFacts.

(** *** Lists *)

Lemma filter_submseteq_length {A} (P : A → Prop) `{∀ x, Decision (P x)}
    (l k : list A) :
  l ⊆+ k → length (filter P l) ≤ length (filter P k).
Proof.
  induction 1 as [|x l k _ IH|x y l|x l k _ IH|l1 l2 l3 _ IH1 _ IH2].
  - done.
  - rewrite !filter_cons. destruct (decide (P x)); simpl; lia.
  - rewrite !filter_cons.
    destruct (decide (P x)), (decide (P y)); simpl; lia.
  - rewrite filter_cons. destruct (decide (P x)); simpl; lia.
  - lia.
Qed.

Lemma filter_none {A} (P : A → Prop) `{∀ x, Decision (P x)} (l : list A) :
  Forall (λ x, ¬ P x) l → filter P l = [].
Proof.
  induction 1 as [|x l Hx _ IH]; [done|].
  rewrite filter_cons. by destruct (decide (P x)).
Qed.

Lemma filter_all {A} (P : A → Prop) `{∀ x, Decision (P x)} (l : list A) :
  Forall P l → filter P l = l.
Proof.
  induction 1 as [|x l Hx _ IH]; [done|].
  rewrite filter_cons. destruct (decide (P x)); [by rewrite IH|done].
Qed.

(** *** Recency *)

Lemma get_excluded_questions_spec user n w :
  (0 ≤ n ≤ int8_max)%Z →
  ∃ exq,
    get_excluded_questions user n w = (Ok exq, w)
    ∧ ∀ qid, qid ∈ exq ↔ recently_answered w user n qid.
Proof.
  intros Hn. unfold get_excluded_questions.
  rewrite (proj2 (limit_error_None _) Hn).
  unfold bind, query. simpl. fold (last_attempts w user n).
  unfold recently_answered.
  destruct (last_attempts w user n) as [|a l] eqn:Hlast.
  - exists ∅. split; [done|]. intros qid. split.
    + intros H. by apply not_elem_of_empty in H.
    + intros (r & _ & H & _). by apply elem_of_nil in H.
  - eexists. split; [reflexivity|]. intros qid.
    rewrite elem_of_list_to_set, list_elem_of_fmap. split.
    + intros (r & -> & [Hr Hin]%list_elem_of_filter). by exists r.
    + intros (r & Hin & Hr & <-). exists r. split; [done|].
      by apply list_elem_of_filter.
Qed.

Section selection.
Variable random_order : nat → ∀ A : Type, list A → list A.

(** *** The loop over the types, with its caps *)

Lemma collect_by_type_caps dist exq exw acc w :
  Forall type_ok dist →
  ∃ qs w',
    collect_by_type random_order dist exq exw acc w = (Ok (acc ++ qs), w')
    ∧ (rearranges random_order →
       Forall (λ q, quiz_type q ∈ dist.*1) qs
       ∧ (NoDup dist.*1 →
          ∀ t c, (t, c) ∈ dist →
                 (Z.of_nat (length (of_type t qs)) ≤ c)%Z)).
Proof.
  revert acc w. induction dist as [|[t0 c0] dist IH]; intros acc w Hdist.
  - exists [], w. simpl. rewrite app_nil_r. split; [done|]. intros _.
    split; [constructor|]. intros _ t c H. by apply elem_of_nil in H.
  - apply Forall_cons in Hdist as [Hc0 Hdist].
    destruct (get_questions_by_criteria_ok random_order t0 c0 exq exw w Hc0)
      as (chunk & Hrun & Hlen & Hchunk).
    destruct (IH (acc ++ chunk) (tick w) Hdist) as (qs & w' & Hrest & Hqs).
    exists (chunk ++ qs), w'. simpl. unfold bind at 1.
    rewrite Hrun, Hrest, <- app_assoc. split; [done|]. intros Hperm.
    destruct (Hchunk Hperm) as [Hpicked _].
    destruct (Hqs Hperm) as [Htypes Hcaps].
    assert (Ht0 : Forall (λ q, quiz_type q = t0) chunk).
    { eapply Forall_impl; [exact Hpicked|]. by intros q [? _]. }
    split.
    + apply Forall_app. split.
      * eapply Forall_impl; [exact Ht0|]. simpl. intros q ->. left.
      * eapply Forall_impl; [exact Htypes|]. simpl. intros q ?. by right.
    + intros [Hfresh Hkeys]%NoDup_cons t c Hin.
      unfold of_type. rewrite filter_app, length_app.
      apply elem_of_cons in Hin as [[= -> ->]|Hin].
      * rewrite (filter_all _ chunk Ht0).
        rewrite (filter_none _ qs); [simpl; lia|].
        eapply Forall_impl; [exact Htypes|]. simpl. intros q Hq Heq.
        apply Hfresh. by rewrite <- Heq.
      * assert (t ≠ t0).
        { intros ->. apply Hfresh. apply list_elem_of_fmap.
          by exists (t0, c). }
        rewrite (filter_none _ chunk).
        -- simpl. by apply (Hcaps Hkeys t c).
        -- eapply Forall_impl; [exact Ht0|]. simpl. congruence.
Qed.

Lemma backfill_synonym target exq exw all w :
  ((Z.of_nat (length all) < target)%Z →
   type_ok ("synonym", (target - Z.of_nat (length all))%Z)) →
  ∃ qs w',
    backfill random_order target exq exw all w = (Ok (all ++ qs), w')
    ∧ (rearranges random_order → Forall (λ q, quiz_type q = "synonym") qs).
Proof.
  intros Hneeded. unfold backfill.
  destruct (Z.ltb_spec (Z.of_nat (length all)) target) as [Hlt|Hge].
  - set (used := list_to_set (question_id <$> all) : gset Z).
    destruct (get_questions_by_criteria_ok random_order "synonym"
                (target - Z.of_nat (length all)) (exq ∪ used) exw w)
      as (qs & Hrun & _ & Hqs); [by apply Hneeded|].
    exists qs, (tick w). unfold bind at 1. rewrite Hrun. split; [done|].
    intros Hperm. destruct (Hqs Hperm) as [Hpicked _].
    eapply Forall_impl; [exact Hpicked|]. by intros q [? _].
  - exists [], w. rewrite app_nil_r. split; [done|]. constructor.
Qed.

(** The selector, with everything known about what it returns: the quiz
    is drawn from the questions found for the types ([chunks]) and by the
    backfill ([extra]). *)
Lemma select_questions_full user config w qs w' :
  select_questions random_order user config w = (Ok qs, w') →
  ∃ chunks extra exq,
    (∀ qid, qid ∈ exq
            ↔ recently_answered w user (exclude_recent_attempts config) qid)
    ∧ (rearranges random_order →
       qs ⊆+ chunks ++ extra
       ∧ Forall (picked w exq (excluded_word_set w user)) (chunks ++ extra)
       ∧ Forall (λ q, quiz_type q ∈ (format_distribution config).*1) chunks
       ∧ Forall (λ q, quiz_type q = "synonym") extra
       ∧ (keys_unique config →
          ∀ t c, (t, c) ∈ format_distribution config →
                 (Z.of_nat (length (of_type t chunks)) ≤ c)%Z)).
Proof.
  intros (exq & chunks & extra & w1 & w2 & Hexq & Hcollect & Hback & -> & _)
    %select_questions_stages.
  set (exw := excluded_word_set w user) in *.
  destruct (get_excluded_questions_inv _ _ _ _ _ Hexq) as [Hrecent _].
  destruct (get_excluded_questions_spec user _ w Hrecent)
    as (exq' & Hexq' & Hrecently).
  rewrite Hexq in Hexq'. injection Hexq' as <-.
  pose proof (collect_by_type_inv _ _ _ _ _ _ _ _ Hcollect) as Hdist.
  destruct (collect_by_type_ok random_order (format_distribution config)
              exq exw [] w Hdist)
    as (chunks1 & w1' & Hcollect1 & Hcat1 & Hchunks).
  rewrite Hcollect in Hcollect1. injection Hcollect1 as -> <-.
  destruct (collect_by_type_caps (format_distribution config) exq exw [] w
              Hdist) as (chunks2 & w1'' & Hcollect2 & Hcaps).
  rewrite Hcollect in Hcollect2. injection Hcollect2 as Heq _.
  simpl in Heq. subst chunks2.
  pose proof (backfill_inv _ _ _ _ _ _ _ _ Hback) as Hneeded.
  destruct (backfill_ok random_order (target_question_count config)
              exq exw chunks1 w1 Hneeded)
    as (extra1 & w2' & Hback1 & Hcat2 & Hextra).
  rewrite Hback in Hback1. injection Hback1 as Heq _.
  apply app_inv_head in Heq as ->.
  destruct (backfill_synonym (target_question_count config) exq exw
              chunks1 w1 Hneeded) as (extra2 & w2'' & Hback2 & Hsyn).
  rewrite Hback in Hback2. injection Hback2 as Heq _.
  apply app_inv_head in Heq as <-.
  exists chunks1, extra1, exq. split; [exact Hrecently|]. intros Hperm.
  destruct (Hchunks Hperm) as [Hpicked1 _].
  destruct (Hextra Hperm) as [Hpicked2 _].
  destruct (Hcaps Hperm) as [Htypes Hcap].
  split; [|split; [|split; [|split]]].
  - etrans; [apply sublist_submseteq, slice_to_sublist|].
    apply Permutation_submseteq, Hperm.
  - apply Forall_app. split.
    + eapply Forall_impl; [exact Hpicked1|]. by intros q [_ ?].
    + eapply Forall_impl; [exact Hpicked2|]. simpl. intros q [Hq _].
      by apply (picked_same_catalog w w1).
  - exact Htypes.
  - by apply Hsyn.
  - exact Hcap.
Qed.

(** What a quiz that was generated is made of. *)
Lemma generate_quiz_full user config w attempt w' :
  generate_quiz random_order user (Some config) w = (Ok attempt, w') →
  ∃ chunks extra exq,
    (∀ qid, qid ∈ exq
            ↔ recently_answered w user (exclude_recent_attempts config) qid)
    ∧ (rearranges random_order →
       attempt_questions attempt ⊆+ chunks ++ extra
       ∧ Forall (picked w exq (excluded_word_set w user)) (chunks ++ extra)
       ∧ Forall (λ q, quiz_type q ∈ (format_distribution config).*1) chunks
       ∧ Forall (λ q, quiz_type q = "synonym") extra
       ∧ (keys_unique config →
          ∀ t c, (t, c) ∈ format_distribution config →
                 (Z.of_nat (length (of_type t chunks)) ≤ c)%Z)).
Proof.
  intros Hrun.
  destruct (generate_quiz_ok _ _ _ _ _ _ Hrun) as (w1 & Hsel).
  by apply select_questions_full in Hsel.
Qed.

(** X1.  A quiz that was generated holds no question the user has
    answered in one of their last [exclude_recent_attempts] attempts. *)
Theorem quiz_avoids_recent_questions user config w attempt w' :
  generate_quiz random_order user (Some config) w = (Ok attempt, w') →
  rearranges random_order →
  ∀ q, q ∈ attempt_questions attempt →
       ¬ recently_answered w user (exclude_recent_attempts config)
           (question_id q).
Proof.
  intros Hrun Hperm q Hq Hrecent.
  destruct (generate_quiz_full _ _ _ _ _ Hrun)
    as (chunks & extra & exq & Hexq & Hqs).
  destruct (Hqs Hperm) as (Hsub & Hpicked & _).
  apply (elem_of_submseteq _ _ _ Hq) in Hsub.
  apply (proj1 (Forall_forall _ _) Hpicked) in Hsub
    as (row & _ & _ & _ & Hex & _).
  apply Hex. by apply Hexq.
Qed.

(** X2.  Every question of a quiz that was generated is the data of a
    row of the catalog, under the type of that row, and its type is one
    of the types of the distribution or the backfill type "synonym". *)
Theorem quiz_questions_come_from_catalog user config w attempt w' :
  generate_quiz random_order user (Some config) w = (Ok attempt, w') →
  rearranges random_order →
  ∀ q, q ∈ attempt_questions attempt →
       from_catalog w q
       ∧ (quiz_type q ∈ (format_distribution config).*1
          ∨ quiz_type q = "synonym").
Proof.
  intros Hrun Hperm q Hq.
  destruct (generate_quiz_full _ _ _ _ _ Hrun)
    as (chunks & extra & exq & _ & Hqs).
  destruct (Hqs Hperm) as (Hsub & Hpicked & Htypes & Hsyn & _).
  apply (elem_of_submseteq _ _ _ Hq) in Hsub. split.
  - apply (proj1 (Forall_forall _ _) Hpicked) in Hsub
      as (row & Hrow & Hdata & Htype & _).
    by exists row.
  - apply elem_of_app in Hsub as [Hin|Hin].
    + left. by apply (proj1 (Forall_forall _ _) Htypes).
    + right. by apply (proj1 (Forall_forall _ _) Hsyn).
Qed.

(** X3.  A quiz that was generated holds at most the sub-target of
    questions of each type of the distribution, but for "synonym", which
    the backfill may top up. *)
Theorem quiz_respects_sub_targets user config w attempt w' :
  generate_quiz random_order user (Some config) w = (Ok attempt, w') →
  rearranges random_order →
  keys_unique config →
  ∀ t c, (t, c) ∈ format_distribution config →
         t ≠ "synonym" →
         (Z.of_nat (length (of_type t (attempt_questions attempt))) ≤ c)%Z.
Proof.
  intros Hrun Hperm Hkeys t c Hin Ht.
  destruct (generate_quiz_full _ _ _ _ _ Hrun)
    as (chunks & extra & exq & _ & Hqs).
  destruct (Hqs Hperm) as (Hsub & _ & _ & Hsyn & Hcaps).
  pose proof (filter_submseteq_length (λ q, quiz_type q = t) _ _ Hsub) as Hle.
  rewrite filter_app, length_app in Hle.
  rewrite (filter_none _ extra) in Hle.
  - specialize (Hcaps Hkeys t c Hin). unfold of_type in *. simpl in Hle. lia.
  - eapply Forall_impl; [exact Hsyn|]. simpl. congruence.
Qed.

(** *** Failure *)

Lemma only_draws_refl w : only_draws w w.
Proof. by repeat split. Qed.

Lemma only_draws_tick w w' : only_draws (tick w) w' → only_draws w w'.
Proof. done. Qed.

Lemma get_questions_by_criteria_harmless t count exq exw w :
  harmless w (get_questions_by_criteria random_order t count exq exw w).
Proof.
  destruct (decide (type_ok (t, count))) as [Hok|Hbad].
  - destruct (get_questions_by_criteria_ok random_order t count exq exw w Hok)
      as (qs & -> & _). by split.
  - destruct (get_questions_by_criteria_raises random_order t count exq exw w
                Hbad) as (e & -> & He).
    split; [apply only_draws_refl|exact He].
Qed.

Lemma collect_by_type_harmless dist exq exw acc w :
  harmless w (collect_by_type random_order dist exq exw acc w).
Proof.
  revert acc w. induction dist as [|[t c] dist IH]; intros acc w.
  - split; [apply only_draws_refl|done].
  - simpl. unfold bind at 1.
    pose proof (get_questions_by_criteria_harmless t c exq exw w) as [Hw He].
    destruct (get_questions_by_criteria _ _ _ _ _ _) as [[qs|e] w1];
      [|by split].
    destruct (IH (acc ++ qs) w1) as [Hw' He']. split; [|done].
    destruct Hw as (?&?&?&?&?), Hw' as (?&?&?&?&?).
    repeat split; by etrans.
Qed.

Lemma backfill_harmless target exq exw all w :
  harmless w (backfill random_order target exq exw all w).
Proof.
  unfold backfill. destruct (_ <? _)%Z; [|split; [apply only_draws_refl|done]].
  unfold bind at 1.
  pose proof (get_questions_by_criteria_harmless "synonym"
                (target - Z.of_nat (length all))
                (exq ∪ list_to_set (question_id <$> all)) exw w) as [Hw He].
  destruct (get_questions_by_criteria _ _ _ _ _ _) as [[qs|e] w1]; by split.
Qed.

Lemma select_questions_harmless user config w :
  harmless w (select_questions random_order user config w).
Proof.
  unfold select_questions. unfold bind at 1.
  destruct (decide (0 ≤ exclude_recent_attempts config ≤ int8_max)%Z)
    as [Hok|Hno].
  2:{ destruct (get_excluded_questions_raises user _ w Hno) as (e & -> & He).
      split; [apply only_draws_refl|]. right. exact He. }
  destruct (get_excluded_questions_ok user _ w Hok) as (exq & ->).
  unfold bind at 1. rewrite get_globally_mastered_words_ok.
  unfold bind at 1.
  pose proof (collect_by_type_harmless (format_distribution config) exq
                (excluded_word_set w user) [] w) as [Hw He].
  destruct (collect_by_type _ _ _ _ _ _) as [[chunks|e] w1]; [|by split].
  unfold bind at 1.
  pose proof (backfill_harmless (target_question_count config) exq
                (excluded_word_set w user) chunks w1) as [Hw' He'].
  destruct (backfill _ _ _ _ _ _) as [[all|e] w2].
  - unfold bind, shuffled, ret. split; [|done]. simpl in *.
    destruct Hw as (?&?&?&?&?), Hw' as (?&?&?&?&?).
    repeat split; simpl; by etrans.
  - split; [|done]. simpl in *.
    destruct Hw as (?&?&?&?&?), Hw' as (?&?&?&?&?).
    repeat split; by etrans.
Qed.

(** X4.  A quiz that cannot be generated leaves no attempt behind: when
    [generate_quiz] raises, the attempts, their items, the responses and
    the attempt sequence are as before, and the error is the one of a
    query of the selector: the [ValueError] of the driver for a type name
    with a NUL, or the error of the server for a [LIMIT] that is negative
    or no [bigint]. *)
Theorem failed_generation_records_nothing user config w e w' :
  generate_quiz random_order user (Some config) w = (Raise e, w') →
  only_draws w w' ∧ selector_error e.
Proof.
  unfold generate_quiz. simpl. unfold bind at 1.
  pose proof (select_questions_harmless user config w) as [Hw He].
  destruct (select_questions random_order user config w) as [[qs|e'] w1].
  - destruct (record_attempt_ok user qs w1) as (a & w2 & -> & _). done.
  - by intros [= <- <-].
Qed.

(** *** A new session *)

Lemma insert_items_attempts aid (qs : list QuestionData) w us w' :
  for_each (λ q, execute (insert_attempt_item aid (question_id q))) qs w
    = (Ok us, w') →
  quiz_attempts w' = quiz_attempts w.
Proof.
  revert w us. induction qs as [|q qs IH]; intros w us.
  - by intros [= <- <-].
  - simpl. unfold bind at 1, execute at 1. unfold bind at 1.
    destruct (for_each _ qs _) as [[us'|e] w1] eqn:Hrun; [|done].
    intros [= <- <-]. by apply IH in Hrun.
Qed.

Lemma record_attempt_attempts user qs w attempt w' :
  record_attempt user qs w = (Ok attempt, w') →
  quiz_attempts w' =
    quiz_attempts w ++ [{| a_attempt_id := next_attempt_id w;
                           a_user_id := user;
                           a_completed := false |}].
Proof.
  unfold record_attempt, bind, query, execute, ret. simpl.
  destruct (for_each _ qs _) as [[us|e] w1] eqn:Hrun; [|done].
  intros [= <- <-]. by apply insert_items_attempts in Hrun.
Qed.

(** A session that was created, read back from the call. *)
Lemma create_quiz_session_ok uuid user config w s w' :
  create_quiz_session random_order uuid user (Some config) w = (Ok s, w') →
  ∃ w1,
    select_questions random_order user config w
      = (Ok (original_questions s), w1)
    ∧ s = fresh_session uuid user (next_attempt_id w) (original_questions s)
    ∧ questions w' = questions w
    ∧ quiz_attempts w' =
        quiz_attempts w ++ [{| a_attempt_id := next_attempt_id w;
                               a_user_id := user;
                               a_completed := false |}]
    ∧ quiz_attempt_items w' =
        quiz_attempt_items w
        ++ ((λ q, (next_attempt_id w, question_id q)) <$> original_questions s)
    ∧ next_attempt_id w' = (next_attempt_id w + 1)%Z.
Proof.
  unfold create_quiz_session, generate_quiz. simpl.
  unfold bind at 1. unfold bind at 1.
  destruct (select_questions random_order user config w)
    as [[qs|e] w1] eqn:Hsel; [|done].
  pose proof (select_questions_harmless user config w) as [Hw _].
  rewrite Hsel in Hw. simpl in Hw.
  destruct Hw as (Hq & Hatt & Hitems & _ & Hn).
  destruct (SessionFacts.record_attempt_spec user qs w1)
    as (w2 & Hrec & Hitems' & Hq' & _ & Hn').
  pose proof (record_attempt_attempts _ _ _ _ _ Hrec) as Hatt'.
  rewrite Hrec. intros [= <- <-]. exists w1. simpl.
  rewrite Hn. repeat split; try done.
  - by rewrite Hq', Hq.
  - by rewrite Hatt', Hatt, Hn.
  - by rewrite Hitems', Hitems, Hn.
  - by rewrite Hn', Hn.
Qed.

(** The items of the attempt of a new session are its questions. *)
Lemma fresh_session_active uuid user (qs : list QuestionData) w w' :
  items_below_sequence w →
  quiz_attempt_items w' =
    quiz_attempt_items w
    ++ ((λ q, (next_attempt_id w, question_id q)) <$> qs) →
  next_attempt_id w' = (next_attempt_id w + 1)%Z →
  active_question_ids (fresh_session uuid user (next_attempt_id w) qs) w'
    = question_id <$> qs
  ∧ items_below_sequence w'.
Proof.
  intros Hbelow Hitems Hn. split.
  - unfold active_question_ids. simpl. rewrite Hitems, filter_app.
    rewrite filter_none, filter_all, app_nil_l.
    + by rewrite <- list_fmap_compose.
    + apply Forall_forall. by intros item (q & -> & _)%list_elem_of_fmap.
    + eapply Forall_impl; [exact Hbelow|]. simpl. intros item. lia.
  - unfold items_below_sequence. rewrite Hitems, Hn.
    apply Forall_app. split.
    + eapply Forall_impl; [exact Hbelow|]. simpl. intros item. lia.
    + apply Forall_forall. intros item (q & -> & _)%list_elem_of_fmap.
      simpl. lia.
Qed.

(** X5.  A session that has just been created is in round 1 and not
    completed, its first and current attempt are the attempt just
    recorded, whose id is the next value of the sequence, and the items
    of that attempt are the questions of the session, in their order. *)
Theorem created_session_opens_round_one uuid user config w s w' :
  create_quiz_session random_order uuid user (Some config) w = (Ok s, w') →
  items_below_sequence w →
  session_id s = uuid
  ∧ user_id s = user
  ∧ current_round s = 1%Z
  ∧ is_completed s = false
  ∧ rounds_of s = []
  ∧ first_attempt_id s = Some (next_attempt_id w)
  ∧ current_attempt_id s = Some (next_attempt_id w)
  ∧ quiz_attempts w' =
      quiz_attempts w ++ [{| a_attempt_id := next_attempt_id w;
                             a_user_id := user;
                             a_completed := false |}]
  ∧ active_question_ids s w' = question_id <$> original_questions s
  ∧ items_below_sequence w'.
Proof.
  intros Hrun Hbelow.
  destruct (create_quiz_session_ok _ _ _ _ _ _ Hrun)
    as (w1 & _ & Hs & _ & Hatt & Hitems & Hn).
  destruct (fresh_session_active uuid user _ _ _ Hbelow Hitems Hn)
    as [Hactive Hbelow'].
  rewrite <- Hs in Hactive. rewrite Hs at 1 2 3 4 5 6 7. simpl.
  by repeat split.
Qed.

End selection.

Lemma quiz_avoids_recent_questions_witness :
  ∃ attempt w',
    generate_quiz Samples.reversing 7 (Some (Samples.config 3))
      MoreSamples.played = (Ok attempt, w')
    ∧ ∀ q, q ∈ attempt_questions attempt →
           ¬ recently_answered MoreSamples.played 7 5 (question_id q).
Proof.
  eexists _, _. split; [vm_compute; reflexivity|].
  eapply (quiz_avoids_recent_questions Samples.reversing 7
            (Samples.config 3) MoreSamples.played).
  - vm_compute. reflexivity.
  - exact reversing_rearranges.
Defined.

Lemma quiz_questions_come_from_catalog_witness :
  ∃ attempt w',
    generate_quiz Samples.reversing 7 (Some (Samples.config 3)) Samples.world
      = (Ok attempt, w')
    ∧ ∀ q, q ∈ attempt_questions attempt →
           from_catalog Samples.world q
           ∧ (quiz_type q ∈ ["synonym"; "antonym"]
              ∨ quiz_type q = "synonym").
Proof.
  eexists _, _. split; [vm_compute; reflexivity|].
  eapply (quiz_questions_come_from_catalog Samples.reversing 7
            (Samples.config 3) Samples.world).
  - vm_compute. reflexivity.
  - exact reversing_rearranges.
Defined.

Lemma quiz_respects_sub_targets_witness :
  ∃ attempt w',
    generate_quiz Samples.reversing 7 (Some (Samples.config 3)) Samples.world
      = (Ok attempt, w')
    ∧ ∀ t c, (t, c) ∈ [("synonym", 2%Z); ("antonym", 1%Z)] →
             t ≠ "synonym" →
             (Z.of_nat (length (of_type t (attempt_questions attempt))) ≤ c)%Z.
Proof.
  eexists _, _. split; [vm_compute; reflexivity|].
  eapply (quiz_respects_sub_targets Samples.reversing 7 (Samples.config 3)
            Samples.world).
  - vm_compute. reflexivity.
  - exact reversing_rearranges.
  - compute_done.
Defined.

Lemma failed_generation_records_nothing_witness :
  ∃ e w',
    generate_quiz Samples.reversing 7 (Some MoreSamples.bad_config)
      Samples.world = (Raise e, w')
    ∧ only_draws Samples.world w'
    ∧ selector_error e.
Proof.
  eexists _, _. split; [vm_compute; reflexivity|].
  eapply (failed_generation_records_nothing Samples.reversing 7
            MoreSamples.bad_config Samples.world).
  vm_compute. reflexivity.
Defined.

Lemma created_session_opens_round_one_witness :
  ∃ s w',
    create_quiz_session Samples.reversing "fresh" 7 (Some (Samples.config 3))
      Samples.world = (Ok s, w')
    ∧ session_id s = "fresh"
    ∧ user_id s = 7%Z
    ∧ current_round s = 1%Z
    ∧ is_completed s = false
    ∧ rounds_of s = []
    ∧ first_attempt_id s = Some 2%Z
    ∧ current_attempt_id s = Some 2%Z
    ∧ quiz_attempts w' =
        quiz_attempts Samples.world
        ++ [{| a_attempt_id := 2; a_user_id := 7; a_completed := false |}]
    ∧ active_question_ids s w' = question_id <$> original_questions s
    ∧ items_below_sequence w'.
Proof.
  eexists _, _. split; [vm_compute; reflexivity|].
  eapply (created_session_opens_round_one Samples.reversing "fresh" 7
            (Samples.config 3) Samples.world).
  - vm_compute. reflexivity.
  - compute_done.
Defined.

End SelectionMore.

(* ===================================================================== *)
(** ** More on rounds and sessions *)
(* ===================================================================== *)

Module SessionMore.
Import Store Service Engine Spec Terms.
Import SessionFacts.

(** *** Scores *)

Lemma score_bounds (correct total : nat) :
  correct ≤ total →
  (0 <= score correct total)%Q ∧ (score correct total <= 100)%Q.
Proof.
  intros Hle. unfold score. destruct total as [|n]; simpl.
  - split; unfold Qle; simpl; lia.
  - unfold Qle, Qdiv, Qmult, Qinv, inject_Z. simpl.
    rewrite Pos.mul_1_l, Pos.mul_1_r, Zpos_P_of_succ_nat. split; lia.
Qed.

Lemma graded_ids w rs resps :
  Forall2 (graded w) rs resps →
  resp_question_id <$> resps = rd_question_id <$> rs.
Proof.
  induction 1 as [|rd r rs resps (row & _ & Hid & _) _ IH]; [done|].
  rewrite !fmap_cons. by f_equal.
Qed.

Lemma correct_plus_incorrect (resps : list QuizResponse) :
  length (filter (λ r, is_correct r = true) resps)
  + length (incorrect_ids resps) = length resps.
Proof.
  unfold incorrect_ids. rewrite length_fmap.
  induction resps as [|r resps IH]; [done|].
  rewrite !filter_cons. destruct (is_correct r); simpl; lia.
Qed.

(** X6.  A result that [submit_quiz] returns is scored: every response
    is counted, in the order submitted; the correct and the incorrect
    responses add up to the total; and the score lies between 0 and
    100. *)
Theorem submitted_quiz_is_scored aid rs w res w' :
  submit_quiz aid rs w = (Ok res, w') →
  total_questions res = length rs
  ∧ resp_question_id <$> result_responses res = rd_question_id <$> rs
  ∧ correct_answers res + length (incorrect_ids (result_responses res))
    = total_questions res
  ∧ (0 <= score_percentage res)%Q
  ∧ (score_percentage res <= 100)%Q.
Proof.
  intros Hrun.
  apply submit_quiz_ok in Hrun
    as (_ & _ & Hg & _ & Htotal & Hcorrect & Hscore & _).
  pose proof (correct_plus_incorrect (result_responses res)) as Hsum.
  pose proof (Forall2_length _ _ _ Hg) as Hlen.
  split; [done|]. split; [by apply (graded_ids w)|]. split; [lia|].
  rewrite Hscore. apply score_bounds. lia.
Qed.

Lemma submitted_quiz_is_scored_witness :
  ∃ res w',
    submit_quiz 1 [Samples.answer 1 "Happy"; Samples.answer 3 "small"]
      Samples.world = (Ok res, w')
    ∧ total_questions res = 2
    ∧ resp_question_id <$> result_responses res = [1; 3]%Z
    ∧ correct_answers res + length (incorrect_ids (result_responses res))
      = total_questions res
    ∧ (0 <= score_percentage res)%Q
    ∧ (score_percentage res <= 100)%Q.
Proof.
  eexists _, _. split; [vm_compute; reflexivity|].
  eapply (submitted_quiz_is_scored 1
            [Samples.answer 1 "Happy"; Samples.answer 3 "small"]
            Samples.world).
  vm_compute. reflexivity.
Defined.

(** *** A submission that fails midway *)

Lemma submit_all_prefix aid pre rest w :
  Forall (known w) pre →
  Forall writable pre →
  ∃ resps w1,
    Forall2 (graded w) pre resps
    ∧ kept w w1
    ∧ responses w1 = responses w ++ rows_of aid resps
    ∧ quiz_attempts w1 = quiz_attempts w
    ∧ submit_all aid (pre ++ rest) w =
        match submit_all aid rest w1 with
        | (Ok resps', w2) => (Ok (resps ++ resps'), w2)
        | (Raise e, w2) => (Raise e, w2)
        end.
Proof.
  revert w. induction pre as [|[qid answer] pre IH]; intros w Hpre Hwr.
  - exists [], w. split; [constructor|]. split; [apply kept_refl|].
    split; [by rewrite app_nil_r|]. split; [done|].
    simpl. by destruct (submit_all aid rest w) as [[?|?] ?].
  - apply Forall_cons in Hpre as [Hrd Hpre].
    apply Forall_cons in Hwr as [Hnul Hwr].
    apply known_find in Hrd. simpl in Hrd.
    destruct (submit_response_known aid qid answer w Hrd Hnul)
      as (r & w0 & H0).
    pose proof (submit_response_ok _ _ _ _ _ _ H0) as [Hr ->].
    destruct (IH (insert_response (response_row aid r) w))
      as (resps & w1 & Hg & Hk & Hresp & Hatt & Hrun); [|done|].
    { eapply Forall_impl; [exact Hpre|]. intros rd.
      apply known_kept, insert_response_kept. }
    exists (r :: resps), w1. split; [|split; [|split; [|split]]].
    + constructor; [done|]. eapply Forall2_impl; [exact Hg|].
      intros rd r'. apply graded_kept, insert_response_kept.
    + eapply kept_trans; [apply insert_response_kept|exact Hk].
    + rewrite Hresp. simpl. by rewrite <- app_assoc.
    + by rewrite Hatt.
    + unfold submit_all in *. simpl. unfold bind at 1. rewrite H0.
      unfold bind at 1. rewrite Hrun.
      by destruct (for_each _ rest w1) as [[?|?] ?].
Qed.

(** X7.  A submission is not atomic.  When a response names a question
    that is not in the catalog, and the responses before it name known
    questions and hold answers without a NUL character, [submit_quiz]
    raises the [ValueError] that names this question; the responses
    before it stay written to [responses], and the attempt is not marked
    completed. *)
Theorem unknown_question_aborts_midway aid pre rd post w :
  Forall (known w) pre →
  Forall writable pre →
  ¬ known w rd →
  ∃ resps w',
    submit_quiz aid (pre ++ rd :: post) w =
      (Raise (ValueError ("Question " +:+ pretty (rd_question_id rd)
                          +:+ " not found")), w')
    ∧ Forall2 (graded w) pre resps
    ∧ responses w' = responses w ++ rows_of aid resps
    ∧ quiz_attempts w' = quiz_attempts w.
Proof.
  intros Hpre Hwr Hrd.
  destruct (submit_all_prefix aid pre (rd :: post) w Hpre Hwr)
    as (resps & w1 & Hg & Hk & Hresp & Hatt & Hrun).
  exists resps, w1. split; [|done].
  unfold submit_quiz. fold (submit_all aid (pre ++ rd :: post)).
  unfold bind at 1. rewrite Hrun.
  assert (Hnone : find_question (rd_question_id rd) w1 = None).
  { destruct (find_question (rd_question_id rd) w1) as [row|] eqn:Hrow;
      [|done].
    exfalso. apply Hrd, known_find. rewrite <- (find_question_kept w w1 _ Hk).
    by eexists. }
  unfold submit_all. simpl. unfold bind at 1.
  by rewrite (submit_response_unknown _ _ _ _ Hnone).
Qed.

Lemma unknown_question_aborts_midway_witness :
  ∃ resps w',
    submit_quiz 1
      ([Samples.answer 1 "happy"] ++ Samples.answer 9 "x"
       :: [Samples.answer 3 "big"]) Samples.world =
      (Raise (ValueError ("Question " +:+ pretty 9%Z +:+ " not found")), w')
    ∧ Forall2 (graded Samples.world) [Samples.answer 1 "happy"] resps
    ∧ responses w' = responses Samples.world ++ rows_of 1 resps
    ∧ quiz_attempts w' = quiz_attempts Samples.world.
Proof.
  apply (unknown_question_aborts_midway 1 [Samples.answer 1 "happy"]
           (Samples.answer 9 "x") [Samples.answer 3 "big"] Samples.world).
  - compute_done.
  - compute_done.
  - compute_done.
Defined.

(** *** A round that raises *)

Lemma submit_all_attempts aid rs w out w' :
  submit_all aid rs w = (out, w') → quiz_attempts w' = quiz_attempts w.
Proof.
  revert w out w'. induction rs as [|[qid answer] rs IH]; intros w out w'.
  - by intros [= <- <-].
  - unfold submit_all. simpl. unfold bind at 1.
    destruct (submit_response aid qid answer w) as [[r|e] w1] eqn:H1.
    + apply submit_response_ok in H1 as [_ ->].
      unfold bind at 1.
      destruct (for_each _ rs _) as [[rs'|e] w2] eqn:H2;
        apply IH in H2; by intros [= <- <-].
    + intros [= <- <-]. by apply submit_response_raises in H1 as [-> _].
Qed.

Lemma submit_quiz_raises aid rs w e w' :
  submit_quiz aid rs w = (Raise e, w') →
  kept w w' ∧ quiz_attempts w' = quiz_attempts w.
Proof.
  intros Hrun. split; [by eapply submit_quiz_kept|]. revert Hrun.
  unfold submit_quiz. fold (submit_all aid rs). unfold bind at 1.
  destruct (submit_all aid rs w) as [[resps|e'] w1] eqn:H1.
  - destruct (bool_decide _); [done|].
    destruct (fetch_incorrect_questions_spec resps w1) as (qs & Hqs & _).
    unfold bind at 1. by rewrite Hqs.
  - intros [= <- <-]. by eapply submit_all_attempts.
Qed.

Lemma round_raises s rs w e w' :
  submit_quiz_session_round s rs w = (Raise e, w') →
  kept w w' ∧ quiz_attempts w' = quiz_attempts w.
Proof.
  unfold submit_quiz_session_round.
  destruct (current_attempt_id s) as [aid|].
  2:{ intros [= <- <-]. split; [apply kept_refl|done]. }
  unfold bind at 1.
  destruct (submit_quiz aid rs w) as [[res|e'] w1] eqn:Hsub.
  - destruct (is_perfect_score res); [done|].
    destruct (incorrect_questions res) as [[|q qs]|]; try done.
    unfold create_retry_quiz.
    destruct (record_attempt_spec (user_id s) (q :: qs) w1) as (w2 & Hrec & _).
    unfold bind at 1. by rewrite Hrec.
  - intros [= <- <-]. by eapply submit_quiz_raises.
Qed.

(** *** What a round keeps of a session *)

Lemma round_identity s rs w res s' w' :
  submit_quiz_session_round s rs w = (Ok (res, s'), w') →
  session_id s' = session_id s
  ∧ user_id s' = user_id s
  ∧ original_questions s' = original_questions s
  ∧ first_attempt_id s' = first_attempt_id s.
Proof.
  unfold submit_quiz_session_round.
  destruct (current_attempt_id s) as [aid|]; [|done].
  unfold bind at 1.
  destruct (submit_quiz aid rs w) as [[res0|e] w1]; [|done].
  destruct (is_perfect_score res0); [by intros [= <- <- <-]|].
  destruct (incorrect_questions res0) as [[|q qs]|];
    try by intros [= <- <- <-].
  unfold create_retry_quiz.
  destruct (record_attempt_spec (user_id s) (q :: qs) w1) as (w2 & Hrec & _).
  unfold bind at 1. rewrite Hrec. by intros [= <- <- <-].
Qed.

Lemma imperfect_cons res new :
  imperfect (res :: new) =
    if is_perfect_score res then imperfect new else res :: imperfect new.
Proof.
  unfold imperfect. rewrite filter_cons. by destruct (is_perfect_score res).
Qed.

(** X8.  However a session is played, its id, its user, its original
    questions and its first attempt stay what they were, a completed
    session stays completed, the list of rounds only grows, by at most one
    result for each submission, and the round counter has advanced by the
    number of the new rounds that were not perfect. *)
Theorem play_keeps_session_identity rounds s w :
  let s' := (play s rounds w).1 in
  session_id s' = session_id s
  ∧ user_id s' = user_id s
  ∧ original_questions s' = original_questions s
  ∧ first_attempt_id s' = first_attempt_id s
  ∧ (is_completed s = true → is_completed s' = true)
  ∧ ∃ new,
      rounds_of s' = rounds_of s ++ new
      ∧ length new ≤ length rounds
      ∧ current_round s' =
          (current_round s + Z.of_nat (length (imperfect new)))%Z.
Proof.
  revert s w. induction rounds as [|rs rounds IH]; intros s w; simpl.
  - repeat split; try done. exists []. rewrite app_nil_r. simpl.
    split; [done|]. split; lia.
  - destruct (IH (session_after s rs w) (world_after s rs w))
      as (Hid & Huser & Hqs & Hfirst & Hdone & new & Hnew & Hlen & Hround).
    rewrite Hid, Huser, Hqs, Hfirst, Hnew, Hround.
    pose proof (round_completed s rs w) as Hsticky.
    unfold session_after in *.
    destruct (submit_quiz_session_round s rs w)
      as [[[res s1]|e] w1] eqn:Hrun.
    + destruct (round_identity _ _ _ _ _ _ Hrun) as (-> & -> & -> & ->).
      destruct (round_ok _ _ _ _ _ _ Hrun)
        as (aid & w2 & _ & _ & Hrounds & Hperf & Himperf).
      repeat split; try done.
      * intros H. apply Hdone, Hsticky. by left.
      * exists (res :: new). rewrite Hrounds, <- app_assoc.
        split; [done|]. split; [simpl; lia|].
        rewrite imperfect_cons.
        destruct (is_perfect_score res).
        -- by destruct (Hperf eq_refl) as (_ & -> & _).
        -- destruct (Himperf eq_refl) as (_ & -> & _). simpl length. lia.
    + repeat split; try done. exists new. split; [done|]. split; [lia|done].
Qed.

(** *** The attempts of a session *)

Lemma submit_quiz_attempts aid rs w res w' :
  submit_quiz aid rs w = (Ok res, w') →
  quiz_attempts w' = complete_row aid <$> quiz_attempts w.
Proof.
  unfold submit_quiz. fold (submit_all aid rs). unfold bind at 1.
  destruct (submit_all aid rs w) as [[resps|e] w1] eqn:H1; [|done].
  apply submit_all_attempts in H1.
  destruct (bool_decide _).
  - unfold bind, ret, execute. simpl. intros [= <- <-]. simpl.
    by rewrite H1.
  - destruct (fetch_incorrect_questions_spec resps w1) as (qs & Hqs & _).
    unfold bind at 1. rewrite Hqs.
    unfold bind, ret, execute. simpl. intros [= <- <-]. simpl.
    by rewrite H1.
Qed.

(** X9.  An accepted round is scored under the current attempt of the
    session and marks that attempt completed; no other row of
    [quiz_attempts] changes, and one open attempt of the session's user,
    bearing the next value of the sequence, is appended exactly when the
    round was not perfect. *)
Theorem round_completes_its_attempt s rs w res s' w' :
  submit_quiz_session_round s rs w = (Ok (res, s'), w') →
  current_attempt_id s = Some (result_attempt_id res)
  ∧ quiz_attempts w' =
      (complete_row (result_attempt_id res) <$> quiz_attempts w)
      ++ (if is_perfect_score res then []
          else [{| a_attempt_id := next_attempt_id w;
                   a_user_id := user_id s;
                   a_completed := false |}]).
Proof.
  unfold submit_quiz_session_round.
  destruct (current_attempt_id s) as [aid|]; [|done].
  unfold bind at 1.
  destruct (submit_quiz aid rs w) as [[res0|e] w1] eqn:Hsub; [|done].
  pose proof (submit_quiz_attempts _ _ _ _ _ Hsub) as Hatt.
  destruct (submit_quiz_ok _ _ _ _ _ Hsub)
    as ((_ & _ & _ & Hn) & _ & _ & Haid & _ & _ & _ & _ & _ & Himperf).
  destruct (is_perfect_score res0) eqn:Hp.
  - intros [= <- <- <-]. rewrite Hp, Haid, app_nil_r. done.
  - destruct (Himperf eq_refl) as (q & qs & Hqs & _). rewrite Hqs.
    unfold create_retry_quiz.
    destruct (record_attempt_spec (user_id s) (q :: qs) w1)
      as (w2 & Hrec & _).
    pose proof (SelectionMore.record_attempt_attempts _ _ _ _ _ Hrec)
      as Hatt'.
    unfold bind at 1. rewrite Hrec. unfold ret.
    intros [= <- <- <-]. rewrite Hp, Haid, Hatt', Hatt, Hn. done.
Qed.

Lemma round_completes_its_attempt_witness :
  ∃ res s' w',
    submit_quiz_session_round Samples.session
      [Samples.answer 1 "happy"; Samples.answer 3 "small"] Samples.world
      = (Ok (res, s'), w')
    ∧ current_attempt_id Samples.session = Some (result_attempt_id res)
    ∧ quiz_attempts w' =
        (complete_row (result_attempt_id res)
           <$> quiz_attempts Samples.world)
        ++ (if is_perfect_score res then []
            else [{| a_attempt_id := next_attempt_id Samples.world;
                     a_user_id := user_id Samples.session;
                     a_completed := false |}]).
Proof.
  eexists _, _, _. split; [vm_compute; reflexivity|].
  eapply (round_completes_its_attempt Samples.session
           [Samples.answer 1 "happy"; Samples.answer 3 "small"]
           Samples.world).
  vm_compute. reflexivity.
Defined.

(** *** The questions of a retry round *)

Lemma fetch_incorrect_questions_sublist resps w qs w' :
  fetch_incorrect_questions resps w = (Ok qs, w') →
  question_id <$> qs `sublist_of` q_question_id <$> questions w.
Proof.
  unfold fetch_incorrect_questions.
  destruct (resp_question_id <$> filter _ resps) as [|i ids].
  - intros [= <- <-]. apply sublist_nil_l.
  - unfold bind, query, ret. simpl. intros [= <- <-].
    rewrite <- list_fmap_compose.
    erewrite (list_fmap_ext _ q_question_id); [|done..].
    apply fmap_sublist, sublist_filter.
Qed.

Lemma incorrect_questions_sublist aid rs w res w' qs :
  submit_quiz aid rs w = (Ok res, w') →
  incorrect_questions res = Some qs →
  question_id <$> qs `sublist_of` q_question_id <$> questions w.
Proof.
  unfold submit_quiz. fold (submit_all aid rs). unfold bind at 1.
  destruct (submit_all aid rs w) as [[resps|e] w1] eqn:H1; [|done].
  destruct (submit_all_kept _ _ _ _ _ H1) as (Hq & _).
  destruct (bool_decide _).
  - unfold bind, ret, execute. simpl. by intros [= <- <-].
  - unfold bind at 1.
    destruct (fetch_incorrect_questions resps w1) as [[qs'|e] w2] eqn:H2;
      [|done].
    apply fetch_incorrect_questions_sublist in H2.
    unfold bind, ret, execute. simpl. intros [= <- <-]. simpl.
    destruct qs' as [|q qs']; [done|]. intros [= <-]. by rewrite <- Hq.
Qed.

(** The items of the attempt recorded for a retry are the incorrect
    questions of the round, in their order. *)
Lemma retry_round_active s rs w res s' w' :
  submit_quiz_session_round s rs w = (Ok (res, s'), w') →
  is_perfect_score res = false →
  items_below_sequence w →
  ∃ q qs,
    incorrect_questions res = Some (q :: qs)
    ∧ active_question_ids s' w' = question_id <$> q :: qs.
Proof.
  intros Hrun Hp Hfresh.
  destruct (round_ok _ _ _ _ _ _ Hrun)
    as (aid & w1 & _ & Hsub & _ & _ & Himperf).
  apply submit_quiz_ok in Hsub as (_ & _ & _ & _ & _ & _ & _ & _ & _ & Hnext).
  destruct (Himperf Hp) as (_ & _ & Hattempt & _ & qs & Hqs & Hitems).
  destruct (Hnext Hp) as (q & qs' & Hqs' & _).
  exists q, qs'. split; [done|].
  replace qs with (q :: qs') in * by congruence.
  unfold active_question_ids. rewrite Hattempt, Hitems, filter_app.
  rewrite SelectionMore.filter_none, SelectionMore.filter_all, app_nil_l.
  - by rewrite <- list_fmap_compose.
  - apply Forall_forall. by intros item (q0 & -> & _)%list_elem_of_fmap.
  - eapply Forall_impl; [exact Hfresh|]. simpl. intros item. lia.
Qed.

(** X10.  When a round with a wrong answer has been accepted, the round
    that follows it holds no question twice, also when a question was
    answered wrongly more than once, and it is no longer than the list of
    responses submitted. *)
Theorem retry_round_has_no_repeats s rs w res s' w' :
  submit_quiz_session_round s rs w = (Ok (res, s'), w') →
  items_below_sequence w →
  question_ids_unique w →
  (∃ qid, answered_incorrectly w rs qid) →
  NoDup (active_question_ids s' w')
  ∧ 0 < length (active_question_ids s' w') ≤ length rs.
Proof.
  intros Hrun Hfresh Huniq [bad Hbad].
  destruct (round_ok _ _ _ _ _ _ Hrun)
    as (aid & w1 & _ & Hsub & _ & _ & Himperf).
  pose proof (λ qs, incorrect_questions_sublist _ _ _ _ _ qs Hsub) as Hsl.
  apply submit_quiz_ok in Hsub
    as (_ & _ & Hg & _ & Htotal & Hcorrect & _ & Hperf & _ & Hnext).
  assert (Hp : is_perfect_score res = false).
  { rewrite Hperf. apply bool_decide_eq_false.
    rewrite Hcorrect, Htotal, (Forall2_length _ _ _ Hg), all_correct_iff.
    apply (incorrect_ids_graded w rs _ bad Hg) in Hbad.
    intros Hnil. rewrite Hnil in Hbad. by apply elem_of_nil in Hbad. }
  destruct (retry_round_active _ _ _ _ _ _ Hrun Hp Hfresh)
    as (q & qs & Hqs & ->).
  destruct (Hnext Hp) as (q' & qs' & Hqs' & Hset).
  replace (q' :: qs') with (q :: qs) in * by congruence.
  specialize (Hsl _ Hqs).
  assert (Hnd : NoDup (question_id <$> q :: qs)).
  { by apply (sublist_NoDup _ _ Huniq). }
  split; [done|]. split; [simpl; lia|].
  rewrite (Forall2_length _ _ _ Hg).
  etrans; [|apply (length_filter (λ r, is_correct r = false))].
  rewrite <- (length_fmap resp_question_id).
  apply submseteq_length, NoDup_submseteq; [done|].
  intros qid Hin. fold (incorrect_ids (result_responses res)).
  by apply (incorrect_ids_graded w rs _ qid Hg), Hset.
Qed.

Lemma retry_round_has_no_repeats_witness :
  ∃ res s' w',
    submit_quiz_session_round Samples.session
      [Samples.answer 3 "small"; Samples.answer 3 "large"] Samples.world
    = (Ok (res, s'), w')
    ∧ NoDup (active_question_ids s' w')
    ∧ 0 < length (active_question_ids s' w') ≤ 2.
Proof.
  eexists _, _, _. split; [vm_compute; reflexivity|].
  eapply (retry_round_has_no_repeats Samples.session
            [Samples.answer 3 "small"; Samples.answer 3 "large"]
            Samples.world).
  - vm_compute. reflexivity.
  - compute_done.
  - compute_done.
  - exists 3%Z, (Samples.answer 3 "small"), (Samples.row 3 "big" "antonym").
    split; [left|]. by repeat split.
Defined.

(** *** The summary of a session *)

Lemma imap_app_singleton {A B} (f : nat → A → B) (l : list A) (x : A) :
  imap f (l ++ [x]) = imap f l ++ [f (length l) x].
Proof.
  rewrite imap_app. simpl. by rewrite Nat.add_0_r.
Qed.

(** X11.  After a round has been accepted, the summary of the session
    counts one round more, its last entry describes the round just
    submitted and bears the count of rounds as its number, and the first
    score is the score of the first round of the session, so it is never
    missing. *)
Theorem summary_after_round s rs w res s' w' :
  submit_quiz_session_round s rs w = (Ok (res, s'), w') →
  let summary := get_session_summary s' in
  total_rounds summary = S (length (rounds_of s))
  ∧ last (rounds_summary summary)
    = Some {| round := total_rounds summary;
              round_attempt_id := result_attempt_id res;
              questions_count := total_questions res;
              round_correct_answers := correct_answers res;
              round_score_percentage := score_percentage res;
              is_perfect := is_perfect_score res |}
  ∧ first_attempt_score summary
    = Some (score_percentage (default res (head (rounds_of s))))
  ∧ summary_current_round summary = current_round s'
  ∧ summary_is_completed summary = is_completed s'.
Proof.
  intros Hrun. destruct (round_ok _ _ _ _ _ _ Hrun)
    as (aid & w1 & _ & _ & Hrounds & _).
  unfold get_session_summary, rounds_of in *.
  destruct (completed_rounds s') as [[|first rounds]|]; simpl in Hrounds.
  - by destruct (default [] (completed_rounds s)).
  - rewrite Hrounds. cbn [total_rounds rounds_summary first_attempt_score
      summary_current_round summary_is_completed].
    rewrite imap_app_singleton, last_snoc, length_app. simpl.
    unfold round_summary. rewrite Nat.add_1_r.
    repeat split. f_equal. f_equal.
    destruct (default [] (completed_rounds s)) as [|r l]; simpl in *;
      congruence.
  - by destruct (default [] (completed_rounds s)).
Qed.

Lemma summary_after_round_witness :
  ∃ res s' w',
    submit_quiz_session_round Samples.session
      [Samples.answer 1 "happy"; Samples.answer 3 "big"] Samples.world
      = (Ok (res, s'), w')
    ∧ let summary := get_session_summary s' in
      total_rounds summary = S (length (rounds_of Samples.session))
      ∧ last (rounds_summary summary)
        = Some {| round := total_rounds summary;
                  round_attempt_id := result_attempt_id res;
                  questions_count := total_questions res;
                  round_correct_answers := correct_answers res;
                  round_score_percentage := score_percentage res;
                  is_perfect := is_perfect_score res |}
      ∧ first_attempt_score summary
        = Some (score_percentage
                  (default res (head (rounds_of Samples.session))))
      ∧ summary_current_round summary = current_round s'
      ∧ summary_is_completed summary = is_completed s'.
Proof.
  eexists _, _, _. split; [vm_compute; reflexivity|].
  eapply (summary_after_round Samples.session
            [Samples.answer 1 "happy"; Samples.answer 3 "big"]
            Samples.world).
  vm_compute. reflexivity.
Defined.

End SessionMore.

(* ===================================================================== *)
(** ** The session endpoints *)
(* ===================================================================== *)

Module ApiFacts.
Import Store Service Engine Spec Terms Api.
Import SessionFacts.

(** *** The round endpoint, case by case *)

Lemma round_endpoint_unknown sid rs tok srv :
  active_quiz_sessions srv !! sid = None →
  Api.submit_quiz_session_round sid rs tok srv
  = (HttpError 404 "Quiz session not found", srv).
Proof. unfold Api.submit_quiz_session_round. by intros ->. Qed.

Lemma round_endpoint_anonymous sid rs tok srv s :
  active_quiz_sessions srv !! sid = Some s →
  token_user_id tok = None →
  Api.submit_quiz_session_round sid rs tok srv
  = (HttpError 500 "Quiz session submission failed", srv).
Proof. unfold Api.submit_quiz_session_round. by intros -> ->. Qed.

Lemma round_endpoint_stranger sid rs tok srv s u :
  active_quiz_sessions srv !! sid = Some s →
  token_user_id tok = Some u →
  u ≠ user_id s →
  Api.submit_quiz_session_round sid rs tok srv
  = (HttpError 403 "Access denied", srv).
Proof.
  unfold Api.submit_quiz_session_round. intros -> -> Hu.
  by rewrite decide_True.
Qed.

Lemma round_endpoint_raises sid rs tok srv s e w :
  active_quiz_sessions srv !! sid = Some s →
  token_user_id tok = Some (user_id s) →
  Engine.submit_quiz_session_round s rs (tables srv) = (Raise e, w) →
  Api.submit_quiz_session_round sid rs tok srv
  = (HttpError 500 "Quiz session submission failed", with_tables w srv).
Proof.
  unfold Api.submit_quiz_session_round, Service.submit_quiz_session_round.
  intros -> -> ->. by rewrite decide_False by (by intros []).
Qed.

(** The summary of a session with a round is packed. *)
Lemma pack_summary_rounds s res s' rs w w' :
  Engine.submit_quiz_session_round s rs w = (Ok (res, s'), w') →
  ∃ summary,
    pack_summary (get_session_summary s') = Some summary
    ∧ qss_session_id summary = session_id s
    ∧ qss_total_rounds summary = S (length (rounds_of s))
    ∧ qss_is_completed summary = is_completed s'.
Proof.
  intros Hrun.
  destruct (round_ok _ _ _ _ _ _ Hrun) as (aid & w1 & _ & _ & Hrounds & _).
  destruct (SessionMore.round_identity _ _ _ _ _ _ Hrun) as (Hid & _).
  unfold get_session_summary, rounds_of in *.
  destruct (completed_rounds s') as [[|first rounds]|]; simpl in Hrounds.
  - by destruct (default [] (completed_rounds s)).
  - assert (Hlen : length (first :: rounds)
                   = S (length (default [] (completed_rounds s)))).
    { rewrite Hrounds, length_app. simpl. lia. }
    eexists. split; [reflexivity|]. by cbn -[length].
  - by destruct (default [] (completed_rounds s)).
Qed.

Lemma round_endpoint_accepts sid rs tok srv s res s' w :
  active_quiz_sessions srv !! sid = Some s →
  token_user_id tok = Some (user_id s) →
  Engine.submit_quiz_session_round s rs (tables srv) = (Ok (res, s'), w) →
  ∃ summary,
    pack_summary (get_session_summary s') = Some summary
    ∧ Api.submit_quiz_session_round sid rs tok srv
      = (Http200
           {| qsr_session_id := sid;
              qsr_current_round := current_round s';
              round_result := round_result_response res s';
              is_session_completed := is_completed s';
              next_questions := next_questions_of res s';
              session_summary :=
                if is_completed s' then Some summary else None |},
         with_sessions
           (if is_completed s'
            then delete sid (active_quiz_sessions srv)
            else <[sid := s']> (active_quiz_sessions srv))
           (with_tables w srv)).
Proof.
  intros Hs Htok Hrun.
  destruct (pack_summary_rounds _ _ _ _ _ _ Hrun) as (summary & Hpack & _).
  exists summary. split; [done|].
  unfold Api.submit_quiz_session_round, Service.submit_quiz_session_round.
  rewrite Hs, Htok, Hrun, decide_False by (by intros []).
  destruct (is_completed s'); [|done].
  by rewrite Hpack, delete_insert_eq.
Qed.

(** The engine accepts a round exactly when the session has an attempt,
    every question submitted is in the catalog and no answer holds a
    NUL. *)
Lemma round_accepted_iff s rs w :
  (∃ res s' w', Engine.submit_quiz_session_round s rs w = (Ok (res, s'), w'))
  ↔ is_Some (current_attempt_id s)
    ∧ Forall (known w) rs
    ∧ Forall writable rs.
Proof.
  split.
  - intros (res & s' & w' & Hrun). split.
    + destruct (round_ok _ _ _ _ _ _ Hrun) as (aid & _ & -> & _). by eexists.
    + by eapply round_accepted.
  - intros ([aid Haid] & Hrs & Hwr). by apply (round_known s aid).
Qed.

(** X12.  The round endpoint answers 404 exactly when the session is not
    registered, 403 exactly when the token bears the id of another user
    than the owner of the session, and 200 exactly when the session is
    registered, the token bears the id of its owner, the session has an
    attempt, every question submitted is in the catalog and no answer
    submitted holds a NUL character; it answers 500 otherwise. *)
Theorem round_endpoint_statuses sid rs tok srv :
  let answer := (Api.submit_quiz_session_round sid rs tok srv).1 in
  status_of answer ∈ [200; 403; 404; 500]%Z
  ∧ (status_of answer = 404%Z ↔ active_quiz_sessions srv !! sid = None)
  ∧ (status_of answer = 403%Z
     ↔ ∃ s u, active_quiz_sessions srv !! sid = Some s
              ∧ token_user_id tok = Some u
              ∧ u ≠ user_id s)
  ∧ (status_of answer = 200%Z
     ↔ ∃ s, active_quiz_sessions srv !! sid = Some s
            ∧ token_user_id tok = Some (user_id s)
            ∧ is_Some (current_attempt_id s)
            ∧ Forall (known (tables srv)) rs
            ∧ Forall writable rs).
Proof.
  simpl.
  destruct (active_quiz_sessions srv !! sid) as [s|] eqn:Hs.
  2:{ rewrite (round_endpoint_unknown _ _ _ _ Hs). simpl.
      split; [set_solver|]. split; [done|].
      split; split; try done; by intros (? & ? & ? & _). }
  destruct (token_user_id tok) as [u|] eqn:Htok.
  2:{ rewrite (round_endpoint_anonymous _ _ _ _ _ Hs Htok). simpl.
      split; [set_solver|]. split; [done|].
      split; split; try done.
      - by intros (? & ? & ? & ? & _).
      - by intros (? & ? & ? & _). }
  destruct (decide (u = user_id s)) as [->|Hu].
  2:{ rewrite (round_endpoint_stranger _ _ _ _ _ _ Hs Htok Hu). simpl.
      split; [set_solver|]. split; [done|]. split; split; try done.
      - intros _. by exists s, u.
      - intros (s0 & [= <-] & [= ?] & _). done. }
  destruct (Engine.submit_quiz_session_round s rs (tables srv))
    as [[[res s']|e] w] eqn:Hrun.
  - destruct (round_endpoint_accepts _ _ _ _ _ _ _ _ Hs Htok Hrun)
      as (summary & _ & ->). simpl.
    split; [set_solver|]. split; [done|]. split; split; try done.
    + intros (s0 & u & [= <-] & [= <-] & Hu). done.
    + intros _. exists s. repeat split; try done;
        apply (round_accepted_iff s rs (tables srv)); by exists res, s', w.
  - rewrite (round_endpoint_raises _ _ _ _ _ _ _ Hs Htok Hrun). simpl.
    split; [set_solver|]. split; [done|]. split; split; try done.
    + by intros (s0 & u & [= <-] & [= <-] & Hu).
    + intros (s0 & [= <-] & _ & Hcur & Hrs & Hwr).
      destruct (proj2 (round_accepted_iff s rs (tables srv)))
        as (? & ? & ? & ?); [done|congruence].
Qed.

(** What an accepted round answers, read back from the answer. *)
Lemma round_endpoint_200 sid rs tok srv body srv' :
  Api.submit_quiz_session_round sid rs tok srv = (Http200 body, srv') →
  ∃ s res s' w summary,
    active_quiz_sessions srv !! sid = Some s
    ∧ token_user_id tok = Some (user_id s)
    ∧ Engine.submit_quiz_session_round s rs (tables srv) = (Ok (res, s'), w)
    ∧ pack_summary (get_session_summary s') = Some summary
    ∧ body = {| qsr_session_id := sid;
                qsr_current_round := current_round s';
                round_result := round_result_response res s';
                is_session_completed := is_completed s';
                next_questions := next_questions_of res s';
                session_summary :=
                  if is_completed s' then Some summary else None |}
    ∧ srv' = with_sessions
               (if is_completed s'
                then delete sid (active_quiz_sessions srv)
                else <[sid := s']> (active_quiz_sessions srv))
               (with_tables w srv).
Proof.
  destruct (active_quiz_sessions srv !! sid) as [s|] eqn:Hs.
  2:{ by rewrite (round_endpoint_unknown _ _ _ _ Hs). }
  destruct (token_user_id tok) as [u|] eqn:Htok.
  2:{ by rewrite (round_endpoint_anonymous _ _ _ _ _ Hs Htok). }
  destruct (decide (u = user_id s)) as [->|Hu].
  2:{ by rewrite (round_endpoint_stranger _ _ _ _ _ _ Hs Htok Hu). }
  destruct (Engine.submit_quiz_session_round s rs (tables srv))
    as [[[res s']|e] w] eqn:Hrun.
  2:{ by rewrite (round_endpoint_raises _ _ _ _ _ _ _ Hs Htok Hrun). }
  destruct (round_endpoint_accepts _ _ _ _ _ _ _ _ Hs Htok Hrun)
    as (summary & Hpack & ->).
  intros [= <- <-]. by exists s, res, s', w, summary.
Qed.

(** X13.  A round that the endpoint does not answer with a 200 leaves
    the registry of sessions, the catalog, the items and the attempts as
    they were; with a 404 or a 403, nothing at all has changed. *)
Theorem refused_round_keeps_sessions sid rs tok srv :
  let out := Api.submit_quiz_session_round sid rs tok srv in
  status_of out.1 ≠ 200%Z →
  active_quiz_sessions out.2 = active_quiz_sessions srv
  ∧ users out.2 = users srv
  ∧ kept (tables srv) (tables out.2)
  ∧ quiz_attempts (tables out.2) = quiz_attempts (tables srv)
  ∧ (status_of out.1 ∈ [403; 404]%Z → out.2 = srv).
Proof.
  simpl.
  destruct (active_quiz_sessions srv !! sid) as [s|] eqn:Hs.
  2:{ rewrite (round_endpoint_unknown _ _ _ _ Hs). simpl.
      intros _. repeat split; try done. }
  destruct (token_user_id tok) as [u|] eqn:Htok.
  2:{ rewrite (round_endpoint_anonymous _ _ _ _ _ Hs Htok). simpl.
      intros _. repeat split; try done. }
  destruct (decide (u = user_id s)) as [->|Hu].
  2:{ rewrite (round_endpoint_stranger _ _ _ _ _ _ Hs Htok Hu). simpl.
      intros _. repeat split; try done. }
  destruct (Engine.submit_quiz_session_round s rs (tables srv))
    as [[[res s']|e] w] eqn:Hrun.
  - destruct (round_endpoint_accepts _ _ _ _ _ _ _ _ Hs Htok Hrun)
      as (summary & _ & ->). simpl. done.
  - rewrite (round_endpoint_raises _ _ _ _ _ _ _ Hs Htok Hrun). simpl.
    destruct (SessionMore.round_raises _ _ _ _ _ Hrun) as [Hk Hatt].
    intros _. repeat split; try done; try apply Hk.
    intros [?|[?|?%elem_of_nil]%elem_of_cons]%elem_of_cons; done.
Qed.

Lemma refused_round_keeps_sessions_witness :
  let out :=
    Api.submit_quiz_session_round "session"
      [Samples.answer 1 "happy"; Samples.answer 9 "x"]
      MoreSamples.token MoreSamples.server in
  active_quiz_sessions out.2 = active_quiz_sessions MoreSamples.server
  ∧ users out.2 = users MoreSamples.server
  ∧ kept (tables MoreSamples.server) (tables out.2)
  ∧ quiz_attempts (tables out.2) = quiz_attempts (tables MoreSamples.server)
  ∧ (status_of out.1 ∈ [403; 404]%Z → out.2 = MoreSamples.server).
Proof.
  apply (refused_round_keeps_sessions "session"
           [Samples.answer 1 "happy"; Samples.answer 9 "x"]
           MoreSamples.token MoreSamples.server).
  vm_compute. discriminate.
Defined.

(** X14.  When the round endpoint reports the session completed, which
    it does exactly when the round was perfect or the session was
    completed before, the answer carries the summary and no next
    questions, the session is deleted from the registry, and every later
    request on its id is answered with a 404. *)
Theorem completed_session_is_evicted sid rs tok srv s body srv' :
  active_quiz_sessions srv !! sid = Some s →
  Api.submit_quiz_session_round sid rs tok srv = (Http200 body, srv') →
  (is_session_completed body = true
   ↔ is_completed s = true
     ∨ rr_is_perfect_score (round_result body) = true)
  ∧ (is_session_completed body = true →
     active_quiz_sessions srv' = delete sid (active_quiz_sessions srv)
     ∧ next_questions body = None
     ∧ (∃ summary,
          session_summary body = Some summary
          ∧ qss_total_rounds summary = S (length (rounds_of s))
          ∧ qss_is_completed summary = true)
     ∧ (∀ rs' tok',
          Api.submit_quiz_session_round sid rs' tok' srv'
          = (HttpError 404 "Quiz session not found", srv'))
     ∧ (∀ tok',
          get_quiz_session_status sid tok' srv'
          = HttpError 404 "Quiz session not found")).
Proof.
  intros Hs Hrun.
  destruct (round_endpoint_200 _ _ _ _ _ _ Hrun)
    as (s0 & res & s' & w & summary & Hs0 & Htok & Hround & Hpack & -> & ->).
  replace s0 with s in * by congruence. simpl.
  destruct (round_ok _ _ _ _ _ _ Hround)
    as (aid & w1 & _ & _ & _ & Hperf & Himperf).
  destruct (pack_summary_rounds _ _ _ _ _ _ Hround)
    as (summary' & Hpack' & _ & Htotal & Hdone).
  replace summary' with summary in * by congruence.
  split.
  - destruct (is_perfect_score res) eqn:Hp.
    + destruct (Hperf eq_refl) as (-> & _). split; [by right|done].
    + destruct (Himperf eq_refl) as (-> & _). split; [by left|].
      by intros [?|?].
  - intros Hcompleted. rewrite Hcompleted in *. simpl.
    split; [done|]. split.
    { unfold next_questions_of. by rewrite Hcompleted. }
    split; [by exists summary|]. split.
    + intros rs' tok'. apply round_endpoint_unknown. simpl.
      apply lookup_delete_eq.
    + intros tok'. unfold get_quiz_session_status. simpl.
      by rewrite lookup_delete_eq.
Qed.

Lemma completed_session_is_evicted_witness :
  ∃ body srv',
    Api.submit_quiz_session_round "session"
      [Samples.answer 1 "happy"; Samples.answer 3 "big"]
      MoreSamples.token MoreSamples.server = (Http200 body, srv')
    ∧ (is_session_completed body = true
       ↔ is_completed Samples.session = true
         ∨ rr_is_perfect_score (round_result body) = true)
    ∧ (is_session_completed body = true →
       active_quiz_sessions srv'
       = delete "session" (active_quiz_sessions MoreSamples.server)
       ∧ next_questions body = None
       ∧ (∃ summary,
            session_summary body = Some summary
            ∧ qss_total_rounds summary = S (length (rounds_of Samples.session))
            ∧ qss_is_completed summary = true)
       ∧ (∀ rs' tok',
            Api.submit_quiz_session_round "session" rs' tok' srv'
            = (HttpError 404 "Quiz session not found", srv'))
       ∧ (∀ tok',
            get_quiz_session_status "session" tok' srv'
            = HttpError 404 "Quiz session not found")).
Proof.
  eexists _, _. split; [vm_compute; reflexivity|].
  apply (completed_session_is_evicted "session"
           [Samples.answer 1 "happy"; Samples.answer 3 "big"]
           MoreSamples.token MoreSamples.server Samples.session).
  - reflexivity.
  - vm_compute. reflexivity.
Defined.

(** X15.  When the round endpoint reports the session not completed,
    the registry holds the session in its next round, the answer carries
    no summary, and its next questions are the items of the session's
    new attempt, in their order and without their answers; the status
    endpoint then reports that round. *)
Theorem open_session_offers_retry sid rs tok srv body srv' :
  items_below_sequence (tables srv) →
  Api.submit_quiz_session_round sid rs tok srv = (Http200 body, srv') →
  is_session_completed body = false →
  session_summary body = None
  ∧ ∃ s' q qs,
      active_quiz_sessions srv' !! sid = Some s'
      ∧ current_round s' = qsr_current_round body
      ∧ next_questions body = Some (q :: qs)
      ∧ client_question_id <$> q :: qs
        = active_question_ids s' (tables srv')
      ∧ get_quiz_session_status sid tok srv'
        = Http200
            {| status_session_id := session_id s';
               status_current_round := qsr_current_round body;
               status_is_completed := false;
               total_rounds_completed := length (rounds_of s');
               status_original_question_count :=
                 length (original_questions s') |}.
Proof.
  intros Hbelow Hrun.
  destruct (round_endpoint_200 _ _ _ _ _ _ Hrun)
    as (s & res & s' & w & summary & Hs & Htok & Hround & Hpack & -> & ->).
  simpl. intros Hopen. rewrite Hopen. split; [done|].
  destruct (round_ok _ _ _ _ _ _ Hround)
    as (aid & w1 & _ & _ & _ & Hperf & _).
  assert (Hp : is_perfect_score res = false).
  { destruct (is_perfect_score res); [|done].
    destruct (Hperf eq_refl) as (? & _). congruence. }
  destruct (SessionMore.retry_round_active _ _ _ _ _ _ Hround Hp Hbelow)
    as (q & qs & Hqs & Hactive).
  destruct (SessionMore.round_identity _ _ _ _ _ _ Hround) as (_ & Huser & _).
  exists s', (client_question q), (client_question <$> qs).
  rewrite lookup_insert_eq. split; [done|]. split; [done|]. split.
  { unfold next_questions_of. by rewrite Hopen, Hqs. }
  split.
  { rewrite Hactive. simpl. f_equal. by rewrite <- list_fmap_compose. }
  unfold get_quiz_session_status. simpl.
  rewrite lookup_insert_eq, Htok, decide_False, Hopen; [done|].
  rewrite Huser. by intros [].
Qed.

Lemma open_session_offers_retry_witness :
  ∃ body srv',
    Api.submit_quiz_session_round "session"
      [Samples.answer 1 "happy"; Samples.answer 3 "small"]
      MoreSamples.token MoreSamples.server = (Http200 body, srv')
    ∧ session_summary body = None
    ∧ ∃ s' q qs,
        active_quiz_sessions srv' !! "session" = Some s'
        ∧ current_round s' = qsr_current_round body
        ∧ next_questions body = Some (q :: qs)
        ∧ client_question_id <$> q :: qs
          = active_question_ids s' (tables srv')
        ∧ get_quiz_session_status "session" MoreSamples.token srv'
          = Http200
              {| status_session_id := session_id s';
                 status_current_round := qsr_current_round body;
                 status_is_completed := false;
                 total_rounds_completed := length (rounds_of s');
                 status_original_question_count :=
                   length (original_questions s') |}.
Proof.
  eexists _, _. split; [vm_compute; reflexivity|].
  apply (open_session_offers_retry "session"
           [Samples.answer 1 "happy"; Samples.answer 3 "small"]
           MoreSamples.token MoreSamples.server).
  - compute_done.
  - vm_compute. reflexivity.
  - reflexivity.
Defined.

(** X16.  The round number in the answer of the round endpoint is the
    number of the round submitted when the round was not perfect, and
    one less when it was: a perfect first round is reported as round 0.
    The current round of the answer is the round that follows an
    imperfect round, and the round submitted after a perfect one. *)
Theorem round_number_reported sid rs tok srv s body srv' :
  active_quiz_sessions srv !! sid = Some s →
  Api.submit_quiz_session_round sid rs tok srv = (Http200 body, srv') →
  round_number (round_result body)
  = (if rr_is_perfect_score (round_result body)
     then current_round s - 1 else current_round s)%Z
  ∧ qsr_current_round body
    = (if rr_is_perfect_score (round_result body)
       then current_round s else current_round s + 1)%Z.
Proof.
  intros Hs Hrun.
  destruct (round_endpoint_200 _ _ _ _ _ _ Hrun)
    as (s0 & res & s' & w & summary & Hs0 & _ & Hround & _ & -> & _).
  replace s0 with s in * by congruence. simpl.
  destruct (round_ok _ _ _ _ _ _ Hround)
    as (aid & w1 & _ & _ & _ & Hperf & Himperf).
  destruct (is_perfect_score res).
  - destruct (Hperf eq_refl) as (_ & -> & _). done.
  - destruct (Himperf eq_refl) as (_ & -> & _). split; [lia|done].
Qed.

Lemma round_number_reported_witness :
  ∃ body srv',
    Api.submit_quiz_session_round "session"
      [Samples.answer 1 "happy"; Samples.answer 3 "big"]
      MoreSamples.token MoreSamples.server = (Http200 body, srv')
    ∧ rr_is_perfect_score (round_result body) = true
    ∧ round_number (round_result body) = 0%Z
    ∧ qsr_current_round body = 1%Z.
Proof.
  eexists _, _. split; [vm_compute; reflexivity|].
  split; [reflexivity|].
  eapply (round_number_reported "session"
           [Samples.answer 1 "happy"; Samples.answer 3 "big"]
           MoreSamples.token MoreSamples.server Samples.session).
  - reflexivity.
  - vm_compute. reflexivity.
Defined.

(** *** The endpoint that creates a session *)

Section creation.
Variable random_order : nat → ∀ A : Type, list A → list A.

(** The limits of the configuration the endpoint builds: within the
    bounds of the request, only the distribution can break them. *)
Lemma quiz_config_limits config dist :
  request_valid config →
  Forall type_ok dist →
  limits_ok (quiz_config config (Some dist)).
Proof.
  intros [[_ Htarget] [Hrecent Hwindow]] Hdist.
  unfold limits_ok, queries_ok, int8_max. simpl. repeat split; try done; lia.
Qed.

Lemma create_quiz_session_returns uuid user config w :
  limits_ok config →
  ∃ s w',
    Engine.create_quiz_session random_order uuid user (Some config) w
    = (Ok s, w').
Proof.
  intros Hlimits.
  destruct (SelectionFacts.generate_quiz_returns random_order user config w
              Hlimits) as (attempt & w' & Hrun).
  unfold Engine.create_quiz_session, bind. rewrite Hrun. by eexists _, _.
Qed.

Lemma create_quiz_session_inv uuid user config w s w' :
  Engine.create_quiz_session random_order uuid user (Some config) w
  = (Ok s, w') →
  queries_ok config.
Proof.
  unfold Engine.create_quiz_session, bind.
  destruct (generate_quiz random_order user (Some config) w)
    as [[attempt|e] w1] eqn:Hrun; [|done].
  intros _. by eapply SelectionFacts.generate_quiz_inv.
Qed.

(** What the endpoint answers when it has created a session. *)
Lemma create_endpoint_200 uuid config tok srv body srv' :
  Api.create_quiz_session random_order uuid config tok srv
  = (Http200 body, srv') →
  ∃ user s w,
    request_valid config
    ∧ has_nul (sub tok) = false
    ∧ find_user (sub tok) (users srv) = Some user
    ∧ Engine.create_quiz_session random_order uuid user
        (Some (quiz_config config (Some (distribution_or_empty config))))
        (tables srv) = (Ok s, w)
    ∧ body = {| created_session_id := session_id s;
                created_user_id := user_id s;
                created_current_round := current_round s;
                created_questions := client_question <$> original_questions s;
                created_total_questions :=
                  length (client_question <$> original_questions s);
                is_first_attempt := true |}
    ∧ srv' = with_sessions
               (<[session_id s := s]> (active_quiz_sessions srv))
               (with_tables w srv).
Proof.
  unfold Api.create_quiz_session, create_quiz_session_for_user.
  destruct (decide (request_valid config)) as [Hvalid|]; [|done].
  destruct (has_nul (sub tok)) eqn:Hnul; [done|].
  destruct (find_user (sub tok) (users srv)) as [user|]; [|done].
  destruct (Engine.create_quiz_session _ _ _ _ _) as [[s|e] w] eqn:Hrun;
    [|done].
  intros [= <- <-]. by exists user, s, w.
Qed.

(** X17.  The endpoint that creates a session answers 422 exactly when
    the request is outside its bounds, and 200 exactly when the request
    is within them, the name of the token holds no NUL character and is
    the name of a user of [users], and every entry of the distribution
    of the request has a type name without a NUL character and a
    sub-target from 0 to 2^62 - 1, so that its [LIMIT] is a
    non-negative [bigint]; it answers 500 otherwise. *)
Theorem create_endpoint_statuses uuid config tok srv :
  let answer :=
    (Api.create_quiz_session random_order uuid config tok srv).1 in
  status_of answer ∈ [200; 422; 500]%Z
  ∧ (status_of answer = 422%Z ↔ ¬ request_valid config)
  ∧ (status_of answer = 200%Z
     ↔ request_valid config
       ∧ has_nul (sub tok) = false
       ∧ is_Some (find_user (sub tok) (users srv))
       ∧ Forall type_ok (distribution_or_empty config)).
Proof.
  simpl. unfold Api.create_quiz_session, create_quiz_session_for_user.
  destruct (decide (request_valid config)) as [Hvalid|Hinvalid]; simpl.
  2:{ split; [set_solver|]. split; [done|]. split; [done|tauto]. }
  destruct (has_nul (sub tok)) eqn:Hnul; simpl.
  { split; [set_solver|]. split; [done|]. split; [done|].
    by intros (_ & ? & _). }
  destruct (find_user (sub tok) (users srv)) as [user|]; simpl.
  2:{ split; [set_solver|]. split; [done|]. split; [done|].
      by intros (_ & _ & [? ?] & _). }
  destruct (Engine.create_quiz_session _ _ _ _ _) as [[s|e] w] eqn:Hrun;
    simpl.
  - split; [set_solver|]. split; [done|]. split; [|done].
    intros _. split; [done|]. split; [done|]. split; [done|].
    by apply create_quiz_session_inv in Hrun as [_ Hdist].
  - split; [set_solver|]. split; [done|]. split; [done|].
    intros (_ & _ & _ & Hdist).
    destruct (create_quiz_session_returns uuid user _ (tables srv)
                (quiz_config_limits config _ Hvalid Hdist)) as (? & ? & ?).
    congruence.
Qed.

(** X18.  A session the endpoint has created is registered under its
    id, for the user of the token, in round 1; the questions of the
    answer are at most the target in number, and they are the items of
    the session's attempt, in their order. *)
Theorem created_session_is_registered uuid config tok srv body srv' :
  items_below_sequence (tables srv) →
  Api.create_quiz_session random_order uuid config tok srv
  = (Http200 body, srv') →
  created_session_id body = uuid
  ∧ find_user (sub tok) (users srv) = Some (created_user_id body)
  ∧ created_current_round body = 1%Z
  ∧ created_total_questions body = length (created_questions body)
  ∧ (Z.of_nat (created_total_questions body)
     ≤ req_target_question_count config)%Z
  ∧ ∃ s,
      active_quiz_sessions srv' !! uuid = Some s
      ∧ user_id s = created_user_id body
      ∧ is_completed s = false
      ∧ client_question_id <$> created_questions body
        = active_question_ids s (tables srv')
      ∧ items_below_sequence (tables srv').
Proof.
  intros Hbelow Hrun.
  destruct (create_endpoint_200 _ _ _ _ _ _ Hrun)
    as (user & s & w & Hvalid & _ & Huser & Hcreate & -> & ->).
  destruct (SelectionMore.create_quiz_session_ok _ _ _ _ _ _ _ Hcreate)
    as (w1 & Hsel & Hs & _ & _ & Hitems & Hn).
  destruct (SelectionMore.fresh_session_active uuid user _ _ _
              Hbelow Hitems Hn) as [Hactive Hbelow'].
  rewrite <- Hs in Hactive.
  destruct (SelectionFacts.select_questions_cut _ _ _ _ _ _ Hsel)
    as (all & Hcut).
  assert (Hid : session_id s = uuid) by (by rewrite Hs).
  assert (Hu : user_id s = user) by (by rewrite Hs).
  simpl. rewrite Hid, Hu, lookup_insert_eq.
  split; [done|]. split; [done|]. split; [by rewrite Hs|].
  split; [done|]. split.
  { rewrite length_fmap, Hcut.
    apply SelectionFacts.slice_to_length. destruct Hvalid as [[? _] _].
    simpl. lia. }
  exists s. split; [done|]. split; [done|]. split; [by rewrite Hs|].
  split; [|done].
  by rewrite Hactive, <- list_fmap_compose.
Qed.

(** X19.  On a session the endpoint has created with a token issued for
    a user of [users], the round endpoint answers that token with a 200
    when every question submitted is in the catalog and no answer
    submitted holds a NUL character, and with a 500 otherwise; and it
    answers the token of any other user with a 403. *)
Theorem created_session_is_played_by_its_owner
    uuid config tok srv body srv' rs :
  issued_for (users srv) tok →
  Api.create_quiz_session random_order uuid config tok srv
  = (Http200 body, srv') →
  status_of
    (Api.submit_quiz_session_round (created_session_id body) rs tok srv').1
  = (if decide (Forall (known (tables srv')) rs ∧ Forall writable rs)
     then 200 else 500)%Z
  ∧ ∀ other u,
      token_user_id other = Some u →
      u ≠ created_user_id body →
      Api.submit_quiz_session_round (created_session_id body) rs other srv'
      = (HttpError 403 "Access denied", srv').
Proof.
  intros [_ Hissued] Hrun.
  destruct (create_endpoint_200 _ _ _ _ _ _ Hrun)
    as (user & s & w & Hvalid & _ & Huser & Hcreate & -> & ->).
  destruct (SelectionMore.create_quiz_session_ok _ _ _ _ _ _ _ Hcreate)
    as (w1 & _ & Hs & _).
  assert (Hu : user_id s = user) by (by rewrite Hs).
  assert (Hcur : current_attempt_id s = Some (next_attempt_id (tables srv)))
    by (by rewrite Hs).
  cbn [created_session_id created_user_id].
  set (srv' := with_sessions _ _).
  assert (Hlookup : active_quiz_sessions srv' !! session_id s = Some s)
    by apply lookup_insert_eq.
  assert (Htok : token_user_id tok = Some (user_id s)) by congruence.
  split.
  - destruct (decide (Forall (known (tables srv')) rs ∧ Forall writable rs))
      as [[Hrs Hwr]|Hrs].
    + destruct (round_known s _ rs (tables srv') Hcur Hrs Hwr)
        as (res & s' & w' & Hround).
      destruct (round_endpoint_accepts _ _ _ _ _ _ _ _ Hlookup Htok Hround)
        as (summary & _ & ->). done.
    + destruct (round_unknown s rs (tables srv') Hrs)
        as [(e & w' & Hround) _].
      by rewrite (round_endpoint_raises _ _ _ _ _ _ _ Hlookup Htok Hround).
  - intros other u Hother Hne.
    apply (round_endpoint_stranger _ _ _ _ s u); [done|done|congruence].
Qed.

(** X20.  A request that gives no distribution, or an empty one, is
    served from the backfill alone: every question of the session
    created is of type "synonym". *)
Theorem request_without_distribution_gives_synonyms
    uuid config tok srv body srv' :
  rearranges random_order →
  distribution_or_empty config = [] →
  Api.create_quiz_session random_order uuid config tok srv
  = (Http200 body, srv') →
  Forall (λ q, client_quiz_type q = "synonym") (created_questions body).
Proof.
  intros Hperm Hdist Hrun.
  destruct (create_endpoint_200 _ _ _ _ _ _ Hrun)
    as (user & s & w & Hvalid & _ & Huser & Hcreate & -> & _).
  destruct (SelectionMore.create_quiz_session_ok _ _ _ _ _ _ _ Hcreate)
    as (w1 & Hsel & _).
  destruct (SelectionMore.select_questions_full random_order user _
              (tables srv) _ _ Hsel)
    as (chunks & extra & exq & _ & Hqs).
  destruct (Hqs Hperm) as (Hsub & _ & Htypes & Hsyn & _).
  simpl. apply Forall_fmap, Forall_forall. intros q Hq. simpl.
  apply (elem_of_submseteq _ _ _ Hq) in Hsub.
  apply elem_of_app in Hsub as [Hin|Hin].
  - apply (proj1 (Forall_forall _ _) Htypes) in Hin.
    simpl in Hin. rewrite Hdist in Hin. by apply elem_of_nil in Hin.
  - by apply (proj1 (Forall_forall _ _) Hsyn).
Qed.

(** *** The endpoint that creates a single quiz *)

Lemma length_filter_fmap {A B} (f : A → B) (P : B → Prop)
    `{∀ x, Decision (P x)} (l : list A) :
  length (filter P (f <$> l)) = length (filter (λ x, P (f x)) l).
Proof.
  induction l as [|x l IH]; [done|].
  rewrite fmap_cons, !filter_cons. destruct (decide (P (f x))); simpl; lia.
Qed.

Lemma create_quiz_200 config tok srv body srv' :
  Api.create_quiz random_order config tok srv = (Http200 body, srv') →
  ∃ user quiz w,
    request_valid config
    ∧ has_nul (sub tok) = false
    ∧ find_user (sub tok) (users srv) = Some user
    ∧ generate_quiz random_order user
        (Some (quiz_config config (req_format_distribution config)))
        (tables srv) = (Ok quiz, w)
    ∧ body = {| qa_attempt_id := attempt_id quiz;
                qa_user_id := attempt_user_id quiz;
                qa_questions := client_question <$> attempt_questions quiz;
                qa_total_questions :=
                  length (client_question <$> attempt_questions quiz) |}
    ∧ srv' = with_tables w srv.
Proof.
  unfold Api.create_quiz, create_quiz_for_user.
  destruct (decide (request_valid config)) as [Hvalid|]; [|done].
  destruct (has_nul (sub tok)) eqn:Hnul; [done|].
  destruct (find_user (sub tok) (users srv)) as [user|]; [|done].
  destruct (generate_quiz _ _ _ _) as [[quiz|e] w] eqn:Hrun; [|done].
  intros [= <- <-]. by exists user, quiz, w.
Qed.

(** X21.  A quiz created by a request that gives no distribution is
    drawn with the default distribution: its attempt bears the next
    value of the sequence and the user of the token, it has at most the
    target of questions, every question is of one of the six default
    types, and of each type but "synonym" there are at most as many as
    the default sub-target. *)
Theorem quiz_without_distribution_is_balanced config tok srv body srv' :
  rearranges random_order →
  req_format_distribution config = None →
  Api.create_quiz random_order config tok srv = (Http200 body, srv') →
  qa_attempt_id body = next_attempt_id (tables srv)
  ∧ find_user (sub tok) (users srv) = Some (qa_user_id body)
  ∧ (Z.of_nat (qa_total_questions body)
     ≤ req_target_question_count config)%Z
  ∧ Forall (λ q, client_quiz_type q ∈ default_format_distribution.*1)
      (qa_questions body)
  ∧ ∀ t c,
      (t, c) ∈ default_format_distribution →
      t ≠ "synonym" →
      (Z.of_nat
         (length (filter (λ q, client_quiz_type q = t) (qa_questions body)))
       ≤ c)%Z.
Proof.
  intros Hperm Hnone Hrun.
  destruct (create_quiz_200 _ _ _ _ _ Hrun)
    as (user & quiz & w & Hvalid & _ & Huser & Hgen & -> & _).
  rewrite Hnone in Hgen.
  set (cfg := quiz_config config None) in *.
  destruct (SelectionFacts.generate_quiz_ok _ _ _ _ _ _ Hgen) as (w1 & Hsel).
  pose proof (SelectionMore.select_questions_harmless random_order user cfg
                (tables srv)) as [Hw _].
  rewrite Hsel in Hw. simpl in Hw. destruct Hw as (_ & _ & _ & _ & Hn).
  destruct (SessionFacts.record_attempt_spec user (attempt_questions quiz) w1)
    as (w2 & Hrec & _).
  assert (Hquiz : attempt_id quiz = next_attempt_id (tables srv)
                  ∧ attempt_user_id quiz = user).
  { revert Hgen. unfold generate_quiz. simpl. unfold bind at 1.
    fold cfg. rewrite Hsel, Hrec. intros [= <-]. by rewrite Hn. }
  destruct Hquiz as [Hid Hu].
  destruct (SelectionFacts.select_questions_cut _ _ _ _ _ _ Hsel)
    as (all & Hcut).
  destruct (SelectionMore.select_questions_full random_order user cfg
              (tables srv) _ _ Hsel)
    as (chunks & extra & exq & _ & Hqs).
  destruct (Hqs Hperm) as (Hsub & _ & Htypes & Hsyn & Hcaps).
  simpl. rewrite Hid, Hu.
  split; [done|]. split; [done|]. split.
  { rewrite length_fmap, Hcut. apply SelectionFacts.slice_to_length.
    destruct Hvalid as [[? _] _]. simpl. lia. }
  split.
  - apply Forall_fmap, Forall_forall. intros q Hq. simpl.
    apply (elem_of_submseteq _ _ _ Hq) in Hsub.
    apply elem_of_app in Hsub as [Hin|Hin].
    + by apply (proj1 (Forall_forall _ _) Htypes) in Hin.
    + apply (proj1 (Forall_forall _ _) Hsyn) in Hin. simpl in Hin.
      rewrite Hin. compute_done.
  - intros t c Hin Ht. rewrite length_filter_fmap. simpl.
    pose proof (SelectionMore.filter_submseteq_length
                  (λ q, quiz_type q = t) _ _ Hsub) as Hle.
    rewrite filter_app, length_app in Hle.
    rewrite (SelectionMore.filter_none _ extra) in Hle.
    + assert (Hkeys : keys_unique cfg) by compute_done.
      specialize (Hcaps Hkeys t c Hin). unfold of_type in *.
      simpl in Hle. lia.
    + eapply Forall_impl; [exact Hsyn|]. simpl. congruence.
Qed.

End creation.

Lemma created_session_is_registered_witness :
  ∃ body srv',
    Api.create_quiz_session Samples.reversing "fresh" MoreSamples.request
      MoreSamples.token MoreSamples.server = (Http200 body, srv')
    ∧ created_session_id body = "fresh"
    ∧ find_user (sub MoreSamples.token) (users MoreSamples.server)
      = Some (created_user_id body)
    ∧ created_current_round body = 1%Z
    ∧ created_total_questions body = length (created_questions body)
    ∧ (Z.of_nat (created_total_questions body)
       ≤ req_target_question_count MoreSamples.request)%Z
    ∧ ∃ s,
        active_quiz_sessions srv' !! "fresh" = Some s
        ∧ user_id s = created_user_id body
        ∧ is_completed s = false
        ∧ client_question_id <$> created_questions body
          = active_question_ids s (tables srv')
        ∧ items_below_sequence (tables srv').
Proof.
  eexists _, _. split; [vm_compute; reflexivity|].
  apply (created_session_is_registered Samples.reversing "fresh"
           MoreSamples.request MoreSamples.token MoreSamples.server).
  - compute_done.
  - vm_compute. reflexivity.
Defined.

Lemma created_session_is_played_by_its_owner_witness :
  ∃ body srv',
    Api.create_quiz_session Samples.reversing "fresh" MoreSamples.request
      MoreSamples.token MoreSamples.server = (Http200 body, srv')
    ∧ status_of
        (Api.submit_quiz_session_round (created_session_id body)
           [Samples.answer 1 "happy"] MoreSamples.token srv').1
      = (if decide (Forall (known (tables srv')) [Samples.answer 1 "happy"]
                    ∧ Forall writable [Samples.answer 1 "happy"])
         then 200 else 500)%Z
    ∧ ∀ other u,
        token_user_id other = Some u →
        u ≠ created_user_id body →
        Api.submit_quiz_session_round (created_session_id body)
          [Samples.answer 1 "happy"] other srv'
        = (HttpError 403 "Access denied", srv').
Proof.
  eexists _, _. split; [vm_compute; reflexivity|].
  apply (created_session_is_played_by_its_owner Samples.reversing "fresh"
           MoreSamples.request MoreSamples.token MoreSamples.server).
  - compute_done.
  - vm_compute. reflexivity.
Defined.

Lemma request_without_distribution_gives_synonyms_witness :
  ∃ body srv',
    Api.create_quiz_session Samples.reversing "fresh" MoreSamples.request
      MoreSamples.token MoreSamples.server = (Http200 body, srv')
    ∧ Forall (λ q, client_quiz_type q = "synonym") (created_questions body).
Proof.
  eexists _, _. split; [vm_compute; reflexivity|].
  eapply (request_without_distribution_gives_synonyms Samples.reversing
            "fresh" MoreSamples.request MoreSamples.token MoreSamples.server).
  - exact SelectionFacts.reversing_rearranges.
  - reflexivity.
  - vm_compute. reflexivity.
Defined.

Lemma quiz_without_distribution_is_balanced_witness :
  ∃ body srv',
    Api.create_quiz Samples.reversing MoreSamples.request MoreSamples.token
      MoreSamples.server = (Http200 body, srv')
    ∧ qa_attempt_id body = next_attempt_id (tables MoreSamples.server)
    ∧ find_user (sub MoreSamples.token) (users MoreSamples.server)
      = Some (qa_user_id body)
    ∧ (Z.of_nat (qa_total_questions body)
       ≤ req_target_question_count MoreSamples.request)%Z
    ∧ Forall (λ q, client_quiz_type q ∈ default_format_distribution.*1)
        (qa_questions body)
    ∧ ∀ t c,
        (t, c) ∈ default_format_distribution →
        t ≠ "synonym" →
        (Z.of_nat
           (length (filter (λ q, client_quiz_type q = t) (qa_questions body)))
         ≤ c)%Z.
Proof.
  eexists _, _. split; [vm_compute; reflexivity|].
  eapply (quiz_without_distribution_is_balanced Samples.reversing
           MoreSamples.request MoreSamples.token MoreSamples.server).
  - exact SelectionFacts.reversing_rearranges.
  - reflexivity.
  - vm_compute. reflexivity.
Defined.

End ApiFacts.
